(** * VR-GALLERY: layout builder, placement engine and movement solver

    A shallow embedding of [src/gallery.ts] ([buildGallery]) and
    [src/controls.ts] ([createControls]) and the properties the
    specification states about them.

    Numbers.  The TypeScript code computes with IEEE doubles.  Here a
    number is a rational ([Q]), and in the modules [Gallery] and
    [Controls] every comparison, sum, product and quotient is the exact
    one.  Where rounding can change what the code decides (the floor
    that counts the slots of a segment, the comparisons of the corner
    check), module [Rounded] has the same code with the rounding of
    every operation explicit, and [Rounded.binary64] is the rounding of
    doubles.  [Math.PI] is the rational value of the double the code
    uses.  Equality of numbers is [Qeq] ([==]).

    State.  [buildGallery] pushes to two arrays, adds objects to the
    scene and advances a cursor; the model threads one record [Build]
    through the calls, in the order of the source.  [createControls]
    keeps its state in closure variables that event listeners and
    [update] mutate; the model is a record [Ctl] and one function per
    listener. *)

From Stdlib Require Import String Ascii QArith Qabs Qround Qpower Lqa Lia
  ZArith Bool Arith List Morphisms.
Import ListNotations.
Local Open Scope Q_scope.

(* ===================================================================== *)
(** ** Numbers *)
(* ===================================================================== *)

Module Num.

(** The comparisons of the source, as booleans. *)
Definition ltb (a b : Q) : bool := negb (Qle_bool b a).
Definition gtb (a b : Q) : bool := ltb b a.
Definition leb (a b : Q) : bool := Qle_bool a b.
Definition geb (a b : Q) : bool := Qle_bool b a.

(** [Math.min], [Math.max], [Math.abs], [Math.floor]. *)
Definition Math_min (a b : Q) : Q := if leb a b then a else b.
Definition Math_max (a b : Q) : Q := if leb a b then b else a.
Definition Math_abs (a : Q) : Q := Qabs a.
Definition Math_floor (a : Q) : Z := Qfloor a.

(** [Math.min(a, b, c, d)] and [Math.max(a, b, c, d)]. *)
Definition Math_min4 (a b c d : Q) : Q := Math_min (Math_min (Math_min a b) c) d.
Definition Math_max4 (a b c d : Q) : Q := Math_max (Math_max (Math_max a b) c) d.

(** [Math.PI]: the double 0x1.921fb54442d18p+1. *)
Definition Math_PI : Q := 884279719003555 # 281474976710656.

End Num.
Import Num.

(* ===================================================================== *)
(** ** Shared types ([types.d.ts]) *)
(* ===================================================================== *)

Record ArtworkMeta := mkMeta {
  file : string;
  title : option string;
  author : option string;
  year : option string;
  description : option string
}.

Record Bounds := mkBounds {
  bMinX : Q; bMaxX : Q;
  bMinY : Q; bMaxY : Q;
  bMinZ : Q; bMaxZ : Q
}.

(** Axis-aligned wall collider (X/Z plane). *)
Record RectXZ := mkRect {
  minX : Q; maxX : Q;
  minZ : Q; maxZ : Q
}.

(** The type [1 | -1] of an outward normal. *)
Inductive Normal := Plus1 | Minus1.

Definition sgn (n : Normal) : Q :=
  match n with Plus1 => 1 | Minus1 => -1 end.

Record Vec3 := mkVec3 { vx : Q; vy : Q; vz : Q }.

(* ===================================================================== *)
(** ** Layout builder and placement engine ([gallery.ts]) *)
(* ===================================================================== *)

Module Gallery.

Record BuildOpts := mkOpts { imagesBase : string; artworks : list ArtworkMeta }.

(** A straight wall segment we can hang to. *)
Inductive WallSeg :=
| SegX (z x0 x1 : Q) (nZ : Normal)   (* long along X, normal along Z *)
| SegZ (x z0 z1 : Q) (nX : Normal).  (* long along Z, normal along X *)

(** What [scene.add] receives.  Materials, textures, shadows, background
    and fog do not reach any array or number of the layout and are left
    out; a mesh is its geometry size and its position. *)
Inductive SceneObj :=
| FloorMesh (sx sz : Q) (pos : Vec3)
| WallBox (sx sy sz : Q) (pos : Vec3)
| CeilMesh (sx sz : Q) (pos : Vec3)
| Lights (sun : Vec3)
| FrameObj (meta : ArtworkMeta) (imageUrl : string) (width : Q)
           (pos : Vec3) (rotY : Q).

(** Dimensions (meters). *)
Definition H : Q := 3.6.
Definition WALL_T : Q := 0.22.
Definition DOOR_W : Q := 3.0.
Definition WALL_GAP : Q := 0.2.
Definition CAP_MARGIN : Q := 0.80.
Definition SPACING : Q := 3.6.
Definition FRAME_W : Q := 1.8.
Definition HALF_W : Q := FRAME_W * 0.5.

(** Room rectangles. *)
Record Room := mkRoom { rx0 : Q; rx1 : Q; rz0 : Q; rz1 : Q }.
Definition R_ATRIUM : Room := mkRoom (-16) 16 (-10) 10.
Definition R_NORTH  : Room := mkRoom (-14) 14 10 24.
Definition R_EAST   : Room := mkRoom 16 30 (-8) 8.
Definition R_WEST   : Room := mkRoom (-30) (-16) (-8) 8.

(** Global extents. *)
Definition MIN_X : Q := Math_min4 (rx0 R_ATRIUM) (rx0 R_NORTH) (rx0 R_EAST) (rx0 R_WEST).
Definition MAX_X : Q := Math_max4 (rx1 R_ATRIUM) (rx1 R_NORTH) (rx1 R_EAST) (rx1 R_WEST).
Definition MIN_Z : Q := Math_min4 (rz0 R_ATRIUM) (rz0 R_NORTH) (rz0 R_EAST) (rz0 R_WEST).
Definition MAX_Z : Q := Math_max4 (rz1 R_ATRIUM) (rz1 R_NORTH) (rz1 R_EAST) (rz1 R_WEST).
Definition SIZE_X : Q := MAX_X - MIN_X.
Definition SIZE_Z : Q := MAX_Z - MIN_Z.

(** The mutable state of one run: the scene, the two arrays
    [colliders] and [segs], and the cursor [idx] into [frames]. *)
Record Build := mkBuild {
  scene : list SceneObj;
  colliders : list RectXZ;
  segs : list WallSeg;
  idx : nat
}.

(** A step of the builder; [a ;; b] runs [a], then [b]. *)
Definition Step := Build -> Build.
Definition andThen (a b : Step) : Step := fun st => b (a st).
Notation "a ;; b" := (andThen a b) (at level 61, right associativity).
Definition skip : Step := fun st => st.
Definition when (c : bool) (a : Step) : Step := if c then a else skip.

Definition sceneAdd (o : SceneObj) : Step := fun st =>
  mkBuild (scene st ++ [o]) (colliders st) (segs st) (idx st).
Definition pushCollider (r : RectXZ) : Step := fun st =>
  mkBuild (scene st) (colliders st ++ [r]) (segs st) (idx st).
Definition pushSeg (s : WallSeg) : Step := fun st =>
  mkBuild (scene st) (colliders st) (segs st ++ [s]) (idx st).

(** [addWallX] without [leaveDoorAt]: the mesh, the collider and the
    hangable segment of one wall. *)
Definition wallX (z x0 x1 : Q) (normalToward : Normal) : Step :=
  let len := x1 - x0 in
  let cx := (x0 + x1) / 2 in
  sceneAdd (WallBox len H WALL_T
              (mkVec3 cx (H / 2) (z + (WALL_T / 2) * sgn normalToward))) ;;
  pushCollider
    {| minX := cx - len / 2;
       maxX := cx + len / 2;
       minZ := z + (if gtb (sgn normalToward) 0 then 0 else - WALL_T);
       maxZ := z + (if gtb (sgn normalToward) 0 then WALL_T else 0) |} ;;
  pushSeg (SegX (z + sgn normalToward * (WALL_T / 2)) x0 x1 normalToward).

(** [addWallX].  With a doorway it calls itself, without one, for the
    part left of the doorway and the part right of it; the two inner
    calls are [wallX]. *)
Definition addWallX (z x0 x1 : Q) (normalToward : Normal)
    (leaveDoorAt : option Q) : Step :=
  match leaveDoorAt with
  | Some c =>
      let d0 := c - DOOR_W / 2 in
      let d1 := c + DOOR_W / 2 in
      when (gtb d0 (x0 + 0.01)) (wallX z x0 d0 normalToward) ;;
      when (gtb x1 (d1 + 0.01)) (wallX z d1 x1 normalToward)
  | None => wallX z x0 x1 normalToward
  end.

Definition wallZ (x z0 z1 : Q) (normalToward : Normal) : Step :=
  let len := z1 - z0 in
  let cz := (z0 + z1) / 2 in
  sceneAdd (WallBox WALL_T H len
              (mkVec3 (x + (WALL_T / 2) * sgn normalToward) (H / 2) cz)) ;;
  pushCollider
    {| minX := x + (if gtb (sgn normalToward) 0 then 0 else - WALL_T);
       maxX := x + (if gtb (sgn normalToward) 0 then WALL_T else 0);
       minZ := cz - len / 2;
       maxZ := cz + len / 2 |} ;;
  pushSeg (SegZ (x + sgn normalToward * (WALL_T / 2)) z0 z1 normalToward).

Definition addWallZ (x z0 z1 : Q) (normalToward : Normal)
    (leaveDoorAt : option Q) : Step :=
  match leaveDoorAt with
  | Some c =>
      let d0 := c - DOOR_W / 2 in
      let d1 := c + DOOR_W / 2 in
      when (gtb d0 (z0 + 0.01)) (wallZ x z0 d0 normalToward) ;;
      when (gtb z1 (d1 + 0.01)) (wallZ x d1 z1 normalToward)
  | None => wallZ x z0 z1 normalToward
  end.

Definition addCeilingForRect (r : Room) : Step :=
  sceneAdd (CeilMesh (rx1 r - rx0 r) (rz1 r - rz0 r)
              (mkVec3 ((rx0 r + rx1 r) / 2) H ((rz0 r + rz1 r) / 2))).

(** Single floor covering everything. *)
Definition addFloor : Step :=
  sceneAdd (FloorMesh SIZE_X SIZE_Z
              (mkVec3 ((MIN_X + MAX_X) / 2) 0 ((MIN_Z + MAX_Z) / 2))).

(** Build rooms with doorways and dividers. *)
Definition buildAtrium : Step :=
  addWallX (rz0 R_ATRIUM) (rx0 R_ATRIUM) (rx1 R_ATRIUM) Plus1 (Some 0) ;;
  addWallX (rz1 R_ATRIUM) (rx0 R_ATRIUM) (rx1 R_ATRIUM) Minus1 (Some 0) ;;
  addWallZ (rx0 R_ATRIUM) (rz0 R_ATRIUM) (rz1 R_ATRIUM) Plus1 (Some 0) ;;
  addWallZ (rx1 R_ATRIUM) (rz0 R_ATRIUM) (rz1 R_ATRIUM) Minus1 (Some 0) ;;
  addWallX ((rz0 R_ATRIUM + rz1 R_ATRIUM) / 2 - 2.0)
           (rx0 R_ATRIUM + 2) (rx1 R_ATRIUM - 2) Plus1 None ;;
  addWallZ ((rx0 R_ATRIUM + rx1 R_ATRIUM) / 2 - 4.0)
           (rz0 R_ATRIUM + 2) (rz1 R_ATRIUM - 2) Plus1 None ;;
  addCeilingForRect R_ATRIUM.

Definition buildNorth : Step :=
  addWallX (rz0 R_NORTH) (rx0 R_NORTH) (rx1 R_NORTH) Plus1 (Some 0) ;;
  addWallX (rz1 R_NORTH) (rx0 R_NORTH) (rx1 R_NORTH) Minus1 None ;;
  addWallZ (rx0 R_NORTH) (rz0 R_NORTH) (rz1 R_NORTH) Plus1 None ;;
  addWallZ (rx1 R_NORTH) (rz0 R_NORTH) (rz1 R_NORTH) Minus1 None ;;
  addWallX (rz0 R_NORTH + 4.0) (rx0 R_NORTH + 2.0) (rx1 R_NORTH - 6.0) Plus1 None ;;
  addWallZ (rx1 R_NORTH - 6.0) (rz0 R_NORTH + 4.0) (rz1 R_NORTH - 2.0) Minus1 None ;;
  addCeilingForRect R_NORTH.

Definition buildEast : Step :=
  addWallZ (rx0 R_EAST) (rz0 R_EAST) (rz1 R_EAST) Plus1 (Some 0) ;;
  addWallZ (rx1 R_EAST) (rz0 R_EAST) (rz1 R_EAST) Minus1 None ;;
  addWallX (rz0 R_EAST) (rx0 R_EAST) (rx1 R_EAST) Plus1 None ;;
  addWallX (rz1 R_EAST) (rx0 R_EAST) (rx1 R_EAST) Minus1 None ;;
  addWallX ((rz0 R_EAST + rz1 R_EAST) / 2)
           (rx0 R_EAST + 2.0) (rx1 R_EAST - 2.0) Plus1 None ;;
  addCeilingForRect R_EAST.

Definition buildWest : Step :=
  addWallZ (rx1 R_WEST) (rz0 R_WEST) (rz1 R_WEST) Minus1 (Some 0) ;;
  addWallZ (rx0 R_WEST) (rz0 R_WEST) (rz1 R_WEST) Plus1 None ;;
  addWallX (rz0 R_WEST) (rx0 R_WEST) (rx1 R_WEST) Plus1 None ;;
  addWallX (rz1 R_WEST) (rx0 R_WEST) (rx1 R_WEST) Minus1 None ;;
  addWallZ ((rx0 R_WEST + rx1 R_WEST) / 2)
           (rz0 R_WEST + 2.0) (rz1 R_WEST - 2.0) Plus1 None ;;
  addWallX ((rz0 R_WEST + rz1 R_WEST) / 2 - 2.0)
           (rx0 R_WEST + 2.0) (rx1 R_WEST - 2.0) Plus1 None ;;
  addCeilingForRect R_WEST.

Definition addLights : Step := sceneAdd (Lights (mkVec3 6 H 2)).

Definition buildRooms : Step :=
  addFloor ;; buildAtrium ;; buildNorth ;; buildEast ;; buildWest ;; addLights.

(** *** Painting placement (fills every wall segment) *)

(** In exact arithmetic; module [Rounded] has [hangOnSegX] and
    [hangOnSegZ] in the arithmetic of doubles. *)

Section Placement.

Variable opts : BuildOpts.

(** [const frames = [...opts.artworks]]: a copy, never written to. *)
Definition frames : list ArtworkMeta := artworks opts.

(** [for (let i = 0; i < count && idx < frames.length; i++) body].
    [remaining] is [count - i]; the loop ends when it is 0 or when no
    record is left. *)
Fixpoint forSlots (remaining i : nat) (body : nat -> Step) : Step := fun st =>
  match remaining with
  | O => st
  | S r =>
      if (idx st <? length frames)%nat
      then forSlots r (S i) body (body i st)
      else st
  end.

(** [(count === 1) ? 0.5 : i / (count - 1)] *)
Definition slotT (count : Z) (i : nat) : Q :=
  if (count =? 1)%Z then 0.5
  else inject_Z (Z.of_nat i) / inject_Z (count - 1).

(** Corner collision check of [hangOnSegX]: a wall perpendicular to
    this one near [x]. *)
Definition hitWallX (all : list WallSeg) (x z : Q) : bool :=
  existsb (fun other =>
    match other with
    | SegZ ox oz0 oz1 _ =>
        let nearX := ltb (Math_abs (ox - x)) (HALF_W + 0.05) in
        let insideZ := geb z (oz0 - 0.05) && leb z (oz1 + 0.05) in
        nearX && insideZ
    | SegX _ _ _ _ => false
    end) all.

Definition hitWallZ (all : list WallSeg) (x z : Q) : bool :=
  existsb (fun other =>
    match other with
    | SegX oz ox0 ox1 _ =>
        let nearZ := ltb (Math_abs (oz - z)) (HALF_W + 0.05) in
        let insideX := geb x (ox0 - 0.05) && leb x (ox1 + 0.05) in
        nearZ && insideX
    | SegZ _ _ _ _ => false
    end) all.

(** [const meta = frames[idx++]; const f = new Frame(...); ...;
    scene.add(f)].  The loop has tested [idx < frames.length], so
    [frames[idx]] is a record; past the end the state is returned as
    it is. *)
Definition hang (pos : Vec3) (rotY : Q) : Step := fun st =>
  match nth_error frames (idx st) with
  | Some meta =>
      mkBuild
        (scene st ++
           [FrameObj meta (imagesBase opts ++ "/" ++ file meta)%string
              FRAME_W pos rotY])
        (colliders st) (segs st) (S (idx st))
  | None => st
  end.

(** The position of slot [i] along a segment. *)
Definition slotPos (lo hi : Q) (count : Z) (i : nat) : Q :=
  let start := lo + CAP_MARGIN + HALF_W in
  let stop := hi - CAP_MARGIN - HALF_W in
  let t := slotT count i in
  start + t * (stop - start).

(** One turn of the loop of [hangOnSegX]. *)
Definition slotX (z x0 x1 : Q) (nZ : Normal) (count : Z) (i : nat) : Step :=
  fun st =>
    let x := slotPos x0 x1 count i in
    let z' := z + (if gtb (sgn nZ) 0 then WALL_GAP else - WALL_GAP) in
    if hitWallX (segs st) x z' then st   (* continue *)
    else hang (mkVec3 x 1.6 z') (if gtb (sgn nZ) 0 then 0 else Math_PI) st.

Definition hangOnSegX (z x0 x1 : Q) (nZ : Normal) : Step := fun st =>
  let usable := (x1 - x0) - 2 * (CAP_MARGIN + HALF_W) in
  if leb usable 0 then st
  else
    let count := (Math_floor (usable / SPACING) + 1)%Z in
    forSlots (Z.to_nat count) 0 (slotX z x0 x1 nZ count) st.

Definition slotZ (x z0 z1 : Q) (nX : Normal) (count : Z) (i : nat) : Step :=
  fun st =>
    let z := slotPos z0 z1 count i in
    let x' := x + (if gtb (sgn nX) 0 then WALL_GAP else - WALL_GAP) in
    if hitWallZ (segs st) x' z then st   (* continue *)
    else hang (mkVec3 x' 1.6 z)
           (if gtb (sgn nX) 0 then Math_PI / 2 else - Math_PI / 2) st.

Definition hangOnSegZ (x z0 z1 : Q) (nX : Normal) : Step := fun st =>
  let usable := (z1 - z0) - 2 * (CAP_MARGIN + HALF_W) in
  if leb usable 0 then st
  else
    let count := (Math_floor (usable / SPACING) + 1)%Z in
    forSlots (Z.to_nat count) 0 (slotZ x z0 z1 nX count) st.

Definition hangOnSeg (seg : WallSeg) : Step :=
  match seg with
  | SegX z x0 x1 nZ => hangOnSegX z x0 x1 nZ
  | SegZ x z0 z1 nX => hangOnSegZ x z0 z1 nX
  end.

(** [for (const seg of segs) { if (idx >= frames.length) break; ... }] *)
Fixpoint forSegs (rest : list WallSeg) : Step := fun st =>
  match rest with
  | [] => st
  | seg :: rest' =>
      if (length frames <=? idx st)%nat then st
      else forSegs rest' (hangOnSeg seg st)
  end.

Definition hangAll : Step := fun st => forSegs (segs st) st.

End Placement.

(** Bounds (keep player inside). *)
Definition bounds : Bounds :=
  {| bMinX := MIN_X + 0.6;
     bMaxX := MAX_X - 0.6;
     bMinY := 0.9;
     bMaxY := H - 0.4;
     bMinZ := MIN_Z + 0.6;
     bMaxZ := MAX_Z - 0.6 |}.

Definition suggestedSpawn : Vec3 :=
  mkVec3 ((rx0 R_ATRIUM + rx1 R_ATRIUM) / 2 - 6) 1.6
         ((rz0 R_ATRIUM + rz1 R_ATRIUM) / 2).

(** What [buildGallery] returns; [root] is a new, empty group. *)
Record GalleryResult := mkResult {
  root : list SceneObj;
  resSpawn : Vec3;
  resBounds : Bounds;
  resColliders : list RectXZ
}.

(** The state at the end of a run on the scene [sc]: [colliders] and
    [segs] start empty and [idx] at 0. *)
Definition run (sc : list SceneObj) (opts : BuildOpts) : Build :=
  (buildRooms ;; hangAll opts) (mkBuild sc [] [] 0%nat).

(** [buildGallery(scene, opts)]: the scene after the call and the
    returned object. *)
Definition buildGallery (sc : list SceneObj) (opts : BuildOpts)
    : list SceneObj * GalleryResult :=
  let st := run sc opts in
  (scene st, mkResult [] suggestedSpawn bounds (colliders st)).

(** The records hung in a scene, in the order they were added. *)
Definition hungMetas (sc : list SceneObj) : list ArtworkMeta :=
  flat_map (fun o => match o with
                     | FrameObj meta _ _ _ _ => [meta]
                     | _ => []
                     end) sc.

End Gallery.

(* ===================================================================== *)
(** ** Movement and collision solver ([controls.ts]) *)
(* ===================================================================== *)

Module Controls.

Record Camera := mkCamera {
  position : Vec3;
  rotation : Vec3   (* Euler angles, order YXZ *)
}.

(** The closure variables of [createControls]. *)
Record Ctl := mkCtl {
  keys : list string;       (* Set<string>, in insertion order *)
  isLocked : bool;
  yaw : Q;
  pitch : Q;
  camera : Camera;
  bounds : option Bounds;
  colliders : list RectXZ
}.

(** [Set.has], [Set.add], [Set.delete]. *)
Definition has (k : string) (s : list string) : bool :=
  existsb (String.eqb k) s.
Definition add (k : string) (s : list string) : list string :=
  if has k s then s else s ++ [k].
Definition delete (k : string) (s : list string) : list string :=
  filter (fun k' => negb (String.eqb k k')) s.

(** [toLowerCase], for key names made of ASCII characters, as the names
    [update] reads are: the capital letters A-Z become small, every other
    ASCII character is kept.  A byte outside ASCII is kept too, where the
    code would lower-case a cased letter outside ASCII. *)
Definition lowerAscii (c : ascii) : ascii :=
  let n := nat_of_ascii c in
  if ((65 <=? n) && (n <=? 90))%nat then ascii_of_nat (n + 32) else c.
Fixpoint toLowerCase (s : string) : string :=
  match s with
  | EmptyString => EmptyString
  | String c r => String (lowerAscii c) (toLowerCase r)
  end.

Definition sensitivity : Q := 0.0025.
Definition playerRadius : Q := 0.35.
Definition UP : Vec3 := mkVec3 0 1 0.

(** [Math.PI/2 - 0.08] *)
Definition lim : Q := Math_PI / 2 - 0.08.

(** [createControls(camera, canvas, bounds?, colliders = [])] *)
Definition createControls (cam : Camera) (b : option Bounds)
    (c : option (list RectXZ)) : Ctl :=
  mkCtl [] false 0 0 cam b (match c with Some l => l | None => [] end).

(** The listeners. *)
Definition keydown (key : string) (st : Ctl) : Ctl :=
  mkCtl (add (toLowerCase key) (keys st)) (isLocked st) (yaw st) (pitch st)
        (camera st) (bounds st) (colliders st).

Definition keyup (key : string) (st : Ctl) : Ctl :=
  mkCtl (delete (toLowerCase key) (keys st)) (isLocked st) (yaw st) (pitch st)
        (camera st) (bounds st) (colliders st).

(** [isLocked = document.pointerLockElement === canvas] *)
Definition pointerlockchange (lockedOnCanvas : bool) (st : Ctl) : Ctl :=
  mkCtl (keys st) lockedOnCanvas (yaw st) (pitch st)
        (camera st) (bounds st) (colliders st).

Definition mousemove (movementX movementY : Q) (st : Ctl) : Ctl :=
  if negb (isLocked st) then st
  else
    let yaw' := yaw st - movementX * sensitivity in
    let pitch0 := pitch st - movementY * sensitivity in
    let pitch' := Math_max (- lim) (Math_min lim pitch0) in
    mkCtl (keys st) (isLocked st) yaw' pitch'
          (mkCamera (position (camera st)) (mkVec3 pitch' yaw' 0))
          (bounds st) (colliders st).

Definition clampBounds (b : option Bounds) (v : Vec3) : Vec3 :=
  match b with
  | None => v
  | Some bd =>
      mkVec3 (Math_min (bMaxX bd) (Math_max (bMinX bd) (vx v)))
             (Math_min (bMaxY bd) (Math_max (bMinY bd) (vy v)))
             (Math_min (bMaxZ bd) (Math_max (bMinZ bd) (vz v)))
  end.

(** [collides]: the loop returns at the first hit. *)
Definition hit (r : RectXZ) (x z : Q) : bool :=
  gtb x (minX r - playerRadius) && ltb x (maxX r + playerRadius) &&
  gtb z (minZ r - playerRadius) && ltb z (maxZ r + playerRadius).

Fixpoint collides (cs : list RectXZ) (x z : Q) : bool :=
  match cs with
  | [] => false
  | r :: rest => if hit r x z then true else collides rest x z
  end.

(** Swept collision: resolve per-axis to allow sliding.  [pos] is
    [camera.position], [move] the displacement of this frame. *)
Definition slide (cs : list RectXZ) (pos move : Vec3) : Vec3 :=
  let nextX := vx pos + vx move in
  let nextZ := vz pos in
  let pos1 := if negb (collides cs nextX nextZ)
              then mkVec3 nextX (vy pos) (vz pos) else pos in
  let nextZ' := vz pos1 + vz move in
  if negb (collides cs (vx pos1) nextZ')
  then mkVec3 (vx pos1) (vy pos1) nextZ' else pos1.

Definition crossVectors (a b : Vec3) : Vec3 :=
  mkVec3 (vy a * vz b - vz a * vy b)
         (vz a * vx b - vx a * vz b)
         (vx a * vy b - vy a * vx b).

Definition addScaledVector (v w : Vec3) (s : Q) : Vec3 :=
  mkVec3 (vx v + vx w * s) (vy v + vy w * s) (vz v + vz w * s).

Section Update.

(** [Math.sin], [Math.cos] and [Vector3.normalize] have no rational
    model; they are parameters, and nothing below depends on what
    they return. *)
Variables Math_sin Math_cos : Q -> Q.
Variable normalize : Vec3 -> Vec3.

(** The displacement of one frame. *)
Definition moveOf (st : Ctl) (dt : Q) : Vec3 :=
  let speed := 3.0 in
  let fwd : Q :=
    if has "w" (keys st) || has "arrowup" (keys st) then 1
    else if has "s" (keys st) || has "arrowdown" (keys st) then -1 else 0 in
  let str : Q :=
    if has "d" (keys st) || has "arrowright" (keys st) then 1
    else if has "a" (keys st) || has "arrowleft" (keys st) then -1 else 0 in
  let forwardDir :=
    normalize (mkVec3 (- Math_sin (yaw st)) 0 (- Math_cos (yaw st))) in
  let rightDir := normalize (crossVectors forwardDir UP) in
  addScaledVector
    (addScaledVector (mkVec3 0 0 0) forwardDir (fwd * speed * dt))
    rightDir (str * speed * dt).

Definition update (dt : Q) (st : Ctl) : Ctl :=
  if negb (isLocked st) then st
  else
    let move := moveOf st dt in
    let pos := slide (colliders st) (position (camera st)) move in
    mkCtl (keys st) (isLocked st) (yaw st) (pitch st)
          (mkCamera (clampBounds (bounds st) pos) (rotation (camera st)))
          (bounds st) (colliders st).

Definition setBounds (b : Bounds) (st : Ctl) : Ctl :=
  mkCtl (keys st) (isLocked st) (yaw st) (pitch st) (camera st)
        (Some b) (colliders st).

Definition setColliders (c : list RectXZ) (st : Ctl) : Ctl :=
  mkCtl (keys st) (isLocked st) (yaw st) (pitch st) (camera st)
        (bounds st) c.

(** Everything that can happen to the controls between two frames. *)
Inductive Event :=
| KeyDown (key : string)
| KeyUp (key : string)
| PointerLockChange (lockedOnCanvas : bool)
| MouseMove (movementX movementY : Q)
| Update (dt : Q)
| SetBounds (b : Bounds)
| SetColliders (c : list RectXZ)
| SetPosition (p : Vec3).   (* [camera.position.copy(p)], by the caller *)

Definition handle (st : Ctl) (e : Event) : Ctl :=
  match e with
  | KeyDown k => keydown k st
  | KeyUp k => keyup k st
  | PointerLockChange b => pointerlockchange b st
  | MouseMove dx dy => mousemove dx dy st
  | Update dt => update dt st
  | SetBounds b => setBounds b st
  | SetColliders c => setColliders c st
  | SetPosition p =>
      mkCtl (keys st) (isLocked st) (yaw st) (pitch st)
            (mkCamera p (rotation (camera st))) (bounds st) (colliders st)
  end.

Definition runEvents (st : Ctl) (es : list Event) : Ctl :=
  fold_left handle es st.

End Update.

End Controls.

(* ===================================================================== *)
(** ** Specification vocabulary *)
(* ===================================================================== *)

Module Spec.
Import Gallery.

(** The interval [lo, hi] a segment spans along its long axis. *)
Definition spanOf (s : WallSeg) : Q * Q :=
  match s with
  | SegX _ x0 x1 _ => (x0, x1)
  | SegZ _ z0 z1 _ => (z0, z1)
  end.

Definition covers (s : Q * Q) (p : Q) : Prop := fst s <= p <= snd s.

(** The segments a step appended to [segs]. *)
Definition emitted (before after : Build) : list WallSeg :=
  skipn (length (segs before)) (segs after).

(** What the specification says of the sub-runs [spans] left of a run
    [lo, hi] by a doorway centered at [c]. *)
Definition DoorwayCut (lo hi c : Q) (spans : list (Q * Q)) : Prop :=
  let d0 := c - DOOR_W / 2 in
  let d1 := c + DOOR_W / 2 in
  (* a left sub-wall only if longer than 0.01, a right one likewise *)
  (exists left right,
      spans = left ++ right /\
      (left = [(lo, d0)] /\ 0.01 < d0 - lo \/ left = [] /\ d0 - lo <= 0.01) /\
      (right = [(d1, hi)] /\ 0.01 < hi - d1 \/ right = [] /\ hi - d1 <= 0.01)) /\
  (* the doorway stays open *)
  (forall s p, In s spans -> d0 < p < d1 -> ~ covers s p) /\
  (* the run is covered, up to dropped sub-runs of length at most 0.01 *)
  (forall p, lo <= p <= hi ->
      (exists s, In s spans /\ covers s p) \/ d0 <= p <= d1 \/
      (d0 - lo <= 0.01 /\ lo <= p <= d0) \/
      (hi - d1 <= 0.01 /\ d1 <= p <= hi)) /\
  (* nothing sticks out of the run when the doorway is centered on it *)
  (lo <= c <= hi -> forall s p, In s spans -> covers s p -> lo <= p <= hi) /\
  (* with the doorway inside the run, sub-walls and doorway make up the run *)
  (lo <= d0 -> d1 <= hi ->
   forall p, (exists s, In s spans /\ covers s p) \/ d0 <= p <= d1 ->
             lo <= p <= hi) /\
  (* a run with no sub-run longer than 0.01 emits nothing *)
  (d0 - lo <= 0.01 -> hi - d1 <= 0.01 -> spans = []).

(** A segment and the collider pushed with it. *)
Definition Lockstep (s : WallSeg) (r : RectXZ) : Prop :=
  match s with
  | SegX z x0 x1 n =>
      minX r == x0 /\ maxX r == x1 /\
      maxZ r - minZ r == WALL_T /\
      let wall := z - sgn n * (WALL_T / 2) in
      match n with
      | Plus1 => minZ r == wall /\ maxZ r == wall + WALL_T
      | Minus1 => minZ r == wall - WALL_T /\ maxZ r == wall
      end
  | SegZ x z0 z1 n =>
      minZ r == z0 /\ maxZ r == z1 /\
      maxX r - minX r == WALL_T /\
      let wall := x - sgn n * (WALL_T / 2) in
      match n with
      | Plus1 => minX r == wall /\ maxX r == wall + WALL_T
      | Minus1 => minX r == wall - WALL_T /\ maxX r == wall
      end
  end.

Definition nondegenerate (r : RectXZ) : Prop :=
  minX r < maxX r /\ minZ r < maxZ r.

(** The two arrays march in step. *)
Definition InStep (st : Build) : Prop :=
  Forall2 Lockstep (segs st) (colliders st) /\
  Forall nondegenerate (colliders st).

(** Slot geometry, in the words of the specification. *)
Definition usableLen (lo hi : Q) : Q := (hi - lo) - 2 * (CAP_MARGIN + HALF_W).

Definition slotCount (lo hi : Q) : Z := (Qfloor (usableLen lo hi / SPACING) + 1)%Z.

Definition specSlot (lo hi : Q) (count : Z) (i : nat) : Q :=
  let start := lo + CAP_MARGIN + HALF_W in
  let stop := hi - CAP_MARGIN - HALF_W in
  if (count =? 1)%Z then (lo + hi) / 2
  else start + (inject_Z (Z.of_nat i) / inject_Z (count - 1)) * (stop - start).

(** A frame object of a scene standing at [pos]. *)
Definition frameAt (pos : Vec3) (o : SceneObj) : Prop :=
  exists meta url w rot, o = FrameObj meta url w pos rot.

(** Where a frame stands off the plane of its segment, along the normal. *)
Definition standoff (plane : Q) (n : Normal) : Q :=
  match n with Plus1 => plane + WALL_GAP | Minus1 => plane - WALL_GAP end.

(** The corner-avoidance rule: a perpendicular segment whose plane is
    strictly within [HALF_W + 0.05] of the candidate, and whose span,
    extended by 0.05 at each end, holds the candidate's other
    coordinate. *)
Definition NearPerpendicularX (all : list WallSeg) (x z : Q) : Prop :=
  exists ox oz0 oz1 on,
    In (SegZ ox oz0 oz1 on) all /\
    Qabs (ox - x) < HALF_W + 0.05 /\
    oz0 - 0.05 <= z <= oz1 + 0.05.

Definition NearPerpendicularZ (all : list WallSeg) (x z : Q) : Prop :=
  exists oz ox0 ox1 on,
    In (SegX oz ox0 ox1 on) all /\
    Qabs (oz - z) < HALF_W + 0.05 /\
    ox0 - 0.05 <= x <= ox1 + 0.05.

(** The records a run leaves unplaced. *)
Definition unplaced (sc : list SceneObj) (opts : BuildOpts) : nat :=
  length (artworks opts) - idx (run sc opts).

(** "The number of unplaced records is surfaced as a count": some
    function of what the run produces (the scene and the returned
    object) gives that number whenever records are left over. *)
Definition SurfacesSurplus : Prop :=
  exists report : list SceneObj * GalleryResult -> nat,
    forall sc opts, (0 < unplaced sc opts)%nat ->
                    report (buildGallery sc opts) = unplaced sc opts.

(** The open rectangle of a collider inflated by [rad] on all sides. *)
Definition inflatedContains (r : RectXZ) (rad x z : Q) : Prop :=
  (minX r - rad < x < maxX r + rad) /\ (minZ r - rad < z < maxZ r + rad).

Definition blocked (cs : list RectXZ) (x z : Q) : Prop :=
  exists r, In r cs /\ inflatedContains r Controls.playerRadius x z.

(** Per-axis sliding, for a position [p], a displacement [m] and the
    position [p'] after the update: [x'] and [z'] are the coordinates
    after collision resolution. *)
Definition SlidesPerAxis (cs : list RectXZ) (b : option Bounds)
    (p m p' : Vec3) : Prop :=
  exists x' z',
    p' = Controls.clampBounds b (mkVec3 x' (vy p) z') /\
    (* X is committed exactly when the X candidate is free *)
    (~ blocked cs (vx p + vx m) (vz p) /\ x' = vx p + vx m \/
     blocked cs (vx p + vx m) (vz p) /\ x' = vx p) /\
    (* then Z, against the X just decided *)
    (~ blocked cs x' (vz p + vz m) /\ z' = vz p + vz m \/
     blocked cs x' (vz p + vz m) /\ z' = vz p) /\
    (* one collider, a move from outside it to a point inside it *)
    (forall r,
        cs = [r] ->
        ~ inflatedContains r Controls.playerRadius (vx p) (vz p) ->
        inflatedContains r Controls.playerRadius (vx p + vx m) (vz p + vz m) ->
        inflatedContains r Controls.playerRadius (vx p + vx m) (vz p) /\
          x' = vx p /\ z' = vz p + vz m \/
        ~ inflatedContains r Controls.playerRadius (vx p + vx m) (vz p) /\
          x' = vx p + vx m /\ z' = vz p).

(** A world box, and a position inside it. *)
Definition wellFormed (b : Bounds) : Prop :=
  bMinX b <= bMaxX b /\ bMinY b <= bMaxY b /\ bMinZ b <= bMaxZ b.

Definition within (b : Bounds) (v : Vec3) : Prop :=
  (bMinX b <= vx v <= bMaxX b) /\
  (bMinY b <= vy v <= bMaxY b) /\
  (bMinZ b <= vz v <= bMaxZ b).

Definition pitchInRange (p : Q) : Prop :=
  - Controls.lim <= p <= Controls.lim.

(** Sample data: [n] records "00.jpg", "01.jpg", ... *)
Definition sampleArt (n : nat) : ArtworkMeta :=
  mkMeta (String (ascii_of_nat (48 + n / 10))
            (String (ascii_of_nat (48 + n mod 10)) ".jpg"))
         None None None None.

Definition sampleArts (n : nat) : list ArtworkMeta := map sampleArt (seq 0 n).

Definition sampleOpts (n : nat) : BuildOpts := mkOpts "images" (sampleArts n).

(** The state after the rooms are built on an empty scene. *)
Definition roomsBuilt : Build := buildRooms (mkBuild [] [] [] 0%nat).

(** Sample controls.  The viewer looks along +Z ([sin = 0], [cos = -1]). *)
Definition sampleSin (_ : Q) : Q := 0.
Definition sampleCos (_ : Q) : Q := -1.
Definition sampleNormalize (v : Vec3) : Vec3 := v.

(** Locked, keys w and a held, next to the collider [5,6] x [5,6]. *)
Definition sampleCtl : Controls.Ctl :=
  Controls.mkCtl ["w"; "a"]%string true 0 0
    (Controls.mkCamera (mkVec3 4.6 1.6 4.6) (mkVec3 0 0 0))
    None [mkRect 5 6 5 6].

(** Locked, with the bounds of the gallery, and outside them. *)
Definition outsideCtl : Controls.Ctl :=
  Controls.mkCtl [] true 0 0
    (Controls.mkCamera (mkVec3 100 1.6 0) (mkVec3 0 0 0))
    (Some Gallery.bounds) [].

End Spec.

(* ===================================================================== *)
(** ** Definitions used by the proofs *)
(* ===================================================================== *)

Module Aux.
Import Gallery Spec.

(** The sub-runs of a run with a doorway, as the two tests of the source
    select them. *)
Definition doorSpans (lo hi c : Q) : list (Q * Q) :=
  let d0 := c - DOOR_W / 2 in
  let d1 := c + DOOR_W / 2 in
  (if gtb d0 (lo + 0.01) then [(lo, d0)] else []) ++
  (if gtb hi (d1 + 0.01) then [(d1, hi)] else []).

(** The rooms are built before any record is used: a wall step leaves
    the cursor and the hung records as they are. *)
Definition Quiet (a : Step) : Prop :=
  forall st, idx (a st) = idx st /\
             hungMetas (scene (a st)) = hungMetas (scene st).

(** The records hung so far are the first [idx] records, on top of what
    the scene [base] held. *)
Definition InOrder (opts : BuildOpts) (base : list ArtworkMeta) (st : Build)
    : Prop :=
  hungMetas (scene st) = base ++ firstn (idx st) (frames opts) /\
  (idx st <= length (frames opts))%nat.

(** The common shape of [slotX] and [slotZ]. *)
Definition slotBody (opts : BuildOpts) (rejects : list WallSeg -> nat -> bool)
    (posOf : nat -> Vec3) (rot : Q) (i : nat) : Step := fun st =>
  if rejects (segs st) i then st else hang opts (posOf i) rot st.

(** The calls of [buildRooms], one after the other, as data: a wall
    along X, a wall along Z, or an object added to the scene (floor,
    ceiling, lights). *)
Inductive Call :=
| CallX (z x0 x1 : Q) (n : Normal) (door : option Q)
| CallZ (x z0 z1 : Q) (n : Normal) (door : option Q)
| CallScene (a : Step).

Definition runCall (c : Call) : Step :=
  match c with
  | CallX z x0 x1 n door => addWallX z x0 x1 n door
  | CallZ x z0 z1 n door => addWallZ x z0 z1 n door
  | CallScene a => a
  end.

Definition runPlan (plan : list Call) : Step :=
  fold_right (fun c rest => runCall c ;; rest) skip plan.

Definition galleryPlan : list Call :=
  [ CallScene addFloor;
    (* atrium *)
    CallX (rz0 R_ATRIUM) (rx0 R_ATRIUM) (rx1 R_ATRIUM) Plus1 (Some 0);
    CallX (rz1 R_ATRIUM) (rx0 R_ATRIUM) (rx1 R_ATRIUM) Minus1 (Some 0);
    CallZ (rx0 R_ATRIUM) (rz0 R_ATRIUM) (rz1 R_ATRIUM) Plus1 (Some 0);
    CallZ (rx1 R_ATRIUM) (rz0 R_ATRIUM) (rz1 R_ATRIUM) Minus1 (Some 0);
    CallX ((rz0 R_ATRIUM + rz1 R_ATRIUM) / 2 - 2.0)
          (rx0 R_ATRIUM + 2) (rx1 R_ATRIUM - 2) Plus1 None;
    CallZ ((rx0 R_ATRIUM + rx1 R_ATRIUM) / 2 - 4.0)
          (rz0 R_ATRIUM + 2) (rz1 R_ATRIUM - 2) Plus1 None;
    CallScene (addCeilingForRect R_ATRIUM);
    (* north *)
    CallX (rz0 R_NORTH) (rx0 R_NORTH) (rx1 R_NORTH) Plus1 (Some 0);
    CallX (rz1 R_NORTH) (rx0 R_NORTH) (rx1 R_NORTH) Minus1 None;
    CallZ (rx0 R_NORTH) (rz0 R_NORTH) (rz1 R_NORTH) Plus1 None;
    CallZ (rx1 R_NORTH) (rz0 R_NORTH) (rz1 R_NORTH) Minus1 None;
    CallX (rz0 R_NORTH + 4.0) (rx0 R_NORTH + 2.0) (rx1 R_NORTH - 6.0) Plus1 None;
    CallZ (rx1 R_NORTH - 6.0) (rz0 R_NORTH + 4.0) (rz1 R_NORTH - 2.0) Minus1 None;
    CallScene (addCeilingForRect R_NORTH);
    (* east *)
    CallZ (rx0 R_EAST) (rz0 R_EAST) (rz1 R_EAST) Plus1 (Some 0);
    CallZ (rx1 R_EAST) (rz0 R_EAST) (rz1 R_EAST) Minus1 None;
    CallX (rz0 R_EAST) (rx0 R_EAST) (rx1 R_EAST) Plus1 None;
    CallX (rz1 R_EAST) (rx0 R_EAST) (rx1 R_EAST) Minus1 None;
    CallX ((rz0 R_EAST + rz1 R_EAST) / 2)
          (rx0 R_EAST + 2.0) (rx1 R_EAST - 2.0) Plus1 None;
    CallScene (addCeilingForRect R_EAST);
    (* west *)
    CallZ (rx1 R_WEST) (rz0 R_WEST) (rz1 R_WEST) Minus1 (Some 0);
    CallZ (rx0 R_WEST) (rz0 R_WEST) (rz1 R_WEST) Plus1 None;
    CallX (rz0 R_WEST) (rx0 R_WEST) (rx1 R_WEST) Plus1 None;
    CallX (rz1 R_WEST) (rx0 R_WEST) (rx1 R_WEST) Minus1 None;
    CallZ ((rx0 R_WEST + rx1 R_WEST) / 2)
          (rz0 R_WEST + 2.0) (rz1 R_WEST - 2.0) Plus1 None;
    CallX ((rz0 R_WEST + rz1 R_WEST) / 2 - 2.0)
          (rx0 R_WEST + 2.0) (rx1 R_WEST - 2.0) Plus1 None;
    CallScene (addCeilingForRect R_WEST);
    CallScene addLights ].

(** A wall call that keeps the arrays in step: without doorway the run
    has [lo < hi]; a scene call leaves the two arrays alone. *)
Definition callOk (c : Call) : Prop :=
  match c with
  | CallX _ lo hi _ None | CallZ _ lo hi _ None => lo < hi
  | CallX _ _ _ _ (Some _) | CallZ _ _ _ _ (Some _) => True
  | CallScene a => forall st, segs (a st) = segs st /\
                              colliders (a st) = colliders st
  end.

(** A doorway that lies inside its run. *)
Definition doorInside (c : Call) : Prop :=
  match c with
  | CallX _ lo hi _ (Some d) | CallZ _ lo hi _ (Some d) =>
      lo <= d - DOOR_W / 2 /\ d + DOOR_W / 2 <= hi
  | _ => True
  end.

End Aux.

(* ===================================================================== *)
(** ** The frame object ([frame.ts]) *)
(* ===================================================================== *)

Module FrameTs.

(** A mesh of the group: the size of its geometry (depth 0 for a plane)
    and its position in the group. *)
Record Part := mkPart { sizeX : Q; sizeY : Q; sizeZ : Q; center : Vec3 }.

Definition frameDepth : Q := 0.07.
Definition capH : Q := 0.22.
Definition imgH (width : Q) : Q := width * 0.66.

Definition bezel (width : Q) : Part :=
  mkPart (width + 0.18) (imgH width + 0.18) frameDepth (mkVec3 0 0 0).

Definition innerFrame (width : Q) : Part :=
  mkPart (width + 0.12) (imgH width + 0.12) (frameDepth - 0.02)
         (mkVec3 0 0 0.005).

Definition picture (width : Q) : Part :=
  mkPart width (imgH width) 0 (mkVec3 0 0 (frameDepth * 0.5 + 0.0025)).

Definition caption (width : Q) : Part :=
  mkPart width capH 0
         (mkVec3 0 (- imgH width / 2 - capH / 2 - 0.08)
                 (vz (center (picture width)) + 0.001)).

(** [[a, b].filter(Boolean)]: the strings that are present and not
    empty. *)
Definition truthy (o : option string) : list string :=
  match o with
  | Some s => if String.eqb s "" then [] else [s]
  | None => []
  end.

(** [Array.join]. *)
Fixpoint join (sep : string) (l : list string) : string :=
  match l with
  | [] => ""
  | [s] => s
  | s :: rest => (s ++ sep ++ join sep rest)%string
  end.

(** The separator of the caption: space, en dash (three bytes), space. *)
Definition dash : string :=
  String " " (String (ascii_of_nat 226) (String (ascii_of_nat 128)
    (String (ascii_of_nat 147) (String " " EmptyString)))).

(** [[meta.title, meta.author].filter(Boolean).join(' - ') || meta.file] *)
Definition captionLabel (meta : ArtworkMeta) : string :=
  let joined := join dash (truthy (title meta) ++ truthy (author meta)) in
  if String.eqb joined "" then file meta else joined.

(** What the picture shows: the fallback texture until the image has
    loaded. *)
Inductive ImageMap := Fallback | Loaded (url : string).

Record FrameGroup := mkFrame {
  children : list Part;      (* in the order of [this.add] *)
  imageMesh : Part;
  captionMesh : Part;
  label : string;
  imageMap : ImageMap
}.

(** [new Frame(meta, imageUrl, width = 1.8)] *)
Definition newFrame (meta : ArtworkMeta) (imageUrl : string)
    (width : option Q) : FrameGroup :=
  let w := match width with Some w => w | None => 1.8 end in
  mkFrame [bezel w; innerFrame w; picture w; caption w]
          (picture w) (caption w) (captionLabel meta) Fallback.

(** The two callbacks of [loader.load]: the image arrives, or the load
    fails (a warning, nothing else). *)
Definition onLoad (imageUrl : string) (f : FrameGroup) : FrameGroup :=
  mkFrame (children f) (imageMesh f) (captionMesh f) (label f) (Loaded imageUrl).

Definition onError (f : FrameGroup) : FrameGroup := f.

End FrameTs.

(* ===================================================================== *)
(** ** The application ([main.ts]) *)
(* ===================================================================== *)

Module Main.
Import Gallery Controls.

(** [r.ok ? r.json() : []] *)
Definition fetchMetadata (ok : bool) (json : list ArtworkMeta)
    : list ArtworkMeta :=
  if ok then json else [].

Record App := mkApp {
  appScene : list SceneObj;
  ctl : Ctl;
  last : Q
}.

(** What happens to the running application. *)
Inductive AppEvent :=
| FrameAt (now : Q)                       (* requestAnimationFrame *)
| KeyDownAt (key : string)
| KeyUpAt (key : string)
| LockChange (lockedOnCanvas : bool)
| MouseMoveBy (movementX movementY : Q).

Section Loop.

Variables Math_sin Math_cos : Q -> Q.
Variable normalize : Vec3 -> Vec3.

(** [start()], up to the first [requestAnimationFrame]: [baseUrl] is
    [import.meta.env.BASE_URL], [ok] and [json] the answer to the fetch of
    the metadata, [now0] the value of [performance.now()]. *)
Definition start (baseUrl : string) (ok : bool) (json : list ArtworkMeta)
    (now0 : Q) : App :=
  let artworks := fetchMetadata ok json in
  let imagesBase := (baseUrl ++ "images")%string in
  let '(sc, res) := buildGallery [] (mkOpts imagesBase artworks) in
  let camera := mkCamera (resSpawn res) (mkVec3 0 0 0) in
  let c := createControls camera (Some (resBounds res))
             (Some (resColliders res)) in
  let c := setBounds (resBounds res) c in
  let c := setColliders (resColliders res) c in
  mkApp sc c now0.

(** [loop(now)] *)
Definition loop (now : Q) (app : App) : App :=
  let dt := Math_min ((now - last app) / 1000) 0.05 in
  mkApp (appScene app) (update Math_sin Math_cos normalize dt (ctl app)) now.

Definition step (app : App) (e : AppEvent) : App :=
  match e with
  | FrameAt now => loop now app
  | KeyDownAt k => mkApp (appScene app) (keydown k (ctl app)) (last app)
  | KeyUpAt k => mkApp (appScene app) (keyup k (ctl app)) (last app)
  | LockChange b => mkApp (appScene app) (pointerlockchange b (ctl app)) (last app)
  | MouseMoveBy dx dy => mkApp (appScene app) (mousemove dx dy (ctl app)) (last app)
  end.

Definition runApp (app : App) (es : list AppEvent) : App :=
  fold_left step es app.

End Loop.

End Main.

(* ===================================================================== *)
(** ** Vocabulary for further properties *)
(* ===================================================================== *)

Module Extra.
Import Gallery Spec.

(** Equality of positions, coordinate by coordinate. *)
Definition veq (a b : Vec3) : Prop :=
  vx a == vx b /\ vy a == vy b /\ vz a == vz b.

(** A position outside every inflated collider. *)
Definition free (cs : list RectXZ) (p : Vec3) : Prop :=
  ~ blocked cs (vx p) (vz p).

(** A key name made of ASCII characters; on these [toLowerCase] is the
    one of the code, which leaves every ASCII character but the capital
    letters as it is. *)
Definition asciiKey (s : string) : bool :=
  forallb (fun c => (nat_of_ascii c <? 128)%nat) (list_ascii_of_string s).

(** None of the eight movement keys is held. *)
Definition noMoveKey (ks : list string) : Prop :=
  Forall (fun k => Controls.has k ks = false)
    ["w"; "arrowup"; "s"; "arrowdown"; "d"; "arrowright"; "a"; "arrowleft"]%string.

(** An event that neither locks the pointer nor is the caller writing
    the position. *)
Definition noLock (e : Controls.Event) : bool :=
  match e with
  | Controls.PointerLockChange true => false
  | Controls.SetPosition _ => false
  | _ => true
  end.

Definition sumQ (l : list Q) : Q := fold_right Qplus 0 l.

(** A sequence of look updates. *)
Definition look (moves : list (Q * Q)) (st : Controls.Ctl) : Controls.Ctl :=
  fold_left (fun s m => Controls.mousemove (fst m) (snd m) s) moves st.

(** The frame [hang] adds for a record at a slot (position, rotation). *)
Definition frameFor (opts : BuildOpts) (meta : ArtworkMeta)
    (slot : Vec3 * Q) : SceneObj :=
  FrameObj meta (imagesBase opts ++ "/" ++ file meta)%string FRAME_W
           (fst slot) (snd slot).

(** The slots of a segment that pass the corner check, in the order the
    loop of [hangOnSegX] ([hangOnSegZ]) visits them. *)
Definition slotsX (all : list WallSeg) (z x0 x1 : Q) (nZ : Normal)
    : list (Vec3 * Q) :=
  if leb (usableLen x0 x1) 0 then []
  else
    let count := slotCount x0 x1 in
    flat_map (fun i =>
      let x := slotPos x0 x1 count i in
      let z' := z + (if gtb (sgn nZ) 0 then WALL_GAP else - WALL_GAP) in
      if hitWallX all x z' then []
      else [(mkVec3 x 1.6 z', if gtb (sgn nZ) 0 then 0 else Math_PI)])
      (seq 0 (Z.to_nat count)).

Definition slotsZ (all : list WallSeg) (x z0 z1 : Q) (nX : Normal)
    : list (Vec3 * Q) :=
  if leb (usableLen z0 z1) 0 then []
  else
    let count := slotCount z0 z1 in
    flat_map (fun i =>
      let z := slotPos z0 z1 count i in
      let x' := x + (if gtb (sgn nX) 0 then WALL_GAP else - WALL_GAP) in
      if hitWallZ all x' z then []
      else [(mkVec3 x' 1.6 z,
             if gtb (sgn nX) 0 then Math_PI / 2 else - Math_PI / 2)])
      (seq 0 (Z.to_nat count)).

Definition slotsOf (all : list WallSeg) (seg : WallSeg) : list (Vec3 * Q) :=
  match seg with
  | SegX z x0 x1 nZ => slotsX all z x0 x1 nZ
  | SegZ x z0 z1 nX => slotsZ all x z0 z1 nX
  end.

(** All accepted slots of a layout, segment after segment. *)
Definition layoutSlots (all : list WallSeg) : list (Vec3 * Q) :=
  flat_map (slotsOf all) all.

(** Hanging at each slot of a list, one after the other. *)
Definition hangEach (opts : BuildOpts) (slots : list (Vec3 * Q)) : Step :=
  fun st => fold_left (fun s slot => hang opts (fst slot) (snd slot) s) slots st.

(** A slot that sits on a segment: along the segment it keeps the edge
    margin and half a frame from both ends, across it stands off the
    plane by [WALL_GAP] on the side of the normal, at eye height, and no
    perpendicular segment of [all] is near. *)
Definition sitsOn (all : list WallSeg) (seg : WallSeg) (slot : Vec3 * Q)
    : Prop :=
  let pos := fst slot in
  vy pos = 1.6 /\
  match seg with
  | SegX z lo hi n =>
      lo + CAP_MARGIN + HALF_W <= vx pos <= hi - CAP_MARGIN - HALF_W /\
      vz pos = standoff z n /\
      ~ NearPerpendicularX all (vx pos) (vz pos)
  | SegZ x lo hi n =>
      lo + CAP_MARGIN + HALF_W <= vz pos <= hi - CAP_MARGIN - HALF_W /\
      vx pos = standoff x n /\
      ~ NearPerpendicularZ all (vx pos) (vz pos)
  end.

(** The footprint of a wall mesh on the floor: its position plus and
    minus half its size, in X and in Z. *)
Definition footprint (o : SceneObj) : list RectXZ :=
  match o with
  | WallBox sx _ sz pos =>
      [mkRect (vx pos - sx / 2) (vx pos + sx / 2)
              (vz pos - sz / 2) (vz pos + sz / 2)]
  | _ => []
  end.

Definition wallFootprints (sc : list SceneObj) : list RectXZ :=
  flat_map footprint sc.

Definition rectEq (a b : RectXZ) : Prop :=
  minX a == minX b /\ maxX a == maxX b /\
  minZ a == minZ b /\ maxZ a == maxZ b.

(** The wall meshes a run has added to the scene that held [base], one
    per collider and with the same footprint. *)
Definition Paired (base : list RectXZ) (st : Build) : Prop :=
  exists fps,
    wallFootprints (scene st) = base ++ fps /\
    Forall2 rectEq fps (colliders st).

(** A step that adds no wall mesh and no collider. *)
Definition noWall (a : Step) : Prop :=
  forall st, wallFootprints (scene (a st)) = wallFootprints (scene st) /\
             colliders (a st) = colliders st.

Definition callNoWall (c : Aux.Call) : Prop :=
  match c with
  | Aux.CallScene a => noWall a
  | _ => True
  end.

(** The extent of a part of a frame along an axis. *)
Definition loX (p : FrameTs.Part) : Q :=
  vx (FrameTs.center p) - FrameTs.sizeX p / 2.
Definition hiX (p : FrameTs.Part) : Q :=
  vx (FrameTs.center p) + FrameTs.sizeX p / 2.
Definition loY (p : FrameTs.Part) : Q :=
  vy (FrameTs.center p) - FrameTs.sizeY p / 2.
Definition hiY (p : FrameTs.Part) : Q :=
  vy (FrameTs.center p) + FrameTs.sizeY p / 2.
Definition loZ (p : FrameTs.Part) : Q :=
  vz (FrameTs.center p) - FrameTs.sizeZ p / 2.
Definition hiZ (p : FrameTs.Part) : Q :=
  vz (FrameTs.center p) + FrameTs.sizeZ p / 2.

(** A part strictly inside the box of another. *)
Definition inside (p q : FrameTs.Part) : Prop :=
  loX q < loX p /\ hiX p < hiX q /\
  loY q < loY p /\ hiY p < hiY q /\
  loZ q < loZ p /\ hiZ p < hiZ q.

(** A collider that clamping cannot push the viewer into: on each axis,
    neither end of its inflated interval lies within a step [s] outside
    the border of the bounds. *)
Definition clampSafeb (b : Bounds) (s : Q) (r : RectXZ) : bool :=
  let rad := Controls.playerRadius in
  (ltb (minX r - rad) (bMinX b - s) || leb (bMinX b) (minX r - rad)) &&
  (leb (maxX r + rad) (bMaxX b) || ltb (bMaxX b + s) (maxX r + rad)) &&
  (ltb (minZ r - rad) (bMinZ b - s) || leb (bMinZ b) (minZ r - rad)) &&
  (leb (maxZ r + rad) (bMaxZ b) || ltb (bMaxZ b + s) (maxZ r + rad)).

(** [normalize] returns vectors with X and Z between -1 and 1, as unit
    vectors (and the zero vector) have. *)
Definition unitLike (normalize : Vec3 -> Vec3) : Prop :=
  forall v, (-1 <= vx (normalize v) <= 1) /\ (-1 <= vz (normalize v) <= 1).

(** The time stamps of the frames do not go back. *)
Fixpoint timely (last : Q) (es : list Main.AppEvent) : Prop :=
  match es with
  | [] => True
  | Main.FrameAt now :: rest => last <= now /\ timely now rest
  | _ :: rest => timely last rest
  end.

(** A step that keeps to one direction, for trying things out. *)
Definition sampleUnit (_ : Vec3) : Vec3 := mkVec3 0 0 (-1).

(** The controls of the application, outside every wall and within the
    bounds. *)
Definition Safe (c : Controls.Ctl) : Prop :=
  Controls.bounds c = Some Gallery.bounds /\
  Controls.colliders c = Gallery.colliders roomsBuilt /\
  within Gallery.bounds (Controls.position (Controls.camera c)) /\
  free (Gallery.colliders roomsBuilt) (Controls.position (Controls.camera c)).

(** The colliders a step appended to [colliders]. *)
Definition pushed (before after : Build) : list RectXZ :=
  skipn (length (Gallery.colliders before)) (Gallery.colliders after).

(** Sample controls: locked, only the key h held, next to the collider
    [5,6] x [5,6], no bounds. *)
Definition idleCtl : Controls.Ctl :=
  Controls.mkCtl ["h"]%string true 0 0
    (Controls.mkCamera (mkVec3 4.6 1.6 4.6) (mkVec3 0 0 0))
    None [mkRect 5 6 5 6].

(** Locked, w held, no bounds and no colliders. *)
Definition openCtl : Controls.Ctl :=
  Controls.mkCtl ["w"]%string true 0 0
    (Controls.mkCamera (mkVec3 0 1.6 0) (mkVec3 0 0 0))
    None [].

(** Not yet locked. *)
Definition freshCtl : Controls.Ctl :=
  Controls.createControls
    (Controls.mkCamera (mkVec3 0 1.6 0) (mkVec3 0 0 0)) None None.

(** Locked, with forward and back held at once. *)
Definition bothWaysCtl : Controls.Ctl :=
  Controls.mkCtl ["s"; "w"]%string true 0 0
    (Controls.mkCamera (mkVec3 0 1.6 0) (mkVec3 0 0 0))
    None [].

End Extra.

(* ===================================================================== *)
(** ** The placement engine in the arithmetic of doubles *)
(* ===================================================================== *)

(** The slot count is a floor and the corner check compares sums with
    sums, so the rounding of a double can decide them.  Here the
    placement on one segment is written once more with the rounding of
    every operation explicit: [rnd] takes the exact result of an
    operation to the number the machine stores.  With [exact] for [rnd]
    these are the definitions of module [Gallery]; with [binary64] they
    are the computations of the TypeScript code on finite doubles. *)

Module Rounded.
Import Gallery.

(** The integer nearest to [y], the even one of two equally near. *)
Definition roundEven (y : Q) : Z :=
  let f := Qfloor y in
  let r := y - inject_Z f in
  if ltb r (1 # 2) then f
  else if ltb (1 # 2) r then (f + 1)%Z
  else if Z.even f then f else (f + 1)%Z.

(** For [a > 0], the [e] with [2^e <= a < 2^(e+1)], and -1022 below the
    normal range. *)
Definition exponent (a : Q) : Z :=
  let e0 := (Z.log2 (Qnum a) - Z.log2 (Zpos (Qden a)))%Z in
  let e := if leb (2 ^ e0) a then e0 else (e0 - 1)%Z in
  Z.max e (-1022).

(** IEEE 754 binary64, round to nearest, ties to even: 53 significant
    bits, and multiples of [2^-1074] below the normal range.  A result
    beyond the largest double is [Infinity] in the code and has no
    counterpart here. *)
Definition binary64 (x : Q) : Q :=
  let e := exponent (Qabs x) in
  let m := roundEven (Qabs x * 2 ^ (52 - e)) in
  let r := Qred (inject_Z m * 2 ^ (e - 52)) in
  if leb 0 x then r else - r.

(** No rounding. *)
Definition exact (x : Q) : Q := x.

Section Arith.

Variable rnd : Q -> Q.

(** A decimal literal, and the four operations.  Integers (the literal
    [2], the loop counter [i], [count] and [count - 1]) are doubles as
    they are, and so are a negation, [Math.abs] and [Math.floor]. *)
Definition lit (q : Q) : Q := rnd q.
Definition radd (a b : Q) : Q := rnd (a + b).
Definition rsub (a b : Q) : Q := rnd (a - b).
Definition rmul (a b : Q) : Q := rnd (a * b).
Definition rdiv (a b : Q) : Q := rnd (a / b).

Definition WALL_GAP : Q := lit 0.2.
Definition CAP_MARGIN : Q := lit 0.80.
Definition SPACING : Q := lit 3.6.
Definition FRAME_W : Q := lit 1.8.
Definition HALF_W : Q := rmul FRAME_W (lit 0.5).

Variable opts : BuildOpts.

(** [(count === 1) ? 0.5 : i / (count - 1)] *)
Definition slotT (count : Z) (i : nat) : Q :=
  if (count =? 1)%Z then lit 0.5
  else rdiv (inject_Z (Z.of_nat i)) (inject_Z (count - 1)).

Definition hitWallX (all : list WallSeg) (x z : Q) : bool :=
  existsb (fun other =>
    match other with
    | SegZ ox oz0 oz1 _ =>
        let nearX := ltb (Math_abs (rsub ox x)) (radd HALF_W (lit 0.05)) in
        let insideZ := geb z (rsub oz0 (lit 0.05)) && leb z (radd oz1 (lit 0.05)) in
        nearX && insideZ
    | SegX _ _ _ _ => false
    end) all.

Definition hitWallZ (all : list WallSeg) (x z : Q) : bool :=
  existsb (fun other =>
    match other with
    | SegX oz ox0 ox1 _ =>
        let nearZ := ltb (Math_abs (rsub oz z)) (radd HALF_W (lit 0.05)) in
        let insideX := geb x (rsub ox0 (lit 0.05)) && leb x (radd ox1 (lit 0.05)) in
        nearZ && insideX
    | SegZ _ _ _ _ => false
    end) all.

(** [const meta = frames[idx++]; const f = new Frame(meta, url, FRAME_W);
    f.position.set(...); f.rotation.y = ...; scene.add(f)] *)
Definition hang (pos : Vec3) (rotY : Q) : Step := fun st =>
  match nth_error (frames opts) (idx st) with
  | Some meta =>
      mkBuild
        (scene st ++
           [FrameObj meta (imagesBase opts ++ "/" ++ file meta)%string
              FRAME_W pos rotY])
        (colliders st) (segs st) (S (idx st))
  | None => st
  end.

(** [startX + t * (endX - startX)] *)
Definition slotPos (lo hi : Q) (count : Z) (i : nat) : Q :=
  let start := radd (radd lo CAP_MARGIN) HALF_W in
  let stop := rsub (rsub hi CAP_MARGIN) HALF_W in
  let t := slotT count i in
  radd start (rmul t (rsub stop start)).

(** One turn of the loop of [hangOnSegX]. *)
Definition slotX (z x0 x1 : Q) (nZ : Normal) (count : Z) (i : nat) : Step :=
  fun st =>
    let x := slotPos x0 x1 count i in
    let z' := radd z (if gtb (sgn nZ) 0 then WALL_GAP else - WALL_GAP) in
    if hitWallX (segs st) x z' then st   (* continue *)
    else hang (mkVec3 x (lit 1.6) z') (if gtb (sgn nZ) 0 then 0 else Math_PI) st.

Definition hangOnSegX (z x0 x1 : Q) (nZ : Normal) : Step := fun st =>
  let usable := rsub (rsub x1 x0) (rmul 2 (radd CAP_MARGIN HALF_W)) in
  if leb usable 0 then st
  else
    let count := (Math_floor (rdiv usable SPACING) + 1)%Z in
    forSlots opts (Z.to_nat count) 0 (slotX z x0 x1 nZ count) st.

Definition slotZ (x z0 z1 : Q) (nX : Normal) (count : Z) (i : nat) : Step :=
  fun st =>
    let z := slotPos z0 z1 count i in
    let x' := radd x (if gtb (sgn nX) 0 then WALL_GAP else - WALL_GAP) in
    if hitWallZ (segs st) x' z then st   (* continue *)
    else hang (mkVec3 x' (lit 1.6) z)
           (if gtb (sgn nX) 0 then rdiv Math_PI 2 else rdiv (- Math_PI) 2) st.

Definition hangOnSegZ (x z0 z1 : Q) (nX : Normal) : Step := fun st =>
  let usable := rsub (rsub z1 z0) (rmul 2 (radd CAP_MARGIN HALF_W)) in
  if leb usable 0 then st
  else
    let count := (Math_floor (rdiv usable SPACING) + 1)%Z in
    forSlots opts (Z.to_nat count) 0 (slotZ x z0 z1 nX count) st.

(** *** The words of the specification, in this arithmetic *)

(** Usable length: segment length minus 2 x (edge margin + half frame
    width). *)
Definition usable (lo hi : Q) : Q :=
  rsub (rsub hi lo) (rmul 2 (radd CAP_MARGIN HALF_W)).

(** [floor(usable / desiredSpacing) + 1] *)
Definition slotCount (lo hi : Q) : Z :=
  (Qfloor (rdiv (usable lo hi) SPACING) + 1)%Z.

(** Where slot [i] of [count] is said to be: half way for a single slot,
    at [start + (i / (count - 1)) x (end - start)] otherwise. *)
Definition specSlot (lo hi : Q) (count : Z) (i : nat) : Q :=
  let start := radd (radd lo CAP_MARGIN) HALF_W in
  let stop := rsub (rsub hi CAP_MARGIN) HALF_W in
  if (count =? 1)%Z then radd start (rmul (lit 0.5) (rsub stop start))
  else radd start
         (rmul (rdiv (inject_Z (Z.of_nat i)) (inject_Z (count - 1)))
               (rsub stop start)).

(** Where a frame stands off the plane of its segment. *)
Definition standoff (plane : Q) (n : Normal) : Q :=
  match n with
  | Plus1 => radd plane WALL_GAP
  | Minus1 => radd plane (- WALL_GAP)
  end.

(** The corner-avoidance rule: a perpendicular segment whose plane is
    strictly within [HALF_W + 0.05] of the candidate, and whose span,
    extended by 0.05 at each end, holds the candidate's other
    coordinate. *)
Definition NearPerpendicularX (all : list WallSeg) (x z : Q) : Prop :=
  exists ox oz0 oz1 on,
    In (SegZ ox oz0 oz1 on) all /\
    Qabs (rsub ox x) < radd HALF_W (lit 0.05) /\
    rsub oz0 (lit 0.05) <= z <= radd oz1 (lit 0.05).

Definition NearPerpendicularZ (all : list WallSeg) (x z : Q) : Prop :=
  exists oz ox0 ox1 on,
    In (SegX oz ox0 ox1 on) all /\
    Qabs (rsub oz z) < radd HALF_W (lit 0.05) /\
    rsub ox0 (lit 0.05) <= x <= radd ox1 (lit 0.05).

(** The frame hung for a record at a slot (position, rotation). *)
Definition frameFor (meta : ArtworkMeta) (slot : Vec3 * Q) : SceneObj :=
  FrameObj meta (imagesBase opts ++ "/" ++ file meta)%string FRAME_W
           (fst slot) (snd slot).

(** Hanging at each slot of a list, one after the other. *)
Definition hangEach (slots : list (Vec3 * Q)) : Step :=
  fun st => fold_left (fun s slot => hang (fst slot) (snd slot) s) slots st.

(** The slots [0 .. count-1] of a segment that pass the corner check, in
    the order of the turns of the loop: [slotOf] makes the slot (position
    and rotation) of a position along the segment, [rejects] is the
    corner check there. *)
Definition accepted (all : list WallSeg) (lo hi : Q)
    (slotOf : Q -> Vec3 * Q) (rejects : list WallSeg -> Q -> bool)
    : list (Vec3 * Q) :=
  let count := slotCount lo hi in
  flat_map (fun i =>
    let along := slotPos lo hi count i in
    if rejects all along then [] else [slotOf along])
    (seq 0 (Z.to_nat count)).

(** What the specification says of the frames [hangOn] puts on a
    segment [lo, hi]. *)
Definition SlotGeometry (lo hi : Q) (slotOf : Q -> Vec3 * Q)
    (rejects : list WallSeg -> Q -> bool) (hangOn : Step) : Prop :=
  forall st,
    let count := slotCount lo hi in
    let slots := accepted (segs st) lo hi slotOf rejects in
    (* too short: no frame *)
    (usable lo hi <= 0 -> hangOn st = st) /\
    (* otherwise turn i of [count] turns is for slot i: the frames added
       are the records left, in order, at the slots that pass the check,
       in order *)
    (0 < usable lo hi ->
       scene (hangOn st)
       = scene st ++ map (fun ms => frameFor (fst ms) (snd ms))
                         (combine (skipn (idx st) (artworks opts)) slots) /\
       idx (hangOn st)
       = (idx st + Nat.min (length slots)
                           (length (artworks opts) - idx st))%nat /\
       segs (hangOn st) = segs st) /\
    (* where the slots are *)
    (forall i, slotPos lo hi count i = specSlot lo hi count i).

End Arith.

(** One X segment [0, 3.5] at z = 0 and, across it, a Z segment in the
    plane x = 2.7; one record. *)
Definition cornerState : Build :=
  mkBuild [] [] [SegX 0 0 3.5 Plus1; SegZ 2.7 (-1) 1 Plus1] 0%nat.

End Rounded.

(* ===================================================================== *)
(** ** Facts about numbers *)
(* ===================================================================== *)

Module NumFacts.

Lemma ltb_iff (a b : Q) : ltb a b = true <-> a < b.
Proof.
  unfold ltb. rewrite negb_true_iff, <- not_true_iff_false, Qle_bool_iff.
  split; [apply Qnot_le_lt | apply Qlt_not_le].
Qed.

Lemma ltb_false_iff (a b : Q) : ltb a b = false <-> b <= a.
Proof.
  unfold ltb. rewrite negb_false_iff. apply Qle_bool_iff.
Qed.

Lemma gtb_iff (a b : Q) : gtb a b = true <-> b < a.
Proof. apply ltb_iff. Qed.

Lemma gtb_false_iff (a b : Q) : gtb a b = false <-> a <= b.
Proof. apply ltb_false_iff. Qed.

Lemma leb_iff (a b : Q) : leb a b = true <-> a <= b.
Proof. apply Qle_bool_iff. Qed.

Lemma leb_false_iff (a b : Q) : leb a b = false <-> b < a.
Proof.
  unfold leb. rewrite <- not_true_iff_false, Qle_bool_iff.
  split; [apply Qnot_le_lt | apply Qlt_not_le].
Qed.

Lemma geb_iff (a b : Q) : geb a b = true <-> b <= a.
Proof. apply Qle_bool_iff. Qed.

Lemma Math_min_le_l (a b : Q) : Math_min a b <= a.
Proof.
  unfold Math_min. destruct (leb a b) eqn:E.
  - apply Qle_refl.
  - apply leb_false_iff in E. apply Qlt_le_weak, E.
Qed.

Lemma Math_min_glb (a b c : Q) : c <= a -> c <= b -> c <= Math_min a b.
Proof. unfold Math_min. destruct (leb a b); auto. Qed.

Lemma Math_max_ge_l (a b : Q) : a <= Math_max a b.
Proof.
  unfold Math_max. destruct (leb a b) eqn:E.
  - apply leb_iff, E.
  - apply Qle_refl.
Qed.

Lemma Math_max_lub (a b c : Q) : a <= c -> b <= c -> Math_max a b <= c.
Proof. unfold Math_max. destruct (leb a b); auto. Qed.

(** [min(hi, max(lo, v))] lies in [lo, hi] when [lo <= hi]. *)
Lemma clamp_within (lo hi v : Q) :
  lo <= hi -> lo <= Math_min hi (Math_max lo v) <= hi.
Proof.
  intros Hle. split.
  - apply Math_min_glb; [exact Hle | apply Math_max_ge_l].
  - apply Math_min_le_l.
Qed.

(** [max(-l, min(l, v))] lies in [-l, l] when [0 <= l]. *)
Lemma clamp_sym_within (l v : Q) :
  0 <= l -> - l <= Math_max (- l) (Math_min l v) <= l.
Proof.
  intros Hl. split.
  - apply Math_max_ge_l.
  - apply Math_max_lub; [lra | apply Math_min_le_l].
Qed.

End NumFacts.

(** Linear arithmetic over the constants of the gallery: halves become
    products, constants are unfolded. *)
Ltac qlin :=
  unfold Gallery.HALF_W, Gallery.FRAME_W, Gallery.DOOR_W, Gallery.WALL_T,
    Gallery.WALL_GAP, Gallery.CAP_MARGIN, Gallery.SPACING, Gallery.H in *;
  unfold Qdiv in *; change (/ 2) with (1 # 2) in *;
  lra.

(* ===================================================================== *)
(** ** The layout builder *)
(* ===================================================================== *)

Module LayoutFacts.
Import Gallery Spec Aux NumFacts.

Lemma skipn_length_app {A} (l r : list A) : skipn (length l) (l ++ r) = r.
Proof. induction l; simpl; auto. Qed.

(** What one wall pushes. *)
Lemma wallX_segs z x0 x1 n st :
  segs (wallX z x0 x1 n st)
  = segs st ++ [SegX (z + sgn n * (WALL_T / 2)) x0 x1 n].
Proof. reflexivity. Qed.

Lemma wallZ_segs x z0 z1 n st :
  segs (wallZ x z0 z1 n st)
  = segs st ++ [SegZ (x + sgn n * (WALL_T / 2)) z0 z1 n].
Proof. reflexivity. Qed.

Lemma addWallX_door_emitted z lo hi n c st :
  map spanOf (emitted st (addWallX z lo hi n (Some c) st)) = doorSpans lo hi c.
Proof.
  unfold emitted, addWallX, doorSpans, andThen, when, skip.
  destruct (gtb (c - DOOR_W / 2) (lo + 0.01));
    destruct (gtb hi (c + DOOR_W / 2 + 0.01));
    rewrite ?wallX_segs, <- ?app_assoc, ?skipn_length_app; simpl;
    try reflexivity.
  rewrite <- (app_nil_r (segs st)) at 2. now rewrite skipn_length_app.
Qed.

Lemma addWallZ_door_emitted x lo hi n c st :
  map spanOf (emitted st (addWallZ x lo hi n (Some c) st)) = doorSpans lo hi c.
Proof.
  unfold emitted, addWallZ, doorSpans, andThen, when, skip.
  destruct (gtb (c - DOOR_W / 2) (lo + 0.01));
    destruct (gtb hi (c + DOOR_W / 2 + 0.01));
    rewrite ?wallZ_segs, <- ?app_assoc, ?skipn_length_app; simpl;
    try reflexivity.
  rewrite <- (app_nil_r (segs st)) at 2. now rewrite skipn_length_app.
Qed.

Lemma doorSpans_In lo hi c s :
  In s (doorSpans lo hi c) ->
  s = (lo, c - DOOR_W / 2) /\ lo + 0.01 < c - DOOR_W / 2 \/
  s = (c + DOOR_W / 2, hi) /\ c + DOOR_W / 2 + 0.01 < hi.
Proof.
  unfold doorSpans. intros Hin. apply in_app_or in Hin.
  destruct Hin as [Hin | Hin]; [left | right].
  - destruct (gtb _ _) eqn:E in Hin; simpl in Hin; [|tauto].
    destruct Hin as [<- | []]. split; [reflexivity | now apply gtb_iff].
  - destruct (gtb _ _) eqn:E in Hin; simpl in Hin; [|tauto].
    destruct Hin as [<- | []]. split; [reflexivity | now apply gtb_iff].
Qed.

Lemma doorSpans_left lo hi c :
  lo + 0.01 < c - DOOR_W / 2 -> In (lo, c - DOOR_W / 2) (doorSpans lo hi c).
Proof.
  intros Hl. unfold doorSpans. apply in_or_app. left.
  apply gtb_iff in Hl. rewrite Hl. now left.
Qed.

Lemma doorSpans_right lo hi c :
  c + DOOR_W / 2 + 0.01 < hi -> In (c + DOOR_W / 2, hi) (doorSpans lo hi c).
Proof.
  intros Hr. unfold doorSpans. apply in_or_app. right.
  apply gtb_iff in Hr. rewrite Hr. now left.
Qed.

Lemma doorSpans_shape lo hi c :
  let d0 := c - DOOR_W / 2 in
  let d1 := c + DOOR_W / 2 in
  exists left right,
    doorSpans lo hi c = left ++ right /\
    (left = [(lo, d0)] /\ 0.01 < d0 - lo \/ left = [] /\ d0 - lo <= 0.01) /\
    (right = [(d1, hi)] /\ 0.01 < hi - d1 \/ right = [] /\ hi - d1 <= 0.01).
Proof.
  intros d0 d1. unfold doorSpans. fold d0 d1.
  do 2 eexists. split; [reflexivity|]. split.
  - destruct (gtb d0 (lo + 0.01)) eqn:E.
    + apply gtb_iff in E. left. split; [reflexivity | lra].
    + apply gtb_false_iff in E. right. split; [reflexivity | lra].
  - destruct (gtb hi (d1 + 0.01)) eqn:E.
    + apply gtb_iff in E. left. split; [reflexivity | lra].
    + apply gtb_false_iff in E. right. split; [reflexivity | lra].
Qed.

Lemma doorSpans_cut lo hi c : DoorwayCut lo hi c (doorSpans lo hi c).
Proof.
  unfold DoorwayCut. split; [apply doorSpans_shape|].
  split; [|split; [|split; [|split]]].
  - (* the doorway stays open *)
    intros s p Hin Hp [Hlo Hhi].
    apply doorSpans_In in Hin.
    destruct Hin as [[-> _] | [-> _]]; simpl in *; lra.
  - (* coverage *)
    intros p Hp.
    destruct (Qlt_le_dec p (c - DOOR_W / 2)) as [Hl | Hl].
    + destruct (Qlt_le_dec (lo + 0.01) (c - DOOR_W / 2)) as [Hd | Hd].
      * left. eexists. split; [apply doorSpans_left, Hd|].
        unfold covers; simpl. lra.
      * right. right. left. lra.
    + destruct (Qlt_le_dec (c + DOOR_W / 2) p) as [Hr | Hr].
      * destruct (Qlt_le_dec (c + DOOR_W / 2 + 0.01) hi) as [Hd | Hd].
        -- left. eexists. split; [apply doorSpans_right, Hd|].
           unfold covers; simpl. lra.
        -- right. right. right. lra.
      * right. left. lra.
  - (* nothing sticks out *)
    intros Hc s p Hin Hp. apply doorSpans_In in Hin.
    destruct Hin as [[-> _] | [-> _]]; unfold covers in Hp; simpl in Hp; qlin.
  - (* sub-walls and doorway inside the run *)
    intros Hd0 Hd1 p [(s & Hin & Hp) | Hp]; [|qlin].
    apply doorSpans_In in Hin.
    destruct Hin as [[-> _] | [-> _]]; unfold covers in Hp; simpl in Hp; qlin.
  - intros Hl Hr. destruct (doorSpans lo hi c) as [|s rest] eqn:E; [reflexivity|].
    assert (Hin : In s (doorSpans lo hi c)) by (rewrite E; now left).
    apply doorSpans_In in Hin. destruct Hin as [[_ Hin] | [_ Hin]]; lra.
Qed.

(** *** Segments and colliders *)

Lemma wallX_colliders z x0 x1 n st :
  colliders (wallX z x0 x1 n st)
  = colliders st ++
      [{| minX := (x0 + x1) / 2 - (x1 - x0) / 2;
          maxX := (x0 + x1) / 2 + (x1 - x0) / 2;
          minZ := z + (if gtb (sgn n) 0 then 0 else - WALL_T);
          maxZ := z + (if gtb (sgn n) 0 then WALL_T else 0) |}].
Proof. reflexivity. Qed.

Lemma wallZ_colliders x z0 z1 n st :
  colliders (wallZ x z0 z1 n st)
  = colliders st ++
      [{| minX := x + (if gtb (sgn n) 0 then 0 else - WALL_T);
          maxX := x + (if gtb (sgn n) 0 then WALL_T else 0);
          minZ := (z0 + z1) / 2 - (z1 - z0) / 2;
          maxZ := (z0 + z1) / 2 + (z1 - z0) / 2 |}].
Proof. reflexivity. Qed.

(** The collider of a wall matches its segment. *)
Lemma wallX_lockstep z x0 x1 n :
  Lockstep (SegX (z + sgn n * (WALL_T / 2)) x0 x1 n)
    {| minX := (x0 + x1) / 2 - (x1 - x0) / 2;
       maxX := (x0 + x1) / 2 + (x1 - x0) / 2;
       minZ := z + (if gtb (sgn n) 0 then 0 else - WALL_T);
       maxZ := z + (if gtb (sgn n) 0 then WALL_T else 0) |}.
Proof. destruct n; cbn; repeat split; qlin. Qed.

Lemma wallZ_lockstep x z0 z1 n :
  Lockstep (SegZ (x + sgn n * (WALL_T / 2)) z0 z1 n)
    {| minX := x + (if gtb (sgn n) 0 then 0 else - WALL_T);
       maxX := x + (if gtb (sgn n) 0 then WALL_T else 0);
       minZ := (z0 + z1) / 2 - (z1 - z0) / 2;
       maxZ := (z0 + z1) / 2 + (z1 - z0) / 2 |}.
Proof. destruct n; cbn; repeat split; qlin. Qed.

Lemma wallX_instep z x0 x1 n st :
  x0 < x1 -> InStep st -> InStep (wallX z x0 x1 n st).
Proof.
  intros Hlt [Hseg Hcol]. unfold InStep.
  rewrite wallX_segs, wallX_colliders. split.
  - apply Forall2_app; [exact Hseg|].
    constructor; [apply wallX_lockstep | constructor].
  - apply Forall_app. split; [exact Hcol|].
    constructor; [|constructor].
    destruct n; unfold nondegenerate; cbn; split; qlin.
Qed.

Lemma wallZ_instep x z0 z1 n st :
  z0 < z1 -> InStep st -> InStep (wallZ x z0 z1 n st).
Proof.
  intros Hlt [Hseg Hcol]. unfold InStep.
  rewrite wallZ_segs, wallZ_colliders. split.
  - apply Forall2_app; [exact Hseg|].
    constructor; [apply wallZ_lockstep | constructor].
  - apply Forall_app. split; [exact Hcol|].
    constructor; [|constructor].
    destruct n; unfold nondegenerate; cbn; split; qlin.
Qed.

(** A wall call keeps the arrays in step: a sub-wall next to a doorway is
    longer than 0.01, a wall without doorway needs [lo < hi]. *)
Lemma addWallX_instep z lo hi n door st :
  (door = None -> lo < hi) -> InStep st -> InStep (addWallX z lo hi n door st).
Proof.
  intros Hlt Hst. destruct door as [c|]; simpl.
  - unfold andThen, when, skip.
    destruct (gtb (c - DOOR_W / 2) (lo + 0.01)) eqn:EL;
      destruct (gtb hi (c + DOOR_W / 2 + 0.01)) eqn:ER;
      try apply gtb_iff in EL; try apply gtb_iff in ER;
      repeat (apply wallX_instep; [lra|]); exact Hst.
  - apply wallX_instep; auto.
Qed.

Lemma addWallZ_instep x lo hi n door st :
  (door = None -> lo < hi) -> InStep st -> InStep (addWallZ x lo hi n door st).
Proof.
  intros Hlt Hst. destruct door as [c|]; simpl.
  - unfold andThen, when, skip.
    destruct (gtb (c - DOOR_W / 2) (lo + 0.01)) eqn:EL;
      destruct (gtb hi (c + DOOR_W / 2 + 0.01)) eqn:ER;
      try apply gtb_iff in EL; try apply gtb_iff in ER;
      repeat (apply wallZ_instep; [lra|]); exact Hst.
  - apply wallZ_instep; auto.
Qed.

(** [buildRooms] runs the calls of [galleryPlan]. *)
Lemma buildRooms_plan st : buildRooms st = runPlan galleryPlan st.
Proof.
  unfold buildRooms, buildAtrium, buildNorth, buildEast, buildWest,
    galleryPlan, runPlan.
  cbn [fold_right runCall]. unfold andThen, skip. reflexivity.
Qed.

Lemma runCall_instep c st : callOk c -> InStep st -> InStep (runCall c st).
Proof.
  destruct c as [z lo hi n door | x lo hi n door | a]; simpl; intros Hok Hst.
  - apply addWallX_instep; [|exact Hst]. intros ->. exact Hok.
  - apply addWallZ_instep; [|exact Hst]. intros ->. exact Hok.
  - destruct (Hok st) as [Hs Hc]. unfold InStep. now rewrite Hs, Hc.
Qed.

(** Any sequence of wall calls keeps the arrays in step. *)
Lemma runPlan_instep plan :
  Forall callOk plan -> forall st, InStep st -> InStep (runPlan plan st).
Proof.
  induction 1 as [|c plan Hc _ IH]; intros st Hst; simpl.
  - exact Hst.
  - unfold andThen. apply IH, runCall_instep; assumption.
Qed.

(** The rooms of the gallery: every wall without doorway has [lo < hi]. *)
Lemma gallery_calls_ok : Forall callOk galleryPlan.
Proof.
  unfold galleryPlan.
  repeat (constructor; [first [exact I | reflexivity
                              | intros st; split; reflexivity]|]).
  constructor.
Qed.

(** Every doorway of the gallery lies inside its run. *)
Lemma gallery_doorways_inside : Forall doorInside galleryPlan.
Proof.
  unfold galleryPlan.
  repeat (constructor;
          [first [exact I | split; vm_compute; discriminate]|]).
  constructor.
Qed.

Lemma buildRooms_instep st : InStep st -> InStep (buildRooms st).
Proof.
  rewrite buildRooms_plan. apply runPlan_instep, gallery_calls_ok.
Qed.

(** C1.  Doorway cutting.  For every wall run [lo, hi] built with a
    doorway centered at [c], along X or along Z, the sub-runs the builder
    appends to [segs] are a left sub-wall [lo, c - D/2] exactly when that
    is longer than 0.01 and a right sub-wall [c + D/2, hi] exactly when
    that is longer than 0.01.  No appended segment covers a point of the
    open interval (c - D/2, c + D/2).  The appended segments and the
    doorway make up the run within 0.01: every point of the run lies on
    an appended segment, in the doorway, or on a dropped sub-run of length
    at most 0.01, and, the doorway lying in the run, every point of an
    appended segment or of the doorway lies in the run (for the segments
    it is enough that the doorway is centered on the run).  A run whose
    two sub-runs are both of length at most 0.01 appends nothing.  The
    doorways of the gallery all lie in their runs. *)
Theorem doorway_cutting :
  (forall (w lo hi : Q) (n : Normal) (c : Q) (st : Build),
      DoorwayCut lo hi c
        (map spanOf (emitted st (addWallX w lo hi n (Some c) st))) /\
      DoorwayCut lo hi c
        (map spanOf (emitted st (addWallZ w lo hi n (Some c) st)))) /\
  (forall st, buildRooms st = runPlan galleryPlan st) /\
  Forall doorInside galleryPlan.
Proof.
  split; [|split].
  - intros w lo hi n c st.
    rewrite addWallX_door_emitted, addWallZ_door_emitted.
    split; apply doorSpans_cut.
  - apply buildRooms_plan.
  - apply gallery_doorways_inside.
Qed.

End LayoutFacts.

(* ===================================================================== *)
(** ** The placement engine *)
(* ===================================================================== *)

Module PlacementFacts.
Import Gallery Spec Aux NumFacts.

Section Loops.

Variable opts : BuildOpts.

(** A property kept by every turn of a loop is kept by the loop. *)
Lemma forSlots_keeps (P : Build -> Prop) (body : nat -> Step) :
  (forall i st, P st -> (idx st < length (frames opts))%nat -> P (body i st)) ->
  forall r i st, P st -> P (forSlots opts r i body st).
Proof.
  intros Hbody. induction r as [|r IH]; intros i st Hst; simpl.
  - exact Hst.
  - destruct (idx st <? length (frames opts))%nat eqn:E.
    + apply IH, Hbody; [exact Hst | now apply Nat.ltb_lt].
    + exact Hst.
Qed.

Lemma hangOnSeg_keeps (P : Build -> Prop) :
  (forall pos rot st, P st -> (idx st < length (frames opts))%nat ->
                      P (hang opts pos rot st)) ->
  forall seg st, P st -> P (hangOnSeg opts seg st).
Proof.
  intros Hhang seg st Hst.
  destruct seg as [z x0 x1 n | x z0 z1 n]; simpl.
  - unfold hangOnSegX. destruct (leb _ 0); [exact Hst|].
    apply forSlots_keeps; [|exact Hst].
    intros i st' Hst' Hlt. unfold slotX.
    destruct (hitWallX _ _ _); [exact Hst' | now apply Hhang].
  - unfold hangOnSegZ. destruct (leb _ 0); [exact Hst|].
    apply forSlots_keeps; [|exact Hst].
    intros i st' Hst' Hlt. unfold slotZ.
    destruct (hitWallZ _ _ _); [exact Hst' | now apply Hhang].
Qed.

Lemma forSegs_keeps (P : Build -> Prop) :
  (forall pos rot st, P st -> (idx st < length (frames opts))%nat ->
                      P (hang opts pos rot st)) ->
  forall rest st, P st -> P (forSegs opts rest st).
Proof.
  intros Hhang. induction rest as [|seg rest IH]; intros st Hst; simpl.
  - exact Hst.
  - destruct (length (frames opts) <=? idx st)%nat; [exact Hst|].
    apply IH, hangOnSeg_keeps; assumption.
Qed.

Lemma hangAll_keeps (P : Build -> Prop) :
  (forall pos rot st, P st -> (idx st < length (frames opts))%nat ->
                      P (hang opts pos rot st)) ->
  forall st, P st -> P (hangAll opts st).
Proof. intros Hhang st Hst. unfold hangAll. now apply forSegs_keeps. Qed.

(** Hanging touches neither [segs] nor [colliders]. *)
Lemma hang_walls pos rot st :
  segs (hang opts pos rot st) = segs st /\
  colliders (hang opts pos rot st) = colliders st.
Proof. unfold hang. destruct (nth_error _ _); split; reflexivity. Qed.

Lemma hangAll_walls st :
  segs (hangAll opts st) = segs st /\
  colliders (hangAll opts st) = colliders st.
Proof.
  apply (hangAll_keeps
           (fun s => segs s = segs st /\ colliders s = colliders st));
    [|split; reflexivity].
  intros pos rot s [Hs Hc] _.
  destruct (hang_walls pos rot s) as [Hs' Hc'].
  split; congruence.
Qed.

(** *** The order in which records are used *)

Lemma firstn_S_nth_error {A} (l : list A) (n : nat) (x : A) :
  nth_error l n = Some x -> firstn (S n) l = firstn n l ++ [x].
Proof.
  revert n. induction l as [|a l IH]; intros [|n] Hn; simpl in *;
    try discriminate.
  - now inversion Hn.
  - f_equal. now apply IH.
Qed.

Lemma hungMetas_app sc sc' :
  hungMetas (sc ++ sc') = hungMetas sc ++ hungMetas sc'.
Proof. apply flat_map_app. Qed.

Lemma hang_in_order base pos rot st :
  InOrder opts base st -> InOrder opts base (hang opts pos rot st).
Proof.
  intros [Hm Hle]. unfold hang.
  destruct (nth_error (frames opts) (idx st)) as [meta|] eqn:E;
    [|split; assumption].
  split; cbn [scene idx].
  - rewrite hungMetas_app, Hm, (firstn_S_nth_error _ _ _ E), <- app_assoc.
    reflexivity.
  - apply Nat.le_succ_l, nth_error_Some. congruence.
Qed.

Lemma hangAll_in_order base st :
  InOrder opts base st -> InOrder opts base (hangAll opts st).
Proof.
  apply hangAll_keeps. intros pos rot s Hs _. now apply hang_in_order.
Qed.

(** A rejected slot leaves the state as it is. *)
Lemma slotX_rejected z x0 x1 n count i st :
  hitWallX (segs st) (slotPos x0 x1 count i)
    (z + (if gtb (sgn n) 0 then WALL_GAP else - WALL_GAP)) = true ->
  slotX opts z x0 x1 n count i st = st.
Proof. intros Hhit. unfold slotX. now rewrite Hhit. Qed.

Lemma slotZ_rejected x z0 z1 n count i st :
  hitWallZ (segs st)
    (x + (if gtb (sgn n) 0 then WALL_GAP else - WALL_GAP))
    (slotPos z0 z1 count i) = true ->
  slotZ opts x z0 z1 n count i st = st.
Proof. intros Hhit. unfold slotZ. now rewrite Hhit. Qed.

(** Once the records are used up nothing more happens. *)
Lemma forSlots_exhausted r i body st :
  (length (frames opts) <= idx st)%nat -> forSlots opts r i body st = st.
Proof.
  intros Hle. destruct r; simpl; [reflexivity|].
  apply Nat.ltb_ge in Hle. now rewrite Hle.
Qed.

Lemma hangOnSeg_exhausted seg st :
  (length (frames opts) <= idx st)%nat -> hangOnSeg opts seg st = st.
Proof.
  intros Hle. destruct seg; simpl; unfold hangOnSegX, hangOnSegZ;
    destruct (leb _ 0); auto using forSlots_exhausted.
Qed.

Lemma forSegs_exhausted rest st :
  (length (frames opts) <= idx st)%nat -> forSegs opts rest st = st.
Proof.
  intros Hle. destruct rest; simpl; [reflexivity|].
  apply Nat.leb_le in Hle. now rewrite Hle.
Qed.

End Loops.

Lemma quiet_andThen a b : Quiet a -> Quiet b -> Quiet (a ;; b).
Proof.
  intros Ha Hb st. unfold andThen.
  destruct (Ha st) as [Ha1 Ha2], (Hb (a st)) as [Hb1 Hb2].
  split; congruence.
Qed.

Lemma quiet_when c a : Quiet a -> Quiet (when c a).
Proof. intros Ha. destruct c; [exact Ha | split; reflexivity]. Qed.

Lemma quiet_wallX z x0 x1 n : Quiet (wallX z x0 x1 n).
Proof.
  intros st. split; [reflexivity|].
  cbn [wallX andThen sceneAdd pushCollider pushSeg scene].
  rewrite hungMetas_app. apply app_nil_r.
Qed.

Lemma quiet_wallZ x z0 z1 n : Quiet (wallZ x z0 z1 n).
Proof.
  intros st. split; [reflexivity|].
  cbn [wallZ andThen sceneAdd pushCollider pushSeg scene].
  rewrite hungMetas_app. apply app_nil_r.
Qed.

Lemma quiet_addWallX z x0 x1 n door : Quiet (addWallX z x0 x1 n door).
Proof.
  destruct door; simpl;
    auto using quiet_andThen, quiet_when, quiet_wallX.
Qed.

Lemma quiet_addWallZ x z0 z1 n door : Quiet (addWallZ x z0 z1 n door).
Proof.
  destruct door; simpl;
    auto using quiet_andThen, quiet_when, quiet_wallZ.
Qed.

Lemma quiet_ceiling r : Quiet (addCeilingForRect r).
Proof.
  intros st. split; [reflexivity|].
  cbn [addCeilingForRect sceneAdd scene].
  rewrite hungMetas_app. apply app_nil_r.
Qed.

Lemma quiet_buildRooms : Quiet buildRooms.
Proof.
  unfold buildRooms, buildWest, buildEast, buildNorth, buildAtrium.
  repeat match goal with
         | |- Quiet (_ ;; _) => apply quiet_andThen
         | |- Quiet (addWallX _ _ _ _ _) => apply quiet_addWallX
         | |- Quiet (addWallZ _ _ _ _ _) => apply quiet_addWallZ
         | |- Quiet (addCeilingForRect _) => apply quiet_ceiling
         end.
  - intros st. split; [reflexivity|].
    cbn [addFloor sceneAdd scene]. rewrite hungMetas_app. apply app_nil_r.
  - intros st. split; [reflexivity|].
    cbn [addLights sceneAdd scene]. rewrite hungMetas_app. apply app_nil_r.
Qed.

End PlacementFacts.

(* ===================================================================== *)
(** ** The gallery as a whole *)
(* ===================================================================== *)

Module GalleryFacts.
Import Gallery Spec Aux NumFacts LayoutFacts PlacementFacts.

(** The run is the rooms, then the hanging. *)
Lemma run_unfold sc opts :
  run sc opts = hangAll opts (buildRooms (mkBuild sc [] [] 0%nat)).
Proof. reflexivity. Qed.

Lemma run_walls sc opts :
  segs (run sc opts) = segs (buildRooms (mkBuild sc [] [] 0%nat)) /\
  colliders (run sc opts) = colliders (buildRooms (mkBuild sc [] [] 0%nat)).
Proof. rewrite run_unfold. apply hangAll_walls. Qed.

Lemma run_instep sc opts : InStep (run sc opts).
Proof.
  destruct (run_walls sc opts) as [Hs Hc].
  unfold InStep. rewrite Hs, Hc.
  apply buildRooms_instep. split; constructor.
Qed.

(** The walls do not depend on the scene the run starts from. *)
Lemma buildRooms_walls_scene sc :
  segs (buildRooms (mkBuild sc [] [] 0%nat))
  = segs (buildRooms (mkBuild [] [] [] 0%nat)) /\
  colliders (buildRooms (mkBuild sc [] [] 0%nat))
  = colliders (buildRooms (mkBuild [] [] [] 0%nat)).
Proof. split; vm_compute; reflexivity. Qed.

(** The records hung by a run are the first [idx] records. *)
Lemma run_in_order sc opts :
  hungMetas (scene (run sc opts))
  = hungMetas sc ++ firstn (idx (run sc opts)) (artworks opts) /\
  (idx (run sc opts) <= length (artworks opts))%nat.
Proof.
  rewrite run_unfold.
  apply (hangAll_in_order opts (hungMetas sc)).
  destruct (quiet_buildRooms (mkBuild sc [] [] 0%nat)) as [Hi Hm].
  split; rewrite ?Hi, ?Hm; simpl; [now rewrite app_nil_r | lia].
Qed.

(** C10.  Segments and colliders in lockstep.  One wall (the part of
    [addWallX] and [addWallZ] that emits) appends exactly one segment to
    [segs] and exactly one collider to [colliders]; the collider spans
    exactly the segment's span along the wall, is exactly [WALL_T] thick
    and lies on the side of the outward normal of the wall line, and is
    non-degenerate when the wall has [lo < hi].  A wall call keeps the two
    arrays in step, and at the end of every run of [buildGallery] the
    arrays have equal length, correspond index by index, and every
    collider (the returned ones) has min < max on both axes. *)
Theorem segments_and_colliders_in_step :
  (forall w lo hi n st, exists s r,
      segs (wallX w lo hi n st) = segs st ++ [s] /\
      colliders (wallX w lo hi n st) = colliders st ++ [r] /\
      Lockstep s r /\ (lo < hi -> nondegenerate r)) /\
  (forall w lo hi n st, exists s r,
      segs (wallZ w lo hi n st) = segs st ++ [s] /\
      colliders (wallZ w lo hi n st) = colliders st ++ [r] /\
      Lockstep s r /\ (lo < hi -> nondegenerate r)) /\
  (forall w lo hi n door st,
      (door = None -> lo < hi) -> InStep st ->
      InStep (addWallX w lo hi n door st) /\
      InStep (addWallZ w lo hi n door st)) /\
  (forall sc opts,
      let st := run sc opts in
      length (segs st) = length (colliders st) /\
      Forall2 Lockstep (segs st) (colliders st) /\
      Forall nondegenerate (colliders st) /\
      resColliders (snd (buildGallery sc opts)) = colliders st).
Proof.
  split; [|split; [|split]].
  - intros w lo hi n st. do 2 eexists.
    split; [apply wallX_segs|]. split; [apply wallX_colliders|].
    split; [apply wallX_lockstep|].
    intros Hlt. destruct n; unfold nondegenerate; cbn; split; qlin.
  - intros w lo hi n st. do 2 eexists.
    split; [apply wallZ_segs|]. split; [apply wallZ_colliders|].
    split; [apply wallZ_lockstep|].
    intros Hlt. destruct n; unfold nondegenerate; cbn; split; qlin.
  - intros w lo hi n door st Hlt Hst.
    split; [now apply addWallX_instep | now apply addWallZ_instep].
  - intros sc opts st. destruct (run_instep sc opts) as [H2 Hn].
    split; [|split; [|split]]; try assumption.
    + eapply Forall2_length, H2.
    + reflexivity.
Qed.

(** C2.  Placement consumption order.  Whatever the wall segments, the
    scene and the ordered artwork list, after the placement run the
    records hung by the run are exactly the first [idx] input records in
    input order, and [idx] is at most the number of records; so the i-th
    placed frame uses the i-th record and none is reordered, reused or
    skipped.  The same holds of a whole run of [buildGallery].  A slot
    rejected by corner-avoidance leaves the state, cursor included, as it
    is.  Once the cursor has reached the end of the list, no segment and
    no remaining list of segments changes anything. *)
Theorem placement_consumption_order (opts : BuildOpts) :
  (forall sc cols sgs,
      let st := hangAll opts (mkBuild sc cols sgs 0%nat) in
      hungMetas (scene st) = hungMetas sc ++ firstn (idx st) (artworks opts) /\
      (idx st <= length (artworks opts))%nat) /\
  (forall sc,
      let st := run sc opts in
      hungMetas (scene st) = hungMetas sc ++ firstn (idx st) (artworks opts) /\
      (idx st <= length (artworks opts))%nat) /\
  (forall w lo hi n count i st,
      (hitWallX (segs st) (slotPos lo hi count i)
         (w + (if gtb (sgn n) 0 then WALL_GAP else - WALL_GAP)) = true ->
       slotX opts w lo hi n count i st = st) /\
      (hitWallZ (segs st)
         (w + (if gtb (sgn n) 0 then WALL_GAP else - WALL_GAP))
         (slotPos lo hi count i) = true ->
       slotZ opts w lo hi n count i st = st)) /\
  (forall st, (length (artworks opts) <= idx st)%nat ->
      (forall seg, hangOnSeg opts seg st = st) /\
      (forall rest, forSegs opts rest st = st)).
Proof.
  split; [|split; [|split]].
  - intros sc cols sgs st.
    apply (hangAll_in_order opts (hungMetas sc)).
    split; simpl; [now rewrite app_nil_r | lia].
  - intros sc st. apply run_in_order.
  - intros w lo hi n count i st.
    split; [apply slotX_rejected | apply slotZ_rejected].
  - intros st Hle.
    split; intros; [now apply hangOnSeg_exhausted | now apply forSegs_exhausted].
Qed.

(** What a run computes for the layout does not depend on what it is
    given: whatever the scene, the artwork list and [imagesBase], the
    segment list at the end of the run and the collider list, bounds and
    spawn point returned are the same. *)
Lemma layout_independent_of_inputs (sc1 sc2 : list SceneObj)
    (o1 o2 : BuildOpts) :
  segs (run sc1 o1) = segs (run sc2 o2) /\
  resColliders (snd (buildGallery sc1 o1))
  = resColliders (snd (buildGallery sc2 o2)) /\
  resBounds (snd (buildGallery sc1 o1)) = resBounds (snd (buildGallery sc2 o2)) /\
  resSpawn (snd (buildGallery sc1 o1)) = resSpawn (snd (buildGallery sc2 o2)).
Proof.
  destruct (run_walls sc1 o1) as [Hs1 Hc1], (run_walls sc2 o2) as [Hs2 Hc2].
  destruct (buildRooms_walls_scene sc1) as [Hs1' Hc1'].
  destruct (buildRooms_walls_scene sc2) as [Hs2' Hc2'].
  cbn [buildGallery snd resColliders resBounds resSpawn].
  repeat split; congruence.
Qed.

(** C6, as stated, fails.  The run with 91 records and the run with 92
    records fill the same 90 slots, add the same objects to the scene and
    return the same object, while 1 and 2 records are left over: nothing
    the run produces gives the number of unplaced records. *)
Lemma surplus_count_not_surfaced : ~ SurfacesSurplus.
Proof.
  intros [report Hrep].
  pose proof (Hrep [] (sampleOpts 91)) as H1.
  pose proof (Hrep [] (sampleOpts 92)) as H2.
  assert (E : buildGallery [] (sampleOpts 91) = buildGallery [] (sampleOpts 92))
    by (vm_compute; reflexivity).
  assert (U1 : unplaced [] (sampleOpts 91) = 1%nat) by (vm_compute; reflexivity).
  assert (U2 : unplaced [] (sampleOpts 92) = 2%nat) by (vm_compute; reflexivity).
  rewrite U1 in H1. rewrite U2 in H2. rewrite E in H1.
  specialize (H1 ltac:(lia)). specialize (H2 ltac:(lia)). congruence.
Qed.

(** C6, amended.  Surplus records are left unplaced and no count of them
    is produced: the records hung are the first [idx] ones, the number
    left over is the number of input records minus the number of frames
    the run added to the scene, and the object the run returns is the
    same for every artwork list. *)
Theorem surplus_left_unplaced (sc : list SceneObj) (opts other : BuildOpts) :
  let st := run sc opts in
  hungMetas (scene st) = hungMetas sc ++ firstn (idx st) (artworks opts) /\
  unplaced sc opts = length (skipn (idx st) (artworks opts)) /\
  unplaced sc opts
  = (length (artworks opts)
     - (length (hungMetas (fst (buildGallery sc opts))) - length (hungMetas sc)))%nat /\
  snd (buildGallery sc opts) = snd (buildGallery sc other).
Proof.
  intros st.
  destruct (run_in_order sc opts) as [Hm Hle]. fold st in Hm, Hle.
  split; [exact Hm|]. split; [|split].
  - unfold unplaced. fold st. now rewrite length_skipn.
  - unfold unplaced. cbn [buildGallery fst]. fold st.
    rewrite Hm, length_app, firstn_length_le by exact Hle. lia.
  - cbn [buildGallery snd]. f_equal.
    destruct (run_walls sc opts) as [_ Hc], (run_walls sc other) as [_ Hc'].
    congruence.
Qed.

End GalleryFacts.

(* ===================================================================== *)
(** ** Slots on one segment *)
(* ===================================================================== *)

Module SlotFacts.
Import Gallery Spec Aux NumFacts PlacementFacts.

Lemma standoff_eq plane n :
  plane + (if gtb (sgn n) 0 then WALL_GAP else - WALL_GAP) = standoff plane n.
Proof. destruct n; reflexivity. Qed.

(** The corner check of the source decides the rule of the
    specification. *)
Lemma hitWallX_iff all x z :
  hitWallX all x z = true <-> NearPerpendicularX all x z.
Proof.
  unfold hitWallX, NearPerpendicularX. rewrite existsb_exists. split.
  - intros [[oz ox0 ox1 on | ox oz0 oz1 on] [Hin Hhit]]; [discriminate|].
    cbn zeta in Hhit.
    apply andb_true_iff in Hhit. destruct Hhit as [Hnear Hins].
    apply andb_true_iff in Hins. destruct Hins as [Hlo Hhi].
    apply ltb_iff in Hnear. apply geb_iff in Hlo. apply leb_iff in Hhi.
    exists ox, oz0, oz1, on. auto.
  - intros (ox & oz0 & oz1 & on & Hin & Hnear & Hlo & Hhi).
    exists (SegZ ox oz0 oz1 on). split; [exact Hin|].
    cbn zeta. rewrite !andb_true_iff.
    split; [now apply ltb_iff | split; [now apply geb_iff | now apply leb_iff]].
Qed.

Lemma hitWallZ_iff all x z :
  hitWallZ all x z = true <-> NearPerpendicularZ all x z.
Proof.
  unfold hitWallZ, NearPerpendicularZ. rewrite existsb_exists. split.
  - intros [[oz ox0 ox1 on | ox oz0 oz1 on] [Hin Hhit]]; [|discriminate].
    cbn zeta in Hhit.
    apply andb_true_iff in Hhit. destruct Hhit as [Hnear Hins].
    apply andb_true_iff in Hins. destruct Hins as [Hlo Hhi].
    apply ltb_iff in Hnear. apply geb_iff in Hlo. apply leb_iff in Hhi.
    exists oz, ox0, ox1, on. auto.
  - intros (oz & ox0 & ox1 & on & Hin & Hnear & Hlo & Hhi).
    exists (SegX oz ox0 ox1 on). split; [exact Hin|].
    cbn zeta. rewrite !andb_true_iff.
    split; [now apply ltb_iff | split; [now apply geb_iff | now apply leb_iff]].
Qed.

Section Slots.

Variable opts : BuildOpts.

(** With a record left, hanging uses it and adds its frame. *)
Lemma hang_some pos rot st :
  (idx st < length (artworks opts))%nat ->
  exists meta,
    nth_error (artworks opts) (idx st) = Some meta /\
    hang opts pos rot st
    = mkBuild
        (scene st ++
           [FrameObj meta (imagesBase opts ++ "/" ++ file meta)%string
              FRAME_W pos rot])
        (colliders st) (segs st) (S (idx st)).
Proof.
  intros Hlt. unfold hang, frames.
  destruct (nth_error (artworks opts) (idx st)) as [meta|] eqn:E.
  - exists meta. split; reflexivity.
  - apply nth_error_None in E. lia.
Qed.

Lemma hang_changes pos rot st :
  (idx st < length (artworks opts))%nat -> hang opts pos rot st <> st.
Proof.
  intros Hlt Heq. destruct (hang_some pos rot st Hlt) as (meta & _ & Hh).
  rewrite Hh in Heq. apply (f_equal idx) in Heq. simpl in Heq. lia.
Qed.

End Slots.

(** *** The loop over the slots of one segment *)

Section SlotLoop.

Variable opts : BuildOpts.

Lemma slotBody_segs rejects posOf rot i st :
  segs (slotBody opts rejects posOf rot i st) = segs st.
Proof.
  unfold slotBody. destruct (rejects _ _); [reflexivity|].
  apply hang_walls.
Qed.

End SlotLoop.

Lemma slotCount_pos lo hi : 0 < usableLen lo hi -> (1 <= slotCount lo hi)%Z.
Proof.
  intros Hpos. unfold slotCount.
  assert (H0 : 0 <= usableLen lo hi / SPACING).
  { apply Qle_shift_div_l; [reflexivity | lra]. }
  apply Qfloor_resp_le in H0. change (Qfloor 0) with 0%Z in H0. lia.
Qed.

Lemma slotPos_spec lo hi count i :
  slotPos lo hi count i == specSlot lo hi count i.
Proof.
  unfold slotPos, specSlot, slotT.
  destruct (count =? 1)%Z; [qlin | reflexivity].
Qed.

End SlotFacts.

(* ===================================================================== *)
(** ** Slots in the arithmetic of doubles *)
(* ===================================================================== *)

Module RoundedFacts.
Import Gallery Spec NumFacts.

(** With no rounding, the definitions of module [Rounded] are those of
    module [Gallery]. *)
Lemma exact_hangOnSegX opts z x0 x1 n st :
  Rounded.hangOnSegX Rounded.exact opts z x0 x1 n st
  = hangOnSegX opts z x0 x1 n st.
Proof. reflexivity. Qed.

Lemma exact_hangOnSegZ opts x z0 z1 n st :
  Rounded.hangOnSegZ Rounded.exact opts x z0 z1 n st
  = hangOnSegZ opts x z0 z1 n st.
Proof. reflexivity. Qed.

(** *** Rounding to a double *)

Lemma roundEven_nonneg y : 0 <= y -> (0 <= Rounded.roundEven y)%Z.
Proof.
  intros Hy. apply Qfloor_resp_le in Hy. change (Qfloor 0) with 0%Z in Hy.
  unfold Rounded.roundEven.
  destruct (ltb _ _); [exact Hy|].
  destruct (ltb _ _); [lia|].
  destruct (Z.even _); lia.
Qed.

(** Rounding keeps the sign. *)
Lemma binary64_nonneg x : 0 <= x -> 0 <= Rounded.binary64 x.
Proof.
  intros Hx. unfold Rounded.binary64.
  apply leb_iff in Hx as Hb. rewrite Hb. rewrite Qred_correct.
  apply Qmult_le_0_compat.
  - change 0 with (inject_Z 0). rewrite <- Zle_Qle.
    apply roundEven_nonneg. apply Qmult_le_0_compat.
    + apply Qabs_nonneg.
    + apply Qpower_0_le. discriminate.
  - apply Qpower_0_le. discriminate.
Qed.

Section Generic.

Variable rnd : Q -> Q.
Variable opts : BuildOpts.

Local Abbreviation hang := (Rounded.hang rnd opts).
Local Abbreviation hangEach := (Rounded.hangEach rnd opts).
Local Abbreviation frameFor := (Rounded.frameFor rnd opts).

Lemma rounded_standoff plane n :
  Rounded.radd rnd plane
    (if gtb (sgn n) 0 then Rounded.WALL_GAP rnd else - Rounded.WALL_GAP rnd)
  = Rounded.standoff rnd plane n.
Proof. destruct n; reflexivity. Qed.

(** The corner check decides the rule of the specification. *)
Lemma rounded_hitWallX_iff all x z :
  Rounded.hitWallX rnd all x z = true
  <-> Rounded.NearPerpendicularX rnd all x z.
Proof.
  unfold Rounded.hitWallX, Rounded.NearPerpendicularX.
  rewrite existsb_exists. split.
  - intros [[oz ox0 ox1 on | ox oz0 oz1 on] [Hin Hhit]]; [discriminate|].
    cbn zeta in Hhit.
    apply andb_true_iff in Hhit. destruct Hhit as [Hnear Hins].
    apply andb_true_iff in Hins. destruct Hins as [Hlo Hhi].
    apply ltb_iff in Hnear. apply geb_iff in Hlo. apply leb_iff in Hhi.
    exists ox, oz0, oz1, on. auto.
  - intros (ox & oz0 & oz1 & on & Hin & Hnear & Hlo & Hhi).
    exists (SegZ ox oz0 oz1 on). split; [exact Hin|].
    cbn zeta. rewrite !andb_true_iff.
    split; [now apply ltb_iff | split; [now apply geb_iff | now apply leb_iff]].
Qed.

Lemma rounded_hitWallZ_iff all x z :
  Rounded.hitWallZ rnd all x z = true
  <-> Rounded.NearPerpendicularZ rnd all x z.
Proof.
  unfold Rounded.hitWallZ, Rounded.NearPerpendicularZ.
  rewrite existsb_exists. split.
  - intros [[oz ox0 ox1 on | ox oz0 oz1 on] [Hin Hhit]]; [|discriminate].
    cbn zeta in Hhit.
    apply andb_true_iff in Hhit. destruct Hhit as [Hnear Hins].
    apply andb_true_iff in Hins. destruct Hins as [Hlo Hhi].
    apply ltb_iff in Hnear. apply geb_iff in Hlo. apply leb_iff in Hhi.
    exists oz, ox0, ox1, on. auto.
  - intros (oz & ox0 & ox1 & on & Hin & Hnear & Hlo & Hhi).
    exists (SegX oz ox0 ox1 on). split; [exact Hin|].
    cbn zeta. rewrite !andb_true_iff.
    split; [now apply ltb_iff | split; [now apply geb_iff | now apply leb_iff]].
Qed.

(** *** Hanging *)

Lemma rounded_hang_some pos rot st :
  (idx st < length (artworks opts))%nat ->
  exists meta,
    nth_error (artworks opts) (idx st) = Some meta /\
    hang pos rot st
    = mkBuild (scene st ++ [frameFor meta (pos, rot)])
        (colliders st) (segs st) (S (idx st)).
Proof.
  intros Hlt. unfold Rounded.hang, frames.
  destruct (nth_error (artworks opts) (idx st)) as [meta|] eqn:E.
  - exists meta. split; reflexivity.
  - apply nth_error_None in E. lia.
Qed.

Lemma rounded_hang_changes pos rot st :
  (idx st < length (artworks opts))%nat -> hang pos rot st <> st.
Proof.
  intros Hlt Heq. destruct (rounded_hang_some pos rot st Hlt) as (meta & _ & Hh).
  rewrite Hh in Heq. apply (f_equal idx) in Heq. simpl in Heq. lia.
Qed.

Lemma rounded_hang_exhausted pos rot st :
  (length (artworks opts) <= idx st)%nat -> hang pos rot st = st.
Proof.
  intros Hle. unfold Rounded.hang, frames.
  apply nth_error_None in Hle. now rewrite Hle.
Qed.

Lemma rounded_hang_segs pos rot st : segs (hang pos rot st) = segs st.
Proof.
  unfold Rounded.hang. destruct (nth_error _ _); reflexivity.
Qed.

Lemma rounded_hangEach_exhausted slots st :
  (length (artworks opts) <= idx st)%nat -> hangEach slots st = st.
Proof.
  intros Hle. unfold Rounded.hangEach.
  induction slots as [|slot slots IH]; simpl; [reflexivity|].
  now rewrite rounded_hang_exhausted.
Qed.

Lemma rounded_hangEach_app l1 l2 st :
  hangEach (l1 ++ l2) st = hangEach l2 (hangEach l1 st).
Proof. unfold Rounded.hangEach. apply fold_left_app. Qed.

Lemma rounded_hangEach_segs slots st : segs (hangEach slots st) = segs st.
Proof.
  unfold Rounded.hangEach. revert st.
  induction slots as [|slot slots IH]; intros st; simpl; [reflexivity|].
  rewrite IH. apply rounded_hang_segs.
Qed.

(** The loop over the slots of a segment hangs at the slots that pass
    the check, turn after turn; leaving the loop when the records are
    used up changes nothing, since hanging would not either. *)
Lemma rounded_forSlots (rejects : list WallSeg -> nat -> bool)
    (slotOf : nat -> Vec3 * Q) :
  forall r i st,
    forSlots opts r i
      (fun j s => if rejects (segs s) j then s
                  else hang (fst (slotOf j)) (snd (slotOf j)) s) st
    = hangEach
        (flat_map (fun j => if rejects (segs st) j then [] else [slotOf j])
                  (seq i r)) st.
Proof.
  induction r as [|r IH]; intros i st; [reflexivity|].
  cbn [forSlots seq flat_map].
  destruct (idx st <? length (frames opts))%nat eqn:E.
  - rewrite IH, rounded_hangEach_app.
    destruct (rejects (segs st) i) eqn:R; [reflexivity|].
    rewrite rounded_hang_segs. reflexivity.
  - apply Nat.ltb_ge in E. now rewrite rounded_hangEach_exhausted.
Qed.

(** Hanging at a list of slots pairs the records left with the slots. *)
Lemma rounded_hangEach_scene slots :
  forall st,
    scene (hangEach slots st)
    = scene st ++
        map (fun ms => frameFor (fst ms) (snd ms))
            (combine (skipn (idx st) (artworks opts)) slots) /\
    idx (hangEach slots st)
    = (idx st + Nat.min (length slots) (length (artworks opts) - idx st))%nat.
Proof.
  unfold Rounded.hangEach.
  induction slots as [|slot slots IH]; intros st.
  - simpl. rewrite combine_nil, app_nil_r. split; [reflexivity | lia].
  - cbn [fold_left]. destruct (IH (hang (fst slot) (snd slot) st))
      as [Hs Hi].
    rewrite Hs, Hi. unfold Rounded.hang, frames.
    destruct (nth_error (artworks opts) (idx st)) as [meta|] eqn:E.
    + cbn [scene idx].
      assert (Hsk : skipn (idx st) (artworks opts)
                    = meta :: skipn (S (idx st)) (artworks opts)).
      { clear - E. revert E. generalize (idx st). generalize (artworks opts).
        induction l as [|a l IHl]; intros [|k] Hk; simpl in *;
          try discriminate.
        - now inversion Hk.
        - now apply IHl. }
      rewrite Hsk. cbn [combine map fst snd length].
      rewrite <- app_assoc. split; [destruct slot; reflexivity|].
      assert (idx st < length (artworks opts))%nat
        by (apply nth_error_Some; congruence).
      lia.
    + apply nth_error_None in E as Hle.
      rewrite (skipn_all2 _ Hle). cbn [combine map length].
      split; [reflexivity | lia].
Qed.

(** The general fact behind the slot geometry, for the two kinds of
    segment. *)
Lemma rounded_geometry (lo hi : Q) (slotOf : Q -> Vec3 * Q)
    (rejects : list WallSeg -> Q -> bool) (hangOn : Step) :
  (forall st,
      hangOn st =
      if leb (Rounded.usable rnd lo hi) 0 then st
      else forSlots opts (Z.to_nat (Rounded.slotCount rnd lo hi)) 0
             (fun j s =>
                let along :=
                  Rounded.slotPos rnd lo hi (Rounded.slotCount rnd lo hi) j in
                if rejects (segs s) along then s
                else hang (fst (slotOf along)) (snd (slotOf along)) s) st) ->
  Rounded.SlotGeometry rnd opts lo hi slotOf rejects hangOn.
Proof.
  intros Hdef st count slots. rewrite Hdef. split; [|split].
  - intros Hle. apply leb_iff in Hle. now rewrite Hle.
  - intros Hpos. apply leb_false_iff in Hpos as Hb. rewrite Hb.
    rewrite (rounded_forSlots
               (fun all j => rejects all
                  (Rounded.slotPos rnd lo hi (Rounded.slotCount rnd lo hi) j))
               (fun j => slotOf
                  (Rounded.slotPos rnd lo hi (Rounded.slotCount rnd lo hi) j))).
    fold (Rounded.accepted rnd (segs st) lo hi slotOf rejects). fold slots.
    destruct (rounded_hangEach_scene slots st) as [Hs Hi].
    split; [exact Hs|]. split; [exact Hi|]. apply rounded_hangEach_segs.
  - intros i. unfold Rounded.slotPos, Rounded.specSlot, Rounded.slotT.
    destruct (count =? 1)%Z; reflexivity.
Qed.

(** With a rounding that keeps the sign, a segment with usable length
    has at least one slot. *)
Lemma rounded_count_pos lo hi :
  (forall x, 0 <= x -> 0 <= rnd x) ->
  0 < Rounded.usable rnd lo hi -> (1 <= Rounded.slotCount rnd lo hi)%Z.
Proof.
  intros Hsign Hpos. unfold Rounded.slotCount, Rounded.rdiv.
  assert (H0 : 0 <= rnd (Rounded.usable rnd lo hi / Rounded.SPACING rnd)).
  { apply Hsign. unfold Qdiv. apply Qmult_le_0_compat; [lra|].
    apply Qinv_le_0_compat. apply Hsign. discriminate. }
  apply Qfloor_resp_le in H0. change (Qfloor 0) with 0%Z in H0. lia.
Qed.

(** With no rounding, the usable length, the slot count and the slots
    are the exact ones. *)
Lemma exact_proper :
  (forall x, rnd x == x) -> Proper (Qeq ==> Qeq) rnd.
Proof. intros Hr a b Hab. now rewrite (Hr a), (Hr b). Qed.

Lemma exact_reading lo hi :
  (forall x, rnd x == x) ->
  Rounded.usable rnd lo hi == Spec.usableLen lo hi /\
  Rounded.slotCount rnd lo hi = Spec.slotCount lo hi /\
  forall count i,
    Rounded.slotPos rnd lo hi count i == Spec.specSlot lo hi count i.
Proof.
  intros Hr. pose proof (exact_proper Hr) as Hp.
  assert (Hu : Rounded.usable rnd lo hi == Spec.usableLen lo hi).
  { unfold Rounded.usable, Rounded.rsub, Rounded.rmul, Rounded.radd,
      Rounded.CAP_MARGIN, Rounded.HALF_W, Rounded.FRAME_W, Rounded.rmul,
      Rounded.lit, Spec.usableLen, CAP_MARGIN, HALF_W, FRAME_W.
    repeat rewrite Hr. reflexivity. }
  split; [exact Hu|]. split.
  - unfold Rounded.slotCount, Spec.slotCount, Rounded.rdiv, Rounded.SPACING,
      Rounded.lit, SPACING.
    f_equal. apply Qfloor_comp. rewrite Hr, Hr, Hu. reflexivity.
  - intros count i. rewrite <- SlotFacts.slotPos_spec.
    unfold Rounded.slotPos, Rounded.slotT, Rounded.rsub, Rounded.rmul,
      Rounded.radd, Rounded.rdiv, Rounded.CAP_MARGIN, Rounded.HALF_W,
      Rounded.FRAME_W, Rounded.rmul, Rounded.lit,
      slotPos, slotT, CAP_MARGIN, HALF_W, FRAME_W.
    destruct (count =? 1)%Z; repeat rewrite Hr; reflexivity.
Qed.

Lemma exact_near_X all x z :
  (forall x, rnd x == x) ->
  Rounded.NearPerpendicularX rnd all x z <-> Spec.NearPerpendicularX all x z.
Proof.
  intros Hr. pose proof (exact_proper Hr) as Hp.
  unfold Rounded.NearPerpendicularX, Spec.NearPerpendicularX,
    Rounded.rsub, Rounded.radd, Rounded.HALF_W, Rounded.FRAME_W,
    Rounded.rmul, Rounded.lit, HALF_W, FRAME_W.
  split; intros (ox & oz0 & oz1 & on & Hin & Hnear & Hins);
    exists ox, oz0, oz1, on; (split; [exact Hin|]);
    repeat rewrite Hr in *; auto.
Qed.

Lemma exact_near_Z all x z :
  (forall x, rnd x == x) ->
  Rounded.NearPerpendicularZ rnd all x z <-> Spec.NearPerpendicularZ all x z.
Proof.
  intros Hr. pose proof (exact_proper Hr) as Hp.
  unfold Rounded.NearPerpendicularZ, Spec.NearPerpendicularZ,
    Rounded.rsub, Rounded.radd, Rounded.HALF_W, Rounded.FRAME_W,
    Rounded.rmul, Rounded.lit, HALF_W, FRAME_W.
  split; intros (oz & ox0 & ox1 & on & Hin & Hnear & Hins);
    exists oz, ox0, ox1, on; (split; [exact Hin|]);
    repeat rewrite Hr in *; auto.
Qed.

End Generic.

(** *** Where rounding decides *)

(** A segment of 7 m: the usable length is 3.6 exactly, and one slot
    short of it in doubles ([0.8 + 0.9] is 1.7000000000000002), so the
    code has one slot where exact arithmetic has two. *)
Example seven_metres :
  Rounded.slotCount Rounded.binary64 0 7 = 1%Z /\
  Rounded.slotPos Rounded.binary64 0 7 1 0 == 3.5 /\
  Rounded.slotCount Rounded.exact 0 7 = 2%Z.
Proof. vm_compute. repeat split; reflexivity. Qed.

(** The single slot of the segment [0, 3.5], and a perpendicular wall in
    the plane x = 2.7, at 0.95 from it: in doubles [HALF_W + 0.05] is
    0.9500000000000001 and the slot is rejected; in exact arithmetic it
    is not. *)
Example corner_at_the_limit :
  Rounded.hitWallX Rounded.binary64 (segs Rounded.cornerState)
    (Rounded.slotPos Rounded.binary64 0 3.5 1 0)
    (Rounded.standoff Rounded.binary64 0 Plus1) = true /\
  Rounded.hitWallX Rounded.exact (segs Rounded.cornerState)
    (Rounded.slotPos Rounded.exact 0 3.5 1 0)
    (Rounded.standoff Rounded.exact 0 Plus1) = false.
Proof. vm_compute. split; reflexivity. Qed.

(** C7.  Slot geometry, in the arithmetic of the code ([rnd] is the
    rounding of each operation; any rounding, that of doubles among
    them).  For every wall segment [lo, hi], along X or along Z: the
    usable length is the segment length minus
    2 x (edge margin + half frame width); if it is at most 0 the segment
    gets no frame; otherwise the loop has
    [count = floor(usable / SPACING) + 1] turns and turn [i] is for slot
    [i]: the frames added are, in order, the records left at the slots
    [0 .. count-1] that pass the corner check, in order.  A single slot
    sits half way between [start] and [end], and with more, slot [i] sits
    at [start + (i / (count-1)) x (end - start)], where
    [start = lo + margin + halfWidth] and [end = hi - margin - halfWidth].
    With a rounding that keeps the sign of a number, [count] is at least
    1; with no rounding, usable length and count are the exact ones and a
    single slot is at the midpoint [(lo + hi) / 2] of the segment. *)
Theorem slot_geometry (rnd : Q -> Q) (opts : BuildOpts) (w lo hi : Q)
    (n : Normal) :
  Rounded.SlotGeometry rnd opts lo hi
    (fun along =>
       (mkVec3 along (Rounded.lit rnd 1.6) (Rounded.standoff rnd w n),
        if gtb (sgn n) 0 then 0 else Math_PI))
    (fun all along =>
       Rounded.hitWallX rnd all along (Rounded.standoff rnd w n))
    (Rounded.hangOnSegX rnd opts w lo hi n) /\
  Rounded.SlotGeometry rnd opts lo hi
    (fun along =>
       (mkVec3 (Rounded.standoff rnd w n) (Rounded.lit rnd 1.6) along,
        if gtb (sgn n) 0 then Rounded.rdiv rnd Math_PI 2
        else Rounded.rdiv rnd (- Math_PI) 2))
    (fun all along =>
       Rounded.hitWallZ rnd all (Rounded.standoff rnd w n) along)
    (Rounded.hangOnSegZ rnd opts w lo hi n) /\
  ((forall x, 0 <= x -> 0 <= rnd x) ->
   0 < Rounded.usable rnd lo hi -> (1 <= Rounded.slotCount rnd lo hi)%Z) /\
  ((forall x, rnd x == x) ->
   Rounded.usable rnd lo hi == Spec.usableLen lo hi /\
   Rounded.slotCount rnd lo hi = Spec.slotCount lo hi /\
   forall count i,
     Rounded.slotPos rnd lo hi count i == Spec.specSlot lo hi count i).
Proof.
  split; [|split; [|split]].
  - apply rounded_geometry. intros st. rewrite <- rounded_standoff.
    reflexivity.
  - apply rounded_geometry. intros st. rewrite <- rounded_standoff.
    reflexivity.
  - apply rounded_count_pos.
  - apply exact_reading.
Qed.

(** C3.  Corner-avoidance, in the arithmetic of the code ([rnd] is the
    rounding of each operation).  For a candidate slot on a segment,
    reached with a record left: the slot is rejected (the turn of the loop
    leaves the state as it is) if and only if some perpendicular segment
    has its plane strictly within [HALF_W + 0.05] of the candidate's
    coordinate along that axis and its span, extended by 0.05 at each end,
    holds the candidate's other coordinate; otherwise a frame for the next
    record is hung at the candidate position.  For segments along X and
    along Z.  With no rounding the rule is the one over exact numbers. *)
Theorem corner_avoidance (rnd : Q -> Q) (opts : BuildOpts) (w lo hi : Q)
    (n : Normal) (count : Z) (i : nat) (st : Build) :
  (idx st < length (artworks opts))%nat ->
  let along := Rounded.slotPos rnd lo hi count i in
  let off := Rounded.standoff rnd w n in
  (Rounded.slotX rnd opts w lo hi n count i st = st
     <-> Rounded.NearPerpendicularX rnd (segs st) along off) /\
  (~ Rounded.NearPerpendicularX rnd (segs st) along off ->
     exists o,
       Spec.frameAt (mkVec3 along (Rounded.lit rnd 1.6) off) o /\
       scene (Rounded.slotX rnd opts w lo hi n count i st) = scene st ++ [o] /\
       idx (Rounded.slotX rnd opts w lo hi n count i st) = S (idx st)) /\
  (Rounded.slotZ rnd opts w lo hi n count i st = st
     <-> Rounded.NearPerpendicularZ rnd (segs st) off along) /\
  (~ Rounded.NearPerpendicularZ rnd (segs st) off along ->
     exists o,
       Spec.frameAt (mkVec3 off (Rounded.lit rnd 1.6) along) o /\
       scene (Rounded.slotZ rnd opts w lo hi n count i st) = scene st ++ [o] /\
       idx (Rounded.slotZ rnd opts w lo hi n count i st) = S (idx st)) /\
  ((forall x, rnd x == x) ->
   (Rounded.NearPerpendicularX rnd (segs st) along off
      <-> Spec.NearPerpendicularX (segs st) along off) /\
   (Rounded.NearPerpendicularZ rnd (segs st) off along
      <-> Spec.NearPerpendicularZ (segs st) off along)).
Proof.
  intros Hlt along off. subst along off.
  split; [|split; [|split; [|split]]].
  - rewrite <- rounded_hitWallX_iff, <- rounded_standoff.
    unfold Rounded.slotX.
    destruct (Rounded.hitWallX _ _ _ _); split; intros H; try reflexivity.
    + now apply rounded_hang_changes in H.
    + discriminate.
  - rewrite <- rounded_hitWallX_iff, <- rounded_standoff.
    unfold Rounded.slotX.
    destruct (Rounded.hitWallX _ _ _ _); intros H; [now destruct H|].
    match goal with
    | |- context [Rounded.hang rnd opts ?pos ?rot st] =>
        destruct (rounded_hang_some rnd opts pos rot st Hlt) as (meta & _ & ->)
    end.
    eexists. split; [|split; reflexivity]. do 4 eexists. reflexivity.
  - rewrite <- rounded_hitWallZ_iff, <- rounded_standoff.
    unfold Rounded.slotZ.
    destruct (Rounded.hitWallZ _ _ _ _); split; intros H; try reflexivity.
    + now apply rounded_hang_changes in H.
    + discriminate.
  - rewrite <- rounded_hitWallZ_iff, <- rounded_standoff.
    unfold Rounded.slotZ.
    destruct (Rounded.hitWallZ _ _ _ _); intros H; [now destruct H|].
    match goal with
    | |- context [Rounded.hang rnd opts ?pos ?rot st] =>
        destruct (rounded_hang_some rnd opts pos rot st Hlt) as (meta & _ & ->)
    end.
    eexists. split; [|split; reflexivity]. do 4 eexists. reflexivity.
  - intros Hr. split.
    + now apply exact_near_X.
    + now apply exact_near_Z.
Qed.

(** In doubles, the slot of the segment [0, 3.5] is rejected for the
    wall in the plane x = 2.7. *)
Lemma corner_avoidance_witness :
  Rounded.slotX Rounded.binary64 (sampleOpts 1) 0 0 3.5 Plus1 1 0
    Rounded.cornerState = Rounded.cornerState
  <-> Rounded.NearPerpendicularX Rounded.binary64 (segs Rounded.cornerState)
        (Rounded.slotPos Rounded.binary64 0 3.5 1 0)
        (Rounded.standoff Rounded.binary64 0 Plus1).
Proof.
  refine (proj1 (corner_avoidance Rounded.binary64 (sampleOpts 1) 0 0 3.5
                   Plus1 1 0 Rounded.cornerState _)).
  vm_compute. lia.
Defined.

End RoundedFacts.

(* ===================================================================== *)
(** ** The movement and collision solver *)
(* ===================================================================== *)

Module ControlsFacts.
Import Controls Spec NumFacts.

Lemma hit_iff r x z :
  hit r x z = true <-> inflatedContains r playerRadius x z.
Proof.
  unfold hit, inflatedContains.
  rewrite !andb_true_iff, !gtb_iff, !ltb_iff. tauto.
Qed.

(** [collides] holds exactly when some collider, inflated by the player
    radius, contains the point. *)
Lemma collides_iff cs x z : collides cs x z = true <-> blocked cs x z.
Proof.
  unfold blocked. induction cs as [|r cs IH]; simpl.
  - split; [discriminate | intros (r & [] & _)].
  - destruct (hit r x z) eqn:E.
    + split; [|reflexivity]. intros _. exists r.
      split; [now left | now apply hit_iff].
    + rewrite IH. split.
      * intros (r' & Hin & Hc). exists r'. split; [now right | exact Hc].
      * intros (r' & [<- | Hin] & Hc).
        -- apply hit_iff in Hc. congruence.
        -- exists r'. split; assumption.
Qed.

Lemma collides_false_iff cs x z : collides cs x z = false <-> ~ blocked cs x z.
Proof.
  rewrite <- collides_iff. destruct (collides cs x z); split; congruence.
Qed.

(** The two tests of [slide], one axis after the other. *)
Lemma slide_per_axis cs pos move :
  let x' := if collides cs (vx pos + vx move) (vz pos)
            then vx pos else vx pos + vx move in
  let z' := if collides cs x' (vz pos + vz move)
            then vz pos else vz pos + vz move in
  slide cs pos move = mkVec3 x' (vy pos) z'.
Proof.
  unfold slide.
  destruct (collides cs (vx pos + vx move) (vz pos)); simpl;
    destruct (collides cs _ (vz pos + vz move)); simpl;
    destruct pos; reflexivity.
Qed.

(** A move from outside a single collider to a point inside it. *)
Lemma slide_single r pos move :
  ~ inflatedContains r playerRadius (vx pos) (vz pos) ->
  inflatedContains r playerRadius (vx pos + vx move) (vz pos + vz move) ->
  (inflatedContains r playerRadius (vx pos + vx move) (vz pos) /\
   slide [r] pos move = mkVec3 (vx pos) (vy pos) (vz pos + vz move)) \/
  (~ inflatedContains r playerRadius (vx pos + vx move) (vz pos) /\
   slide [r] pos move = mkVec3 (vx pos + vx move) (vy pos) (vz pos)).
Proof.
  intros Hout Hin. rewrite slide_per_axis. cbn zeta.
  destruct (collides [r] (vx pos + vx move) (vz pos)) eqn:EX.
  - left. apply collides_iff in EX. destruct EX as (r' & [<- | []] & HX).
    split; [exact HX|].
    destruct (collides [r] (vx pos) (vz pos + vz move)) eqn:EZ; [|reflexivity].
    exfalso. apply collides_iff in EZ. destruct EZ as (r' & [<- | []] & HZ).
    apply Hout. unfold inflatedContains in *. tauto.
  - right. apply collides_false_iff in EX.
    assert (HX : ~ inflatedContains r playerRadius (vx pos + vx move) (vz pos)).
    { intros HX. apply EX. exists r. split; [now left | exact HX]. }
    split; [exact HX|].
    destruct (collides [r] (vx pos + vx move) (vz pos + vz move)) eqn:EZ;
      [reflexivity|].
    exfalso. apply collides_false_iff in EZ. apply EZ.
    exists r. split; [now left | exact Hin].
Qed.

Lemma clampBounds_within b v :
  wellFormed b -> within b (clampBounds (Some b) v).
Proof.
  intros (Hx & Hy & Hz). unfold within; simpl.
  repeat split; now apply clamp_within.
Qed.

Lemma lim_pos : 0 <= lim.
Proof. unfold lim, Math_PI. unfold Qle; simpl. lia. Qed.

Section Solver.

Variables Math_sin Math_cos : Q -> Q.
Variable normalize : Vec3 -> Vec3.

Local Abbreviation update := (update Math_sin Math_cos normalize).
Local Abbreviation moveOf := (moveOf Math_sin Math_cos normalize).
Local Abbreviation handle := (handle Math_sin Math_cos normalize).
Local Abbreviation runEvents := (runEvents Math_sin Math_cos normalize).

Lemma update_locked dt st :
  isLocked st = true ->
  position (camera (update dt st))
  = clampBounds (bounds st)
      (slide (colliders st) (position (camera st)) (moveOf st dt)).
Proof. intros Hl. unfold Controls.update. now rewrite Hl. Qed.

Lemma update_unlocked dt st : isLocked st = false -> update dt st = st.
Proof. intros Hl. unfold Controls.update. now rewrite Hl. Qed.

Lemma mousemove_pitch dx dy st :
  pitchInRange (pitch st) -> pitchInRange (pitch (mousemove dx dy st)).
Proof.
  intros Hp. unfold mousemove. destruct (isLocked st); simpl; [|exact Hp].
  apply clamp_sym_within, lim_pos.
Qed.

Lemma handle_pitch st e :
  pitchInRange (pitch st) -> pitchInRange (pitch (handle st e)).
Proof.
  intros Hp. destruct e; simpl; try exact Hp.
  - now apply mousemove_pitch.
  - unfold Controls.update. destruct (isLocked st); exact Hp.
Qed.

Lemma runEvents_pitch es st :
  pitchInRange (pitch st) -> pitchInRange (pitch (runEvents st es)).
Proof.
  revert st. induction es as [|e es IH]; intros st Hp; simpl; [exact Hp|].
  apply IH, handle_pitch, Hp.
Qed.

End Solver.

(** C4, as stated, fails.  The keys w and a are held next to the
    collider [5,6] x [5,6] and the pointer is not locked: the displacement
    of the frame is (0.15, 0, 0.15), the X candidate is free, and the
    update returns at once, so that nothing is committed on either
    axis. *)
Lemma unlocked_update_does_not_slide :
  let st := pointerlockchange false sampleCtl in
  let p := position (camera st) in
  let m := moveOf sampleSin sampleCos sampleNormalize st 0.05 in
  let p' := position (camera (update sampleSin sampleCos sampleNormalize
                                0.05 st)) in
  vx m == 0.15 /\ vz m == 0.15 /\
  ~ blocked (colliders st) (vx p + vx m) (vz p) /\
  p' = p /\
  ~ SlidesPerAxis (colliders st) (bounds st) p m p'.
Proof.
  cbn zeta.
  assert (Hfree : ~ blocked (colliders (pointerlockchange false sampleCtl))
                      (vx (position (camera (pointerlockchange false sampleCtl)))
                       + vx (moveOf sampleSin sampleCos sampleNormalize
                               (pointerlockchange false sampleCtl) 0.05))
                      (vz (position (camera (pointerlockchange false sampleCtl))))).
  { apply collides_false_iff. vm_compute. reflexivity. }
  split; [vm_compute; reflexivity|]. split; [vm_compute; reflexivity|].
  split; [exact Hfree|]. split; [reflexivity|].
  intros (x' & z' & Hp & [[_ Hx] | [Hb _]] & _).
  - change (position (camera (update sampleSin sampleCos sampleNormalize 0.05
                                (pointerlockchange false sampleCtl))))
      with (mkVec3 4.6 1.6 4.6) in Hp.
    cbn [clampBounds bounds pointerlockchange sampleCtl vy position camera] in Hp.
    inversion Hp as [[Hx' Hz']]. rewrite Hx in Hx'.
    vm_compute in Hx'. discriminate.
  - exact (Hfree Hb).
Qed.

(** C4, amended.  Per-axis sliding collision.  In a movement update made
    while the pointer is locked, with [p] the position and [m] the
    displacement of the frame: the X candidate [p.x + m.x] is committed
    exactly when no collider, inflated by the player radius on all sides,
    contains [(p.x + m.x, p.z)], and X is left unchanged otherwise; then
    the Z candidate [p.z + m.z] is committed exactly when no inflated
    collider contains it together with the X just decided.  The position
    of the camera is that point, clamped.  With a single collider, a move
    from outside it to a point inside it advances on exactly one axis: on
    Z when the X candidate is blocked, on X when it is not.  The inflated
    rectangle is open: the tests of the source are strict.  While the
    pointer is not locked, [update] returns at once and leaves the state
    as it is. *)
Theorem per_axis_sliding (Math_sin Math_cos : Q -> Q)
    (normalize : Vec3 -> Vec3) (dt : Q) (st : Ctl) :
  (isLocked st = true ->
   SlidesPerAxis (colliders st) (bounds st)
     (position (camera st))
     (moveOf Math_sin Math_cos normalize st dt)
     (position (camera (update Math_sin Math_cos normalize dt st)))) /\
  (isLocked st = false -> update Math_sin Math_cos normalize dt st = st).
Proof.
  split; [|apply update_unlocked].
  intros Hl. unfold SlidesPerAxis.
  set (p := position (camera st)).
  set (m := moveOf Math_sin Math_cos normalize st dt).
  set (cs := colliders st).
  rewrite (update_locked _ _ _ _ _ Hl). fold p m cs.
  pose proof (slide_per_axis cs p m) as Hs. cbn zeta in Hs.
  set (x' := if collides cs (vx p + vx m) (vz p)
             then vx p else vx p + vx m) in *.
  set (z' := if collides cs x' (vz p + vz m)
             then vz p else vz p + vz m) in *.
  exists x', z'. split; [now rewrite Hs|]. split; [|split].
  - subst x'. destruct (collides cs (vx p + vx m) (vz p)) eqn:E.
    + right. split; [now apply collides_iff | reflexivity].
    + left. split; [now apply collides_false_iff | reflexivity].
  - subst z'. destruct (collides cs x' (vz p + vz m)) eqn:E.
    + right. split; [now apply collides_iff | reflexivity].
    + left. split; [now apply collides_false_iff | reflexivity].
  - intros r Hr Hout Hin. rewrite Hr in Hs.
    destruct (slide_single r p m Hout Hin) as [[HX Hsl] | [HX Hsl]];
      rewrite Hsl in Hs; inversion Hs as [[Hx Hz]]; [left | right];
      rewrite <- ?Hx, <- ?Hz; auto.
Qed.

Lemma per_axis_sliding_witness :
  SlidesPerAxis [mkRect 5 6 5 6] None
    (mkVec3 4.6 1.6 4.6)
    (moveOf sampleSin sampleCos sampleNormalize sampleCtl 0.05)
    (position (camera (update sampleSin sampleCos sampleNormalize 0.05 sampleCtl))).
Proof.
  apply (proj1 (per_axis_sliding sampleSin sampleCos sampleNormalize 0.05
                  sampleCtl)).
  reflexivity.
Defined.

(** C5, as stated, fails.  Controls are created with the bounds of the
    gallery and the pointer is not locked yet; the camera is put at
    (100, 1.6, 0), outside the bounds; the next [update] returns at once
    and the camera is still there. *)
Lemma unlocked_update_does_not_clamp :
  let st0 := createControls (mkCamera (mkVec3 0 0 0) (mkVec3 0 0 0))
               (Some Gallery.bounds) None in
  let st := runEvents sampleSin sampleCos sampleNormalize st0
              [SetPosition (mkVec3 100 1.6 0); Update 0.016] in
  bounds st = Some Gallery.bounds /\
  position (camera st) = mkVec3 100 1.6 0 /\
  ~ within Gallery.bounds (position (camera st)).
Proof.
  cbn zeta. split; [reflexivity|]. split; [reflexivity|].
  intros [[_ Hx] _]. vm_compute in Hx. apply Hx. reflexivity.
Qed.

(** C5, amended.  With bounds configured (a box: min <= max on each
    axis) and the pointer locked, the position after [update] lies within
    the bounds on all three axes, whatever the keys, the yaw and [dt]; so
    a position put outside the bounds by direct assignment is back inside
    after the next locked update.  While the pointer is not locked,
    [update] leaves the state as it is. *)
Theorem bounds_clamping_when_locked (Math_sin Math_cos : Q -> Q)
    (normalize : Vec3 -> Vec3) (dt : Q) (st : Ctl) (b : Bounds) :
  bounds st = Some b ->
  wellFormed b ->
  (isLocked st = true ->
     within b (position (camera (update Math_sin Math_cos normalize dt st))) /\
     forall p,
       within b
         (position (camera (runEvents Math_sin Math_cos normalize st
                              [SetPosition p; Update dt])))) /\
  (isLocked st = false -> update Math_sin Math_cos normalize dt st = st).
Proof.
  intros Hb Hwf. split.
  - intros Hl. split.
    + rewrite (update_locked _ _ _ _ _ Hl), Hb.
      now apply clampBounds_within.
    + intros p. cbn [runEvents fold_left handle].
      rewrite update_locked by exact Hl. cbn [bounds]. rewrite Hb.
      now apply clampBounds_within.
  - apply update_unlocked.
Qed.

Lemma bounds_clamping_when_locked_witness :
  within Gallery.bounds
    (position (camera (update sampleSin sampleCos sampleNormalize 0.016 outsideCtl))).
Proof.
  refine (proj1 (proj1 (bounds_clamping_when_locked sampleSin sampleCos
                          sampleNormalize 0.016 outsideCtl Gallery.bounds
                          _ _) _)).
  - reflexivity.
  - unfold wellFormed. vm_compute. repeat split; discriminate.
  - reflexivity.
Defined.

(** C8.  Pitch invariant.  From the controls as created, after any
    sequence of events (pointer deltas of any size among them) the pitch
    lies in [-(Math.PI/2 - 0.08), Math.PI/2 - 0.08]; and a look update
    with the pointer locked leaves the pitch in that range whatever it was
    before, and sets the camera's X rotation to it. *)
Theorem pitch_invariant (Math_sin Math_cos : Q -> Q)
    (normalize : Vec3 -> Vec3) :
  (forall cam b c es,
      pitchInRange
        (pitch (runEvents Math_sin Math_cos normalize
                  (createControls cam b c) es))) /\
  (forall st dx dy,
      isLocked st = true ->
      pitchInRange (pitch (mousemove dx dy st)) /\
      vx (rotation (camera (mousemove dx dy st))) = pitch (mousemove dx dy st)).
Proof.
  split.
  - intros cam b c es. apply runEvents_pitch.
    unfold pitchInRange; simpl. pose proof lim_pos. lra.
  - intros st dx dy Hl. unfold mousemove. rewrite Hl. simpl.
    split; [|reflexivity]. apply clamp_sym_within, lim_pos.
Qed.

End ControlsFacts.

(* ===================================================================== *)
(** ** Concrete runs *)
(* ===================================================================== *)

Module Runs.
Import Gallery Spec.

(** The south wall of the atrium, doorway at 0: two sub-walls. *)
Example atrium_south_spans :
  map spanOf (emitted (mkBuild [] [] [] 0%nat)
                (addWallX (-10) (-16) 16 Plus1 (Some 0) (mkBuild [] [] [] 0%nat)))
  = [(-16, 0 - DOOR_W / 2); (0 + DOOR_W / 2, 16)].
Proof. reflexivity. Qed.

(** A run no wider than the doorway: no sub-wall. *)
Example all_doorway_wall :
  emitted (mkBuild [] [] [] 0%nat)
    (addWallZ 0 (-1) 1 Minus1 (Some 0) (mkBuild [] [] [] 0%nat)) = [].
Proof. reflexivity. Qed.

(** A doorway centered beyond the end of the run [0, 10]: the left
    sub-wall runs on to the doorway, past the end of the run. *)
Example doorway_off_the_run :
  map spanOf (emitted (mkBuild [] [] [] 0%nat)
                (addWallX 0 0 10 Plus1 (Some 20) (mkBuild [] [] [] 0%nat)))
  = [(0, 20 - DOOR_W / 2)].
Proof. reflexivity. Qed.

(** The gallery has 30 segments, 30 colliders and 90 accepted slots. *)
Example gallery_sizes :
  length (segs roomsBuilt) = 30%nat /\
  length (colliders roomsBuilt) = 30%nat /\
  idx (run [] (sampleOpts 95)) = 90%nat /\
  idx (run [] (sampleOpts 3)) = 3%nat.
Proof. vm_compute. repeat split; reflexivity. Qed.

(** Three records: the first three slots of the atrium's south wall. *)
Example three_records :
  hungMetas (fst (buildGallery [] (sampleOpts 3))) = sampleArts 3.
Proof. vm_compute. reflexivity. Qed.

(** The seven slots of the atrium's mid-span divider, 4.1 m apart. *)
Example divider_slots :
  slotCount (-14) 14 = 7%Z /\
  slotPos (-14) 14 7 0 == -12.3 /\
  slotPos (-14) 14 7 2 == -4.1 /\
  slotPos (-14) 14 7 6 == 12.3.
Proof. vm_compute. repeat split; reflexivity. Qed.

(** The third of them is rejected: the cross divider is 0.21 m away. *)
Example divider_slot_rejected :
  hitWallX (segs roomsBuilt) (slotPos (-14) 14 7 2) (standoff (-1.89) Plus1)
  = true.
Proof. vm_compute. reflexivity. Qed.

(** A diagonal step towards the collider [5,6] x [5,6] from (4.6, 4.6):
    X advances, Z does not. *)
Example diagonal_step :
  let p := Controls.position (Controls.camera
             (Controls.update sampleSin sampleCos sampleNormalize 0.05 sampleCtl)) in
  vx p == 4.75 /\ vy p == 1.6 /\ vz p == 4.6.
Proof. vm_compute. repeat split; reflexivity. Qed.

(** A locked update brings the camera back from x = 100 to the bound. *)
Example clamped_back :
  vx (Controls.position (Controls.camera
        (Controls.update sampleSin sampleCos sampleNormalize 0.016 outsideCtl)))
  == bMaxX Gallery.bounds.
Proof. vm_compute. reflexivity. Qed.

End Runs.

(* ===================================================================== *)
(** ** Further properties of the controls *)
(* ===================================================================== *)

Module ControlsMore.
Import Controls Spec Extra NumFacts ControlsFacts.

(** *** The set of held keys *)

Lemma has_add_same k s : has k (add k s) = true.
Proof.
  unfold add. destruct (has k s) eqn:E; [exact E|].
  unfold has. rewrite existsb_app. simpl. rewrite String.eqb_refl.
  now rewrite orb_true_r.
Qed.

Lemma has_add_other k k' s : k' <> k -> has k' (add k s) = has k' s.
Proof.
  intros Hne. unfold add. destruct (has k s); [reflexivity|].
  unfold has. rewrite existsb_app. simpl.
  apply String.eqb_neq in Hne. rewrite Hne. now rewrite !orb_false_r.
Qed.

Lemma has_delete_same k s : has k (delete k s) = false.
Proof.
  unfold has, delete. induction s as [|a s IH]; simpl; [reflexivity|].
  destruct (String.eqb k a) eqn:E; simpl; [exact IH|].
  now rewrite E.
Qed.

Lemma has_delete_other k k' s : k' <> k -> has k' (delete k s) = has k' s.
Proof.
  intros Hne. unfold has, delete. induction s as [|a s IH]; simpl; [reflexivity|].
  destruct (String.eqb k a) eqn:E; simpl.
  - apply String.eqb_eq in E. subst a.
    apply String.eqb_neq in Hne. now rewrite Hne.
  - now rewrite IH.
Qed.

Lemma lowerAscii_ascii c :
  (nat_of_ascii c <? 128)%nat = true ->
  (nat_of_ascii (lowerAscii c) <? 128)%nat = true.
Proof.
  destruct c as [[] [] [] [] [] [] [] []]; intros H;
    solve [vm_compute in H; discriminate | vm_compute; reflexivity].
Qed.

Lemma toLowerCase_ascii key :
  asciiKey key = true -> asciiKey (toLowerCase key) = true.
Proof.
  unfold asciiKey. induction key as [|c key IH]; simpl; [reflexivity|].
  rewrite !andb_true_iff. intros [Hc Hk].
  split; [now apply lowerAscii_ascii | now apply IH].
Qed.

(** X1.  For key names made of ASCII characters: pressing a key holds
    its lower-case name, which is ASCII again; a release whose key
    lower-cases to the same name (w and W, say) releases it; any other
    name is held after a press or a release exactly if it was before. *)
Theorem key_press_release (key key' : string) (st : Ctl) :
  asciiKey key = true ->
  asciiKey key' = true ->
  asciiKey (toLowerCase key) = true /\
  has (toLowerCase key) (keys (keydown key st)) = true /\
  (toLowerCase key' = toLowerCase key ->
   has (toLowerCase key) (keys (keyup key' (keydown key st))) = false) /\
  (forall k, k <> toLowerCase key ->
     has k (keys (keydown key st)) = has k (keys st) /\
     has k (keys (keyup key st)) = has k (keys st)).
Proof.
  intros Hkey Hkey'. split; [|split; [|split]].
  - now apply toLowerCase_ascii.
  - apply has_add_same.
  - intros E. cbn [keys keyup keydown]. rewrite E. apply has_delete_same.
  - intros k Hne. split; [now apply has_add_other | now apply has_delete_other].
Qed.

(** W is pressed and w released: w is not held. *)
Lemma key_press_release_witness :
  has "w" (keys (keyup "w" (keydown "W" freshCtl))) = false.
Proof.
  refine (proj1 (proj2 (proj2 (key_press_release "W" "w" freshCtl _ _))) _);
    reflexivity.
Defined.

(** *** Before the pointer is locked *)

Section Events.

Variables Math_sin Math_cos : Q -> Q.
Variable normalize : Vec3 -> Vec3.

Local Abbreviation update := (update Math_sin Math_cos normalize).
Local Abbreviation moveOf := (moveOf Math_sin Math_cos normalize).
Local Abbreviation handle := (handle Math_sin Math_cos normalize).
Local Abbreviation runEvents := (runEvents Math_sin Math_cos normalize).

Lemma handle_unlocked st e :
  isLocked st = false -> noLock e = true ->
  isLocked (handle st e) = false /\
  camera (handle st e) = camera st /\
  yaw (handle st e) = yaw st /\
  pitch (handle st e) = pitch st.
Proof.
  intros Hl He. destruct e as [k | k | b | dx dy | dt | b | c | p];
    simpl in *; try discriminate; auto.
  - destruct b; [discriminate | auto].
  - unfold mousemove. rewrite Hl. simpl. auto.
  - rewrite (update_unlocked _ _ _ _ _ Hl). auto.
Qed.

(** X2.  Until the pointer is locked the controls are inert: whatever
    keys are pressed, however the mouse moves and however many frames
    pass, the camera (position and rotation), the yaw and the pitch stay
    as they were. *)
Theorem inert_until_locked (es : list Event) (st : Ctl) :
  isLocked st = false ->
  forallb noLock es = true ->
  isLocked (runEvents st es) = false /\
  camera (runEvents st es) = camera st /\
  yaw (runEvents st es) = yaw st /\
  pitch (runEvents st es) = pitch st.
Proof.
  revert st. induction es as [|e es IH]; intros st Hl Hes; simpl.
  - auto.
  - simpl in Hes. apply andb_true_iff in Hes. destruct Hes as [He Hes].
    destruct (handle_unlocked st e Hl He) as (Hl' & Hc & Hy & Hp).
    destruct (IH _ Hl' Hes) as (H1 & H2 & H3 & H4).
    repeat split; congruence.
Qed.


(** *** Freedom from colliders *)

Lemma slide_free cs p m : free cs p -> free cs (slide cs p m).
Proof.
  unfold free. intros Hfree. unfold slide.
  destruct (collides cs (vx p + vx m) (vz p)) eqn:EX; simpl.
  - destruct (collides cs (vx p) (vz p + vz m)) eqn:EZ; simpl.
    + exact Hfree.
    + now apply collides_false_iff.
  - destruct (collides cs (vx p + vx m) (vz p + vz m)) eqn:EZ; simpl.
    + now apply collides_false_iff.
    + now apply collides_false_iff.
Qed.

(** X5.  Collision resolution never moves the viewer into a wall: from a
    position outside every inflated collider, the position after the two
    tests is outside every inflated collider, whatever the displacement;
    so is the position after [update] when no bounds are configured. *)
Theorem sliding_keeps_free (dt : Q) (st : Ctl) (m : Vec3) :
  free (colliders st) (position (camera st)) ->
  free (colliders st) (slide (colliders st) (position (camera st)) m) /\
  (bounds st = None ->
   free (colliders (update dt st)) (position (camera (update dt st)))).
Proof.
  intros Hfree. split; [now apply slide_free|].
  intros Hb. unfold Controls.update.
  destruct (isLocked st); simpl; [|exact Hfree].
  rewrite Hb. simpl. now apply slide_free.
Qed.


End Events.

Lemma inert_until_locked_witness :
  camera (runEvents sampleSin sampleCos sampleNormalize freshCtl
            [KeyDown "w"; MouseMove 10 5; Update 0.016;
             PointerLockChange false])
  = camera freshCtl.
Proof.
  refine (proj1 (proj2 (inert_until_locked sampleSin sampleCos sampleNormalize
                          [KeyDown "w"; MouseMove 10 5; Update 0.016;
                           PointerLockChange false] freshCtl _ _))).
  - reflexivity.
  - reflexivity.
Defined.

Lemma sliding_keeps_free_witness :
  free (colliders sampleCtl)
    (slide (colliders sampleCtl) (position (camera sampleCtl)) (mkVec3 0.15 0 0.15)).
Proof.
  refine (proj1 (sliding_keeps_free sampleSin sampleCos sampleNormalize 0.05 sampleCtl (mkVec3 0.15 0 0.15) _)).
  intros (r & [<- | []] & [[H _] _]). vm_compute in H. discriminate.
Defined.

(** *** Looking around *)

Lemma look_locked moves st : isLocked st = true -> isLocked (look moves st) = true.
Proof.
  revert st. unfold look.
  induction moves as [|m moves IH]; intros st Hl; simpl; [exact Hl|].
  apply IH. unfold mousemove. now rewrite Hl.
Qed.

(** X3.  With the pointer locked, look updates add up on the yaw, which
    is never clamped: after any sequence of pointer deltas the yaw is the
    old yaw minus the sensitivity times the sum of the X deltas.  The
    position is not touched, and after at least one delta the rotation of
    the camera is (pitch, yaw, 0): a look never rolls the camera. *)
Theorem look_accumulates (moves : list (Q * Q)) (st : Ctl) :
  isLocked st = true ->
  yaw (look moves st) == yaw st - sensitivity * sumQ (map fst moves) /\
  position (camera (look moves st)) = position (camera st) /\
  (moves <> [] ->
   rotation (camera (look moves st))
   = mkVec3 (pitch (look moves st)) (yaw (look moves st)) 0).
Proof.
  revert st. unfold look.
  induction moves as [|[dx dy] moves IH]; intros st Hl.
  - simpl. repeat split; [lra | congruence].
  - cbn [fold_left fst snd map sumQ fold_right].
    set (st1 := mousemove dx dy st).
    assert (Hl1 : isLocked st1 = true)
      by (unfold st1, mousemove; now rewrite Hl).
    assert (Hy1 : yaw st1 = yaw st - dx * sensitivity)
      by (unfold st1, mousemove; now rewrite Hl).
    assert (Hp1 : position (camera st1) = position (camera st))
      by (unfold st1, mousemove; now rewrite Hl).
    assert (Hr1 : rotation (camera st1) = mkVec3 (pitch st1) (yaw st1) 0)
      by (unfold st1, mousemove; now rewrite Hl).
    destruct (IH st1 Hl1) as (Hy & Hp & Hr).
    split; [|split].
    + rewrite Hy, Hy1. fold (sumQ (map fst moves)). lra.
    + congruence.
    + intros _. destruct moves as [|m moves]; [exact Hr1|].
      apply Hr. discriminate.
Qed.

Lemma look_accumulates_witness :
  yaw (look [(4, 2); (-1, 3)] sampleCtl)
  == yaw sampleCtl - sensitivity * sumQ (map fst [(4, 2); (-1, 3)]).
Proof.
  refine (proj1 (look_accumulates [(4, 2); (-1, 3)] sampleCtl _)).
  reflexivity.
Defined.

(** *** Clamping *)

Lemma clamp_idem (lo hi v : Q) :
  Math_min hi (Math_max lo (Math_min hi (Math_max lo v)))
  = Math_min hi (Math_max lo v).
Proof.
  unfold Math_min, Math_max.
  destruct (leb lo v) eqn:E1.
  - destruct (leb hi v) eqn:E2.
    + destruct (leb lo hi) eqn:E3; rewrite ?E3.
      * destruct (leb hi hi) eqn:E4; reflexivity.
      * destruct (leb hi lo) eqn:E4; [reflexivity|].
        apply leb_false_iff in E3, E4. lra.
    + rewrite E1, E2. reflexivity.
  - destruct (leb hi lo) eqn:E2.
    + destruct (leb lo hi) eqn:E3; rewrite ?E3.
      * destruct (leb hi hi); reflexivity.
      * rewrite E2. reflexivity.
    + destruct (leb lo lo) eqn:E3; rewrite E2; reflexivity.
Qed.

Lemma clamp_inside (lo hi v : Q) :
  lo <= v <= hi -> Math_min hi (Math_max lo v) == v.
Proof.
  intros [Hlo Hhi]. unfold Math_min, Math_max.
  apply leb_iff in Hlo as E1. rewrite E1.
  destruct (leb hi v) eqn:E2; [|reflexivity].
  apply leb_iff in E2. lra.
Qed.

(** X4.  Clamping is idempotent; without bounds it is the identity; and
    it leaves a position inside the bounds where it is. *)
Theorem clampBounds_idempotent (b : option Bounds) (v : Vec3) :
  clampBounds b (clampBounds b v) = clampBounds b v /\
  (b = None -> clampBounds b v = v) /\
  (forall bd, b = Some bd -> within bd v -> veq (clampBounds b v) v).
Proof.
  split; [|split].
  - destruct b as [bd|]; simpl; [|reflexivity].
    now rewrite !clamp_idem.
  - intros ->. reflexivity.
  - intros bd -> (Hx & Hy & Hz). unfold veq; simpl.
    repeat split; now apply clamp_inside.
Qed.

(** *** Walls are not jumped *)

Lemma collides_in cs r x z :
  In r cs -> inflatedContains r playerRadius x z -> collides cs x z = true.
Proof.
  intros Hin Hc. apply collides_iff. exists r. split; assumption.
Qed.

(** X6.  A step that does not clear the far side of a collider does not
    pass it.  Level with an inflated collider and on its low (high) side
    in X, the viewer is still on that side after collision resolution if
    the X candidate falls short of the far side; the same holds in Z, for
    the X coordinate the first test has left. *)
Theorem walls_are_not_jumped (cs : list RectXZ) (r : RectXZ) (p m : Vec3) :
  In r cs ->
  let rad := playerRadius in
  let q := slide cs p m in
  (minZ r - rad < vz p < maxZ r + rad ->
     (vx p <= minX r - rad -> vx p + vx m < maxX r + rad ->
      vx q <= minX r - rad) /\
     (maxX r + rad <= vx p -> minX r - rad < vx p + vx m ->
      maxX r + rad <= vx q)) /\
  (minX r - rad < vx q < maxX r + rad ->
     (vz p <= minZ r - rad -> vz p + vz m < maxZ r + rad ->
      vz q <= minZ r - rad) /\
     (maxZ r + rad <= vz p -> minZ r - rad < vz p + vz m ->
      maxZ r + rad <= vz q)).
Proof.
  intros Hin rad q. subst q. rewrite slide_per_axis. cbn zeta.
  set (x' := if collides cs (vx p + vx m) (vz p)
             then vx p else vx p + vx m).
  cbn [vx vz].
  split.
  - intros Hz. subst x'.
    destruct (collides cs (vx p + vx m) (vz p)) eqn:EX.
    + split; intros; assumption.
    + split; intros H1 H2.
      * destruct (Qlt_le_dec (minX r - rad) (vx p + vx m)) as [Hlt | Hle];
          [|exact Hle].
        rewrite (collides_in cs r) in EX; [discriminate | exact Hin|].
        split; [split|]; assumption || apply Hz.
      * destruct (Qlt_le_dec (vx p + vx m) (maxX r + rad)) as [Hlt | Hle];
          [|exact Hle].
        rewrite (collides_in cs r) in EX; [discriminate | exact Hin|].
        split; [split|]; assumption || apply Hz.
  - intros Hx.
    destruct (collides cs x' (vz p + vz m)) eqn:EZ.
    + split; intros; assumption.
    + split; intros H1 H2.
      * destruct (Qlt_le_dec (minZ r - rad) (vz p + vz m)) as [Hlt | Hle];
          [|exact Hle].
        rewrite (collides_in cs r) in EZ; [discriminate | exact Hin|].
        split; [|split]; assumption || apply Hx.
      * destruct (Qlt_le_dec (vz p + vz m) (maxZ r + rad)) as [Hlt | Hle];
          [|exact Hle].
        rewrite (collides_in cs r) in EZ; [discriminate | exact Hin|].
        split; [|split]; assumption || apply Hx.
Qed.


Lemma walls_are_not_jumped_witness :
  vx (slide [mkRect 5 6 5 6] (mkVec3 4.6 1.6 5.5) (mkVec3 0.3 0 0))
  <= minX (mkRect 5 6 5 6) - playerRadius.
Proof.
  refine (proj1 (proj1 (walls_are_not_jumped [mkRect 5 6 5 6] (mkRect 5 6 5 6)
                          (mkVec3 4.6 1.6 5.5) (mkVec3 0.3 0 0) _) _) _ _).
  - simpl. left. reflexivity.
  - vm_compute. split; reflexivity.
  - vm_compute. discriminate.
  - vm_compute. reflexivity.
Defined.

Section Moving.

Variables Math_sin Math_cos : Q -> Q.
Variable normalize : Vec3 -> Vec3.

Local Abbreviation update := (update Math_sin Math_cos normalize).
Local Abbreviation moveOf := (moveOf Math_sin Math_cos normalize).

Lemma moveOf_still st dt :
  noMoveKey (keys st) ->
  vx (moveOf st dt) == 0 /\ vy (moveOf st dt) == 0 /\ vz (moveOf st dt) == 0.
Proof.
  unfold noMoveKey. intros H.
  repeat match goal with
         | H : Forall _ (_ :: _) |- _ => inversion H; subst; clear H
         end.
  unfold Controls.moveOf.
  repeat match goal with
         | H : has _ _ = false |- _ => rewrite H; clear H
         end.
  cbn [orb addScaledVector vx vy vz].
  repeat split; ring.
Qed.

(** X7.  With none of the movement keys held the viewer stands still: a
    locked update leaves the position where it is (coordinate by
    coordinate), provided no bounds are configured or the position is
    within them. *)
Theorem standing_still (dt : Q) (st : Ctl) :
  noMoveKey (keys st) ->
  (bounds st = None \/
   exists b, bounds st = Some b /\ within b (position (camera st))) ->
  veq (position (camera (update dt st))) (position (camera st)).
Proof.
  intros Hk Hb. unfold Controls.update.
  destruct (isLocked st); [|repeat split; reflexivity].
  cbn [camera position].
  destruct (moveOf_still st dt Hk) as (Hmx & _ & Hmz).
  set (p := position (camera st)) in *.
  set (m := moveOf st dt) in *.
  assert (Hs : veq (slide (colliders st) p m) p).
  { rewrite slide_per_axis. cbn zeta. unfold veq. cbn [vx vy vz].
    destruct (collides (colliders st) (vx p + vx m) (vz p));
      destruct (collides (colliders st) _ (vz p + vz m));
      repeat split; lra. }
  destruct Hs as (Hx & Hy & Hz).
  destruct Hb as [-> | (b & -> & (Bx & By & Bz))]; cbn [clampBounds].
  - repeat split; assumption.
  - unfold veq. cbn [vx vy vz].
    repeat split.
    + eapply Qeq_trans; [apply clamp_inside; lra | exact Hx].
    + eapply Qeq_trans; [apply clamp_inside; lra | exact Hy].
    + eapply Qeq_trans; [apply clamp_inside; lra | exact Hz].
Qed.


Lemma moveOf_linear st dt :
  vx (moveOf st dt) == dt * vx (moveOf st 1) /\
  vz (moveOf st dt) == dt * vz (moveOf st 1).
Proof.
  unfold Controls.moveOf. cbn [addScaledVector vx vz]. split; ring.
Qed.

Lemma update_free_step st dt :
  isLocked st = true -> colliders st = [] -> bounds st = None ->
  let st' := update dt st in
  isLocked st' = true /\ colliders st' = [] /\ bounds st' = None /\
  keys st' = keys st /\ yaw st' = yaw st /\
  position (camera st')
  = mkVec3 (vx (position (camera st)) + vx (moveOf st dt))
           (vy (position (camera st)))
           (vz (position (camera st)) + vz (moveOf st dt)).
Proof.
  intros Hl Hc Hb. unfold Controls.update. rewrite Hl, Hc, Hb.
  repeat split; assumption.
Qed.

(** X8.  With the defaults of [createControls], no bounds and no
    colliders, nothing clamps or blocks, and where the viewer ends up
    depends on the elapsed time only, not on how it is cut into frames:
    after locked updates [dt1 .. dtn] the position is the old one plus
    (dt1 + .. + dtn) times the displacement of one second, in X and in Z,
    at the same height. *)
Theorem free_motion_adds_up (dts : list Q) (st : Ctl) :
  isLocked st = true -> colliders st = [] -> bounds st = None ->
  let st' := fold_left (fun s dt => update dt s) dts st in
  veq (position (camera st'))
      (mkVec3 (vx (position (camera st)) + sumQ dts * vx (moveOf st 1))
              (vy (position (camera st)))
              (vz (position (camera st)) + sumQ dts * vz (moveOf st 1))).
Proof.
  revert st. induction dts as [|dt dts IH]; intros st Hl Hc Hb.
  - unfold veq; simpl. repeat split; ring.
  - cbn [fold_left sumQ fold_right].
    destruct (update_free_step st dt Hl Hc Hb)
      as (Hl' & Hc' & Hb' & Hk & Hy & Hp).
    specialize (IH (update dt st) Hl' Hc' Hb'). cbn zeta in IH.
    destruct IH as (Ix & Iy & Iz).
    assert (Hm : moveOf (update dt st) 1 = moveOf st 1)
      by (unfold Controls.moveOf; now rewrite Hk, Hy).
    rewrite Hm, Hp in Ix, Iy, Iz. cbn [vx vy vz] in Ix, Iy, Iz.
    destruct (moveOf_linear st dt) as [Lx Lz].
    unfold veq. cbn [vx vy vz]. fold (sumQ dts).
    repeat split.
    + rewrite Ix, Lx. ring.
    + exact Iy.
    + rewrite Iz, Lz. ring.
Qed.


(** X21.  Opposite keys do not cancel: with a forward key (w or arrow
    up) held, the displacement is the same whether or not the back keys
    are held too; and with a right key (d or arrow right) held, whether or
    not the left keys are. *)
Theorem forward_wins_over_back (dt : Q) (st : Ctl) :
  (has "w" (keys st) = true \/ has "arrowup" (keys st) = true ->
   moveOf st dt = moveOf (keyup "s" (keyup "arrowdown" st)) dt) /\
  (has "d" (keys st) = true \/ has "arrowright" (keys st) = true ->
   moveOf st dt = moveOf (keyup "a" (keyup "arrowleft" st)) dt).
Proof.
  assert (K1 : keys (keyup "s" (keyup "arrowdown" st))
               = delete "s" (delete "arrowdown" (keys st))) by reflexivity.
  assert (K2 : keys (keyup "a" (keyup "arrowleft" st))
               = delete "a" (delete "arrowleft" (keys st))) by reflexivity.
  unfold Controls.moveOf. rewrite K1, K2. cbn [yaw keyup].
  assert (D : forall (a b k : string) ks, k <> a -> k <> b ->
                has k (delete a (delete b ks)) = has k ks)
    by (intros a b k ks Ha Hb; now rewrite !has_delete_other).
  split; intros H.
  - rewrite (D "s"%string "arrowdown"%string "w"%string), (D "s"%string "arrowdown"%string "arrowup"%string),
      (D "s"%string "arrowdown"%string "d"%string), (D "s"%string "arrowdown"%string "arrowright"%string),
      (D "s"%string "arrowdown"%string "a"%string), (D "s"%string "arrowdown"%string "arrowleft"%string)
      by discriminate.
    assert (E : has "w" (keys st) || has "arrowup" (keys st) = true)
      by (apply orb_true_iff; exact H).
    rewrite E. reflexivity.
  - rewrite (D "a"%string "arrowleft"%string "w"%string), (D "a"%string "arrowleft"%string "arrowup"%string),
      (D "a"%string "arrowleft"%string "s"%string), (D "a"%string "arrowleft"%string "arrowdown"%string),
      (D "a"%string "arrowleft"%string "d"%string), (D "a"%string "arrowleft"%string "arrowright"%string)
      by discriminate.
    assert (E : has "d" (keys st) || has "arrowright" (keys st) = true)
      by (apply orb_true_iff; exact H).
    rewrite E. reflexivity.
Qed.

End Moving.

Lemma standing_still_witness :
  veq (position (camera (update sampleSin sampleCos sampleNormalize 0.05 idleCtl))) (position (camera idleCtl)).
Proof.
  apply (standing_still sampleSin sampleCos sampleNormalize 0.05 idleCtl).
  - unfold noMoveKey. repeat constructor.
  - left. reflexivity.
Defined.

Lemma free_motion_adds_up_witness :
  veq (position (camera (fold_left (fun s dt => update sampleSin sampleCos sampleNormalize dt s)
                           [0.016; 0.05] openCtl)))
      (mkVec3 (vx (position (camera openCtl))
               + sumQ [0.016; 0.05] * vx (moveOf sampleSin sampleCos sampleNormalize openCtl 1))
              (vy (position (camera openCtl)))
              (vz (position (camera openCtl))
               + sumQ [0.016; 0.05] * vz (moveOf sampleSin sampleCos sampleNormalize openCtl 1))).
Proof.
  apply (free_motion_adds_up sampleSin sampleCos sampleNormalize [0.016; 0.05] openCtl); reflexivity.
Defined.

Lemma forward_wins_over_back_witness :
  moveOf sampleSin sampleCos sampleNormalize bothWaysCtl 0.05
  = moveOf sampleSin sampleCos sampleNormalize
      (keyup "s" (keyup "arrowdown" bothWaysCtl)) 0.05.
Proof.
  refine (proj1 (forward_wins_over_back sampleSin sampleCos sampleNormalize
                   0.05 bothWaysCtl) _).
  left. reflexivity.
Defined.

End ControlsMore.

(* ===================================================================== *)
(** ** Further properties of the gallery *)
(* ===================================================================== *)

Module GalleryMore.
Import Gallery Spec Aux Extra NumFacts LayoutFacts PlacementFacts
  GalleryFacts SlotFacts.

(** *** The run hangs record k at slot k *)

Section Hanging.

Variable opts : BuildOpts.

Lemma hang_exhausted pos rot st :
  (length (artworks opts) <= idx st)%nat -> hang opts pos rot st = st.
Proof.
  intros Hle. unfold hang, frames.
  apply nth_error_None in Hle. now rewrite Hle.
Qed.

Lemma hangEach_exhausted slots st :
  (length (artworks opts) <= idx st)%nat -> hangEach opts slots st = st.
Proof.
  intros Hle. unfold hangEach.
  induction slots as [|slot slots IH]; simpl; [reflexivity|].
  now rewrite hang_exhausted.
Qed.

Lemma hangEach_app l1 l2 st :
  hangEach opts (l1 ++ l2) st = hangEach opts l2 (hangEach opts l1 st).
Proof. unfold hangEach. apply fold_left_app. Qed.

Lemma hangEach_segs slots st : segs (hangEach opts slots st) = segs st.
Proof.
  unfold hangEach. revert st.
  induction slots as [|slot slots IH]; intros st; simpl; [reflexivity|].
  rewrite IH. apply hang_walls.
Qed.

(** The loop over the slots of a segment hangs at the slots that pass
    the check; leaving the loop when the records are used up changes
    nothing, since hanging would not either. *)
Lemma forSlots_hangEach rejects posOf rot :
  forall r i st,
    forSlots opts r i (slotBody opts rejects posOf rot) st
    = hangEach opts
        (flat_map (fun j => if rejects (segs st) j then []
                            else [(posOf j, rot)]) (seq i r)) st.
Proof.
  induction r as [|r IH]; intros i st; [reflexivity|].
  cbn [forSlots seq flat_map].
  destruct (idx st <? length (frames opts))%nat eqn:E.
  - rewrite IH, hangEach_app, slotBody_segs. f_equal.
    unfold slotBody. destruct (rejects (segs st) i); reflexivity.
  - apply Nat.ltb_ge in E. now rewrite hangEach_exhausted.
Qed.

Lemma hangOnSeg_hangEach seg st :
  hangOnSeg opts seg st = hangEach opts (slotsOf (segs st) seg) st.
Proof.
  destruct seg as [z x0 x1 n | x z0 z1 n]; simpl.
  - unfold hangOnSegX, slotsX. fold (usableLen x0 x1).
    destruct (leb (usableLen x0 x1) 0); [reflexivity|].
    apply (forSlots_hangEach
             (fun all i => hitWallX all (slotPos x0 x1 (slotCount x0 x1) i)
                             (z + (if gtb (sgn n) 0 then WALL_GAP else - WALL_GAP)))
             (fun i => mkVec3 (slotPos x0 x1 (slotCount x0 x1) i) 1.6
                         (z + (if gtb (sgn n) 0 then WALL_GAP else - WALL_GAP)))).
  - unfold hangOnSegZ, slotsZ. fold (usableLen z0 z1).
    destruct (leb (usableLen z0 z1) 0); [reflexivity|].
    apply (forSlots_hangEach
             (fun all i => hitWallZ all
                             (x + (if gtb (sgn n) 0 then WALL_GAP else - WALL_GAP))
                             (slotPos z0 z1 (slotCount z0 z1) i))
             (fun i => mkVec3 (x + (if gtb (sgn n) 0 then WALL_GAP else - WALL_GAP))
                         1.6 (slotPos z0 z1 (slotCount z0 z1) i))).
Qed.

Lemma forSegs_hangEach rest :
  forall st,
    forSegs opts rest st
    = hangEach opts (flat_map (slotsOf (segs st)) rest) st.
Proof.
  induction rest as [|seg rest IH]; intros st; [reflexivity|].
  cbn [forSegs flat_map].
  destruct (length (frames opts) <=? idx st)%nat eqn:E.
  - apply Nat.leb_le in E. now rewrite hangEach_exhausted.
  - rewrite IH, hangEach_app, hangOnSeg_hangEach, hangEach_segs.
    reflexivity.
Qed.

Lemma skipn_nth_error {A} (l : list A) (n : nat) (x : A) :
  nth_error l n = Some x -> skipn n l = x :: skipn (S n) l.
Proof.
  revert n. induction l as [|a l IH]; intros [|n] Hn; simpl in *;
    try discriminate.
  - now inversion Hn.
  - now apply IH.
Qed.

(** Hanging at a list of slots pairs the records left with the slots. *)
Lemma hangEach_scene slots :
  forall st,
    scene (hangEach opts slots st)
    = scene st ++
        map (fun ms => frameFor opts (fst ms) (snd ms))
            (combine (skipn (idx st) (artworks opts)) slots) /\
    idx (hangEach opts slots st)
    = (idx st + Nat.min (length slots) (length (artworks opts) - idx st))%nat.
Proof.
  unfold hangEach.
  induction slots as [|slot slots IH]; intros st.
  - simpl. rewrite combine_nil, app_nil_r. split; [reflexivity | lia].
  - cbn [fold_left]. destruct (IH (hang opts (fst slot) (snd slot) st))
      as [Hs Hi].
    rewrite Hs, Hi. unfold hang, frames.
    destruct (nth_error (artworks opts) (idx st)) as [meta|] eqn:E.
    + cbn [scene idx].
      rewrite (skipn_nth_error _ _ _ E). cbn [combine map fst snd length].
      rewrite <- app_assoc. split; [reflexivity|].
      assert (idx st < length (artworks opts))%nat
        by (apply nth_error_Some; congruence).
      lia.
    + apply nth_error_None in E as Hle.
      rewrite (skipn_all2 _ Hle). cbn [combine map length].
      split; [reflexivity | lia].
Qed.

End Hanging.

Lemma run_scene_rooms sc opts :
  scene (run sc opts)
  = scene (buildRooms (mkBuild sc [] [] 0%nat)) ++
      map (fun ms => frameFor opts (fst ms) (snd ms))
          (combine (artworks opts) (layoutSlots (segs roomsBuilt))) /\
  idx (run sc opts)
  = Nat.min (length (artworks opts)) (length (layoutSlots (segs roomsBuilt))).
Proof.
  rewrite run_unfold. unfold hangAll. rewrite forSegs_hangEach.
  set (st := buildRooms (mkBuild sc [] [] 0%nat)).
  destruct (hangEach_scene opts (flat_map (slotsOf (segs st)) (segs st)) st)
    as [Hs Hi].
  assert (Hidx : idx st = 0%nat) by apply quiet_buildRooms.
  assert (Hsegs : segs st = segs roomsBuilt) by apply buildRooms_walls_scene.
  rewrite Hs, Hi, Hidx, Hsegs. cbn [skipn]. fold (layoutSlots (segs roomsBuilt)).
  split; [reflexivity | lia].
Qed.

(** X9.  The gallery has 90 accepted slots, fixed by the walls alone,
    and the run hangs record k at slot k: the scene after [buildGallery]
    is the scene with the rooms, followed by one frame per pair of the
    artwork list zipped with the slots, each frame carrying its record,
    the URL [imagesBase/file], the width [FRAME_W] and the position and
    rotation of its slot.  The number of frames is the smaller of the
    number of records and 90. *)
Theorem placement_by_slots (sc : list SceneObj) (opts : BuildOpts) :
  let slots := layoutSlots (segs roomsBuilt) in
  fst (buildGallery sc opts)
  = scene (buildRooms (mkBuild sc [] [] 0%nat)) ++
      map (fun ms => frameFor opts (fst ms) (snd ms))
          (combine (artworks opts) slots) /\
  idx (run sc opts) = Nat.min (length (artworks opts)) 90 /\
  length slots = 90%nat.
Proof.
  intros slots. destruct (run_scene_rooms sc opts) as [Hs Hi].
  assert (Hlen : length slots = 90%nat) by (vm_compute; reflexivity).
  split; [exact Hs|]. split; [|exact Hlen].
  rewrite Hi. fold slots. now rewrite Hlen.
Qed.

Lemma combine_app_l {A B} (a b : list A) (l : list B) :
  combine (a ++ b) l = combine a l ++ combine b (skipn (length a) l).
Proof.
  revert l. induction a as [|x a IH]; intros l; simpl; [reflexivity|].
  destruct l as [|y l]; simpl.
  - now rewrite combine_nil.
  - now rewrite IH.
Qed.

(** X10.  Appending records to the artwork list leaves the frames
    already hung as they are: with the same [imagesBase], the scene of the
    longer list is the scene of the shorter one followed by further
    frames. *)
Theorem more_records_keep_frames (sc : list SceneObj) (base : string)
    (arts more : list ArtworkMeta) :
  exists further,
    fst (buildGallery sc (mkOpts base (arts ++ more)))
    = fst (buildGallery sc (mkOpts base arts)) ++ further /\
    Forall (fun o => exists meta slot,
                       In meta more /\ o = frameFor (mkOpts base arts) meta slot)
           further.
Proof.
  destruct (run_scene_rooms sc (mkOpts base (arts ++ more))) as [H2 _].
  destruct (run_scene_rooms sc (mkOpts base arts)) as [H1 _].
  cbn [buildGallery fst artworks] in *.
  rewrite H2, H1, combine_app_l, map_app, app_assoc.
  eexists. split; [reflexivity|].
  apply Forall_forall. intros o Ho.
  apply in_map_iff in Ho. destruct Ho as ([meta slot] & <- & Hin).
  exists meta, slot. split; [|reflexivity].
  eapply in_combine_l, Hin.
Qed.

(** *** Where the slots are *)

Lemma slotT_unit lo hi i :
  0 < usableLen lo hi ->
  (i < Z.to_nat (slotCount lo hi))%nat ->
  0 <= slotT (slotCount lo hi) i <= 1.
Proof.
  intros Hpos Hi. pose proof (slotCount_pos lo hi Hpos) as Hc.
  unfold slotT. destruct (slotCount lo hi =? 1)%Z eqn:E; [lra|].
  apply Z.eqb_neq in E.
  assert (Hk : 0 < inject_Z (slotCount lo hi - 1)).
  { change 0 with (inject_Z 0). rewrite <- Zlt_Qlt. lia. }
  split.
  - apply Qle_shift_div_l; [exact Hk|].
    rewrite Qmult_0_l. change 0 with (inject_Z 0). rewrite <- Zle_Qle. lia.
  - apply Qle_shift_div_r; [exact Hk|].
    rewrite Qmult_1_l. rewrite <- Zle_Qle. lia.
Qed.

Lemma slot_margins lo hi i :
  0 < usableLen lo hi ->
  (i < Z.to_nat (slotCount lo hi))%nat ->
  lo + CAP_MARGIN + HALF_W <= slotPos lo hi (slotCount lo hi) i
                           <= hi - CAP_MARGIN - HALF_W.
Proof.
  intros Hpos Hi. pose proof (slotT_unit lo hi i Hpos Hi) as Ht.
  unfold slotPos. set (t := slotT (slotCount lo hi) i) in *.
  unfold usableLen in Hpos.
  unfold HALF_W, FRAME_W, CAP_MARGIN in *. nra.
Qed.

Lemma slotsX_sit all z lo hi n slot :
  In slot (slotsX all z lo hi n) -> sitsOn all (SegX z lo hi n) slot.
Proof.
  unfold slotsX. destruct (leb (usableLen lo hi) 0) eqn:E; [intros []|].
  apply leb_false_iff in E. intros Hin.
  apply in_flat_map in Hin. destruct Hin as (i & Hi & Hin).
  apply in_seq in Hi. cbn zeta in Hin.
  destruct (hitWallX _ _ _) eqn:Hhit in Hin; [destruct Hin|].
  destruct Hin as [<- | []]. unfold sitsOn. cbn [fst vx vy vz].
  split; [reflexivity|]. split; [apply slot_margins; [exact E | lia]|].
  split; [apply standoff_eq|].
  intros Hnear. apply hitWallX_iff in Hnear. congruence.
Qed.

Lemma slotsZ_sit all x lo hi n slot :
  In slot (slotsZ all x lo hi n) -> sitsOn all (SegZ x lo hi n) slot.
Proof.
  unfold slotsZ. destruct (leb (usableLen lo hi) 0) eqn:E; [intros []|].
  apply leb_false_iff in E. intros Hin.
  apply in_flat_map in Hin. destruct Hin as (i & Hi & Hin).
  apply in_seq in Hi. cbn zeta in Hin.
  destruct (hitWallZ _ _ _) eqn:Hhit in Hin; [destruct Hin|].
  destruct Hin as [<- | []]. unfold sitsOn. cbn [fst vx vy vz].
  split; [reflexivity|]. split; [apply slot_margins; [exact E | lia]|].
  split; [apply standoff_eq|].
  intros Hnear. apply hitWallZ_iff in Hnear. congruence.
Qed.

(** X11.  Whatever the segments of a layout, every accepted slot sits on
    one of them: at least the edge margin plus half a frame width from
    both ends of the segment, [WALL_GAP] off its plane on the side of the
    normal, at height 1.6, and with no perpendicular segment of the layout
    near it. *)
Theorem slots_sit_on_segments (all : list WallSeg) :
  Forall (fun slot => exists seg, In seg all /\ sitsOn all seg slot)
         (layoutSlots all).
Proof.
  apply Forall_forall. intros slot Hin. unfold layoutSlots in Hin.
  apply in_flat_map in Hin. destruct Hin as (seg & Hseg & Hin).
  exists seg. split; [exact Hseg|].
  destruct seg; [now apply slotsX_sit | now apply slotsZ_sit].
Qed.

Lemma slot_step lo hi i j :
  0 < usableLen lo hi ->
  (i < j < Z.to_nat (slotCount lo hi))%nat ->
  SPACING <= slotPos lo hi (slotCount lo hi) j
             - slotPos lo hi (slotCount lo hi) i.
Proof.
  intros Hpos Hij. pose proof (slotCount_pos lo hi Hpos) as Hc.
  assert (Hne : (slotCount lo hi =? 1)%Z = false) by (apply Z.eqb_neq; lia).
  unfold slotPos, slotT. rewrite Hne.
  assert (Hfl : inject_Z (slotCount lo hi - 1) <= usableLen lo hi / SPACING).
  { unfold slotCount. replace (Qfloor (usableLen lo hi / SPACING) + 1 - 1)%Z
      with (Qfloor (usableLen lo hi / SPACING)) by lia.
    apply Qfloor_le. }
  set (K := inject_Z (slotCount lo hi - 1)) in *.
  assert (HK : 1 <= K).
  { unfold K. change 1 with (inject_Z 1). rewrite <- Zle_Qle. lia. }
  set (I := inject_Z (Z.of_nat i)). set (J := inject_Z (Z.of_nat j)).
  assert (HIJ : 1 <= J - I).
  { unfold I, J, Qminus. rewrite <- inject_Z_opp, <- inject_Z_plus.
    change 1 with (inject_Z 1). rewrite <- Zle_Qle. lia. }
  set (u := usableLen lo hi) in *.
  assert (Hu : SPACING * K <= u).
  { unfold SPACING, Qdiv in *. change (/ 3.6) with (10 # 36) in Hfl. lra. }
  assert (Hd : SPACING <= u / K).
  { apply Qle_shift_div_l; [lra | exact Hu]. }
  assert (Heq : lo + CAP_MARGIN + HALF_W
                + J / K * (hi - CAP_MARGIN - HALF_W - (lo + CAP_MARGIN + HALF_W))
                - (lo + CAP_MARGIN + HALF_W
                   + I / K * (hi - CAP_MARGIN - HALF_W - (lo + CAP_MARGIN + HALF_W)))
                == (J - I) * (u / K)).
  { unfold u, usableLen. field. lra. }
  rewrite Heq. set (d := u / K) in *. unfold SPACING in *. nra.
Qed.

(** X12.  Frames on one segment fit and do not overlap.  On a segment
    with usable length, the bezel of a frame of width [FRAME_W] (1.98
    wide) at any slot, a single one too, lies between the two ends of the
    segment; two different slots are at least [SPACING] apart, and the
    frame at the lower slot ends before the frame at the higher slot
    begins. *)
Theorem frames_fit_and_do_not_overlap (lo hi : Q) :
  0 < usableLen lo hi ->
  let count := slotCount lo hi in
  let half := FrameTs.sizeX (FrameTs.bezel FRAME_W) / 2 in
  (forall i, (i < Z.to_nat count)%nat ->
     lo < slotPos lo hi count i - half /\
     slotPos lo hi count i + half < hi) /\
  (forall i j, (i < j < Z.to_nat count)%nat ->
     SPACING <= slotPos lo hi count j - slotPos lo hi count i /\
     slotPos lo hi count i + half < slotPos lo hi count j - half).
Proof.
  intros Hpos count half. split.
  - intros i Hi.
    pose proof (slot_margins lo hi i Hpos Hi) as Hm. fold count in Hm.
    subst half. cbn [FrameTs.sizeX FrameTs.bezel].
    split; qlin.
  - intros i j Hij.
    pose proof (slot_step lo hi i j Hpos Hij) as Hstep. fold count in Hstep.
    subst half. cbn [FrameTs.sizeX FrameTs.bezel].
    split; qlin.
Qed.

(** The single slot of the segment [-8, -1.5] beside the west doorway of
    the atrium: its frame starts after the corner and ends before the
    doorway. *)
Lemma frames_fit_and_do_not_overlap_witness :
  slotCount (-8) (-1.5) = 1%Z /\
  -8 < slotPos (-8) (-1.5) 1 0 - 0.99 /\
  slotPos (-8) (-1.5) 1 0 + 0.99 < -1.5.
Proof.
  split; [reflexivity|].
  assert (H : 0 < usableLen (-8) (-1.5)) by reflexivity.
  pose proof (proj1 (frames_fit_and_do_not_overlap (-8) (-1.5) H) 0%nat) as F.
  cbn zeta in F. change (slotCount (-8) (-1.5)) with 1%Z in F.
  cbn [FrameTs.sizeX FrameTs.bezel] in F.
  assert (Hi : (0 < Z.to_nat 1)%nat) by (vm_compute; lia).
  specialize (F Hi). split; qlin.
Defined.

(** *** Wall meshes and colliders *)

Lemma wallFootprints_app a b :
  wallFootprints (a ++ b) = wallFootprints a ++ wallFootprints b.
Proof. apply flat_map_app. Qed.

Lemma wallX_paired base z x0 x1 n st :
  Paired base st -> Paired base (wallX z x0 x1 n st).
Proof.
  intros (fps & Hf & H2). unfold Paired.
  cbn [wallX andThen sceneAdd pushCollider pushSeg scene colliders].
  eexists (fps ++ [_]). split.
  - rewrite wallFootprints_app, Hf, <- app_assoc. reflexivity.
  - apply Forall2_app; [exact H2|]. constructor; [|constructor].
    unfold rectEq. cbn [minX maxX minZ maxZ vx vz].
    destruct n; cbn; repeat split; qlin.
Qed.

Lemma wallZ_paired base x z0 z1 n st :
  Paired base st -> Paired base (wallZ x z0 z1 n st).
Proof.
  intros (fps & Hf & H2). unfold Paired.
  cbn [wallZ andThen sceneAdd pushCollider pushSeg scene colliders].
  eexists (fps ++ [_]). split.
  - rewrite wallFootprints_app, Hf, <- app_assoc. reflexivity.
  - apply Forall2_app; [exact H2|]. constructor; [|constructor].
    unfold rectEq. cbn [minX maxX minZ maxZ vx vz].
    destruct n; cbn; repeat split; qlin.
Qed.

Lemma runCall_paired base c st :
  callNoWall c -> Paired base st -> Paired base (runCall c st).
Proof.
  destruct c as [z lo hi n [d|] | x lo hi n [d|] | a]; simpl;
    intros Hc Hst; unfold andThen, when, skip.
  - destruct (gtb _ _); destruct (gtb _ _);
      repeat apply wallX_paired; exact Hst.
  - now apply wallX_paired.
  - destruct (gtb _ _); destruct (gtb _ _);
      repeat apply wallZ_paired; exact Hst.
  - now apply wallZ_paired.
  - destruct Hst as (fps & Hf & H2). destruct (Hc st) as [Hw Hcol].
    exists fps. now rewrite Hw, Hcol.
Qed.

Lemma runPlan_paired base plan :
  Forall callNoWall plan ->
  forall st, Paired base st -> Paired base (runPlan plan st).
Proof.
  induction 1 as [|c plan Hc _ IH]; intros st Hst; simpl.
  - exact Hst.
  - unfold andThen. apply IH, runCall_paired; assumption.
Qed.

Lemma gallery_calls_noWall : Forall callNoWall galleryPlan.
Proof.
  unfold galleryPlan.
  repeat (constructor;
          [first [exact I
                 | intros st; split; [|reflexivity];
                   cbn [addFloor addCeilingForRect addLights sceneAdd scene];
                   rewrite wallFootprints_app; apply app_nil_r]|]).
  constructor.
Qed.

Lemma hang_paired opts base pos rot st :
  Paired base st -> Paired base (hang opts pos rot st).
Proof.
  intros (fps & Hf & H2). unfold hang.
  destruct (nth_error _ _); [|exists fps; now split].
  exists fps. cbn [scene colliders]. split; [|exact H2].
  rewrite wallFootprints_app, Hf. apply app_nil_r.
Qed.

(** X13.  What is seen is what blocks: a run of [buildGallery] adds one
    wall mesh per collider it returns, in the same order, and the
    footprint of the mesh on the floor (its position plus and minus half
    its size) is the rectangle of the collider. *)
Theorem wall_meshes_match_colliders (sc : list SceneObj) (opts : BuildOpts) :
  exists fps,
    wallFootprints (fst (buildGallery sc opts)) = wallFootprints sc ++ fps /\
    Forall2 rectEq fps (resColliders (snd (buildGallery sc opts))).
Proof.
  cbn [buildGallery fst snd resColliders]. rewrite run_unfold.
  apply (hangAll_keeps opts (Paired (wallFootprints sc))).
  - intros pos rot st Hst _. now apply hang_paired.
  - rewrite buildRooms_plan.
    apply runPlan_paired; [apply gallery_calls_noWall|].
    exists []. cbn [scene colliders]. split; [now rewrite app_nil_r | constructor].
Qed.

(** *** Doorways *)

Lemma addWallX_door_pushed z lo hi n c st :
  forall r, In r (pushed st (addWallX z lo hi n (Some c) st)) ->
    maxX r == c - DOOR_W / 2 \/ minX r == c + DOOR_W / 2.
Proof.
  assert (E : exists l,
             Gallery.colliders (addWallX z lo hi n (Some c) st)
             = Gallery.colliders st ++ l /\
             forall r, In r l ->
               maxX r == c - DOOR_W / 2 \/ minX r == c + DOOR_W / 2).
  { unfold addWallX, andThen, when, skip.
    destruct (gtb (c - DOOR_W / 2) (lo + 0.01));
      destruct (gtb hi (c + DOOR_W / 2 + 0.01));
      rewrite ?wallX_colliders, <- ?app_assoc; cbn [app].
    - eexists. split; [reflexivity|].
      intros r [<- | [<- | []]]; cbn [minX maxX]; [left | right]; qlin.
    - eexists. split; [reflexivity|].
      intros r [<- | []]; cbn [minX maxX]; left; qlin.
    - eexists. split; [reflexivity|].
      intros r [<- | []]; cbn [minX maxX]; right; qlin.
    - exists []. split; [now rewrite app_nil_r | intros r []]. }
  destruct E as (l & El & Hl). unfold pushed.
  rewrite El, skipn_length_app. exact Hl.
Qed.

Lemma addWallZ_door_pushed x lo hi n c st :
  forall r, In r (pushed st (addWallZ x lo hi n (Some c) st)) ->
    maxZ r == c - DOOR_W / 2 \/ minZ r == c + DOOR_W / 2.
Proof.
  assert (E : exists l,
             Gallery.colliders (addWallZ x lo hi n (Some c) st)
             = Gallery.colliders st ++ l /\
             forall r, In r l ->
               maxZ r == c - DOOR_W / 2 \/ minZ r == c + DOOR_W / 2).
  { unfold addWallZ, andThen, when, skip.
    destruct (gtb (c - DOOR_W / 2) (lo + 0.01));
      destruct (gtb hi (c + DOOR_W / 2 + 0.01));
      rewrite ?wallZ_colliders, <- ?app_assoc; cbn [app].
    - eexists. split; [reflexivity|].
      intros r [<- | [<- | []]]; cbn [minZ maxZ]; [left | right]; qlin.
    - eexists. split; [reflexivity|].
      intros r [<- | []]; cbn [minZ maxZ]; left; qlin.
    - eexists. split; [reflexivity|].
      intros r [<- | []]; cbn [minZ maxZ]; right; qlin.
    - exists []. split; [now rewrite app_nil_r | intros r []]. }
  destruct E as (l & El & Hl). unfold pushed.
  rewrite El, skipn_length_app. exact Hl.
Qed.

(** X20.  Doorways can be walked through.  The colliders a wall call
    with a doorway centered at [c] pushes leave a strip free for the
    viewer: a position whose coordinate along the wall is within
    [DOOR_W/2 - playerRadius] (1.15) of [c] is in none of them inflated by
    the player radius, wherever it is across the wall. *)
Theorem doorways_are_passable (w lo hi : Q) (n : Normal) (c : Q)
    (st : Build) (x z : Q) :
  let reach := DOOR_W / 2 - Controls.playerRadius in
  (c - reach <= x <= c + reach ->
   forall r, In r (pushed st (addWallX w lo hi n (Some c) st)) ->
             ~ inflatedContains r Controls.playerRadius x z) /\
  (c - reach <= z <= c + reach ->
   forall r, In r (pushed st (addWallZ w lo hi n (Some c) st)) ->
             ~ inflatedContains r Controls.playerRadius x z).
Proof.
  cbn zeta. split; intros Hin r Hr [Cx Cz].
  - destruct (addWallX_door_pushed w lo hi n c st r Hr) as [H | H];
      unfold Controls.playerRadius in *; qlin.
  - destruct (addWallZ_door_pushed w lo hi n c st r Hr) as [H | H];
      unfold Controls.playerRadius in *; qlin.
Qed.

End GalleryMore.

(* ===================================================================== *)
(** ** The frame object *)
(* ===================================================================== *)

Module FrameFacts.
Import FrameTs Spec Extra.

Lemma append_nonempty (a b : string) : a <> ""%string -> (a ++ b)%string <> ""%string.
Proof. destruct a; [congruence | discriminate]. Qed.

Lemma truthy_some (s : string) : s <> ""%string -> truthy (Some s) = [s].
Proof.
  intros Hne. unfold truthy. apply String.eqb_neq in Hne. now rewrite Hne.
Qed.

Lemma or_file (joined f : string) :
  joined <> ""%string -> (if String.eqb joined "" then f else joined) = joined.
Proof. intros Hne. apply String.eqb_neq in Hne. now rewrite Hne. Qed.

(** X14.  The caption of a frame.  With a title and an author, both
    present and not empty, the label is the title, the dash and the
    author; with only one of them, that one; with neither (absent or
    empty) the file name.  So the label is empty only if the file name
    is. *)
Theorem caption_label (meta : ArtworkMeta) (url : string) (w : option Q) :
  let l := label (newFrame meta url w) in
  (forall t a, title meta = Some t -> author meta = Some a ->
               t <> ""%string -> a <> ""%string ->
               l = (t ++ dash ++ a)%string) /\
  (forall t, title meta = Some t -> t <> ""%string ->
             truthy (author meta) = [] -> l = t) /\
  (forall a, author meta = Some a -> a <> ""%string ->
             truthy (title meta) = [] -> l = a) /\
  (truthy (title meta) = [] -> truthy (author meta) = [] -> l = file meta) /\
  (file meta <> ""%string -> l <> ""%string).
Proof.
  cbn [label newFrame]. unfold captionLabel.
  split; [|split; [|split; [|split]]].
  - intros t a -> -> Ht Ha. rewrite !truthy_some by assumption.
    cbn [app join]. apply or_file. now apply append_nonempty.
  - intros t -> Ht ->. rewrite truthy_some by assumption.
    cbn [app join]. now apply or_file.
  - intros a -> Ha ->. rewrite truthy_some by assumption.
    cbn [app join]. now apply or_file.
  - intros -> ->. reflexivity.
  - intros Hf.
    destruct (String.eqb (join dash (truthy (title meta) ++ truthy (author meta))) "")
      eqn:E; [exact Hf|].
    now apply String.eqb_neq.
Qed.

Ltac frame_lin :=
  unfold inside, loX, hiX, loY, hiY, loZ, hiZ, caption, picture,
    innerFrame, bezel, imgH, capH, frameDepth in *;
  cbn [sizeX sizeY sizeZ center vx vy vz] in *;
  unfold Qdiv in *; change (/ 2) with (1 # 2) in *;
  repeat split; lra.

(** X15.  The parts of a frame, for any width.  The bezel exceeds the
    picture by 0.09 on every side and the picture lies in front of the
    front face of the bezel; the caption is as wide as the picture, lies
    wholly below it and in front of it; the inner border lies inside the
    box of the bezel.  The default width is that of the gallery's
    frames. *)
Theorem frame_parts (meta : ArtworkMeta) (url : string) (w : Q) :
  let f := newFrame meta url (Some w) in
  (loX (bezel w) == loX (imageMesh f) - 0.09 /\
   hiX (bezel w) == hiX (imageMesh f) + 0.09 /\
   loY (bezel w) == loY (imageMesh f) - 0.09 /\
   hiY (bezel w) == hiY (imageMesh f) + 0.09 /\
   hiZ (bezel w) < loZ (imageMesh f)) /\
  (sizeX (captionMesh f) == sizeX (imageMesh f) /\
   hiY (captionMesh f) < loY (imageMesh f) /\
   hiZ (imageMesh f) < loZ (captionMesh f)) /\
  inside (innerFrame w) (bezel w) /\
  In (bezel w) (children f) /\ In (innerFrame w) (children f) /\
  newFrame meta url None = newFrame meta url (Some Gallery.FRAME_W).
Proof.
  cbn [newFrame children imageMesh captionMesh].
  split; [frame_lin|]. split; [frame_lin|]. split; [frame_lin|].
  split; [now left|]. split; [right; now left | reflexivity].
Qed.

End FrameFacts.

(* ===================================================================== *)
(** ** The running application *)
(* ===================================================================== *)

Module MainFacts.
Import Gallery Controls Main Spec Extra NumFacts PlacementFacts GalleryFacts
  ControlsFacts ControlsMore GalleryMore.

Lemma firstn_min {A} (l : list A) (n : nat) :
  firstn (Nat.min (length l) n) l = firstn n l.
Proof.
  destruct (Nat.le_ge_cases n (length l)) as [H | H].
  - now rewrite Nat.min_r.
  - rewrite Nat.min_l by exact H. now rewrite firstn_all, firstn_all2.
Qed.

Lemma gallery_bounds_ok : wellFormed Gallery.bounds.
Proof. unfold wellFormed. vm_compute. repeat split; discriminate. Qed.

Lemma spawn_within : within Gallery.bounds suggestedSpawn.
Proof. unfold within. vm_compute. repeat split; discriminate. Qed.

Lemma spawn_free : free (Gallery.colliders roomsBuilt) suggestedSpawn.
Proof.
  unfold free. apply collides_false_iff. vm_compute. reflexivity.
Qed.

Section App.

Variables Math_sin Math_cos : Q -> Q.
Variable normalize : Vec3 -> Vec3.

Local Abbreviation loop := (loop Math_sin Math_cos normalize).
Local Abbreviation step := (step Math_sin Math_cos normalize).
Local Abbreviation runApp := (runApp Math_sin Math_cos normalize).
Local Abbreviation update := (update Math_sin Math_cos normalize).

Lemma start_ctl baseUrl ok json now0 :
  ctl (start baseUrl ok json now0)
  = mkCtl [] false 0 0 (mkCamera suggestedSpawn (mkVec3 0 0 0))
      (Some Gallery.bounds) (Gallery.colliders roomsBuilt).
Proof.
  unfold start.
  set (opts := mkOpts (baseUrl ++ "images") (fetchMetadata ok json)).
  cbn [buildGallery]. unfold setColliders, setBounds, createControls.
  cbn [ctl resSpawn resBounds resColliders keys isLocked yaw pitch camera
       Controls.bounds Controls.colliders].
  destruct (run_walls [] opts) as [_ Hc]. rewrite Hc. reflexivity.
Qed.

(** X16.  The application as started: the controls hold the bounds and
    the 30 colliders the gallery returned, the camera stands at the
    suggested spawn point, which is within the bounds and outside every
    inflated collider, no key is held and the pointer is not locked.  The
    scene holds a frame for each of the first 90 records fetched, in
    order, and none if the fetch failed. *)
Theorem app_as_started (baseUrl : string) (ok : bool)
    (json : list ArtworkMeta) (now0 : Q) :
  let app := start baseUrl ok json now0 in
  let c := ctl app in
  Controls.bounds c = Some Gallery.bounds /\
  Controls.colliders c
  = resColliders (snd (buildGallery [] (mkOpts (baseUrl ++ "images")
                                           (fetchMetadata ok json)))) /\
  length (Controls.colliders c) = 30%nat /\
  position (camera c) = suggestedSpawn /\
  within Gallery.bounds (position (camera c)) /\
  free (Controls.colliders c) (position (camera c)) /\
  keys c = [] /\ isLocked c = false /\
  hungMetas (appScene app) = firstn 90 (fetchMetadata ok json) /\
  (ok = false -> hungMetas (appScene app) = []).
Proof.
  intros app c. subst c app. rewrite start_ctl.
  cbn [Controls.bounds Controls.colliders camera position keys isLocked].
  set (opts := mkOpts (baseUrl ++ "images") (fetchMetadata ok json)).
  assert (Hm : hungMetas (appScene (start baseUrl ok json now0))
               = firstn 90 (fetchMetadata ok json)).
  { unfold start. fold opts. cbn [buildGallery appScene].
    destruct (run_in_order [] opts) as [Hm _].
    destruct (run_scene_rooms [] opts) as [_ Hi].
    rewrite Hm, Hi. cbn [hungMetas flat_map app].
    replace (length (layoutSlots (segs roomsBuilt))) with 90%nat
      by (vm_compute; reflexivity).
    apply firstn_min. }
  split; [reflexivity|]. split.
  { cbn [buildGallery snd resColliders].
    destruct (run_walls [] opts) as [_ Hc]. now rewrite Hc. }
  split; [vm_compute; reflexivity|].
  split; [reflexivity|]. split; [apply spawn_within|].
  split; [apply spawn_free|]. split; [reflexivity|]. split; [reflexivity|].
  split; [exact Hm|].
  intros ->. rewrite Hm. reflexivity.
Qed.

(** X17.  The step of a frame is clamped: [loop] updates the controls
    with a [dt] of at most 0.05, equal to the time since the last frame
    in seconds when that is at most 0.05, and not negative when the time
    stamps do not go back; it records the time stamp and leaves the scene
    alone. *)
Theorem frame_step_is_clamped (now : Q) (app : App) :
  exists dt,
    ctl (loop now app) = update dt (ctl app) /\
    dt <= 0.05 /\
    ((now - last app) / 1000 <= 0.05 -> dt == (now - last app) / 1000) /\
    (last app <= now -> 0 <= dt) /\
    last (loop now app) = now /\
    appScene (loop now app) = appScene app.
Proof.
  exists (Math_min ((now - last app) / 1000) 0.05).
  split; [reflexivity|].
  unfold Math_min.
  destruct (leb ((now - last app) / 1000) 0.05) eqn:E.
  - apply leb_iff in E. repeat split; try reflexivity; try exact E.
    intros Hle. unfold Qdiv in *. change (/ 1000) with (1 # 1000) in *. lra.
  - apply leb_false_iff in E. repeat split; try reflexivity; try lra.
Qed.

Lemma step_in_bounds app e :
  Controls.bounds (ctl app) = Some Gallery.bounds ->
  within Gallery.bounds (position (camera (ctl app))) ->
  Controls.bounds (ctl (step app e)) = Some Gallery.bounds /\
  within Gallery.bounds (position (camera (ctl (step app e)))).
Proof.
  intros Hb Hw. destruct e as [now | k | k | b | dx dy];
    cbn [step Main.loop ctl keydown keyup pointerlockchange
         Controls.bounds camera position]; auto.
  - unfold Controls.update. destruct (isLocked (ctl app)) eqn:El; [|auto].
    cbn [Controls.bounds camera position]. split; [exact Hb|].
    rewrite Hb. apply clampBounds_within, gallery_bounds_ok.
  - unfold mousemove. destruct (isLocked (ctl app)); simpl; auto.
Qed.

(** X18.  In the running application the camera never leaves the bounds
    of the gallery: after any sequence of frames, key presses and
    releases, pointer-lock changes and mouse moves, whatever the time
    stamps, the position of the camera is within the bounds on all three
    axes. *)
Theorem camera_stays_in_bounds (baseUrl : string) (ok : bool)
    (json : list ArtworkMeta) (now0 : Q) (es : list AppEvent) :
  within Gallery.bounds
    (position (camera (ctl (runApp (start baseUrl ok json now0) es)))).
Proof.
  assert (H : forall app,
             Controls.bounds (ctl app) = Some Gallery.bounds ->
             within Gallery.bounds (position (camera (ctl app))) ->
             within Gallery.bounds (position (camera (ctl (runApp app es))))).
  { unfold Main.runApp. induction es as [|e es IH]; intros app Hb Hw; simpl.
    - exact Hw.
    - destruct (step_in_bounds app e Hb Hw) as [Hb' Hw']. now apply IH. }
  apply H; rewrite start_ctl; [reflexivity | apply spawn_within].
Qed.

End App.

(** *** Never inside a wall *)

Lemma clamp_axis (lo hi s a b v : Q) :
  lo <= hi -> lo - s <= v <= hi + s ->
  (a < lo - s \/ lo <= a) -> (b <= hi \/ hi + s < b) ->
  a < Math_min hi (Math_max lo v) < b -> a < v < b.
Proof.
  intros Hwf Hv Ha Hb. unfold Math_min, Math_max.
  destruct (leb lo v) eqn:E1.
  - destruct (leb hi v) eqn:E2.
    + apply leb_iff in E2. intros Hq. destruct Hb; lra.
    + auto.
  - apply leb_false_iff in E1. destruct (leb hi lo) eqn:E2.
    + apply leb_iff in E2. intros Hq. destruct Ha; lra.
    + intros Hq. destruct Ha; lra.
Qed.

Lemma clampSafeb_spec b s r :
  clampSafeb b s r = true ->
  let rad := playerRadius in
  (minX r - rad < bMinX b - s \/ bMinX b <= minX r - rad) /\
  (maxX r + rad <= bMaxX b \/ bMaxX b + s < maxX r + rad) /\
  (minZ r - rad < bMinZ b - s \/ bMinZ b <= minZ r - rad) /\
  (maxZ r + rad <= bMaxZ b \/ bMaxZ b + s < maxZ r + rad).
Proof.
  unfold clampSafeb. rewrite !andb_true_iff, !orb_true_iff.
  rewrite !ltb_iff, !leb_iff. tauto.
Qed.

(** Clamping a free position that is at most a step outside the bounds
    gives a free position. *)
Lemma clamp_free b s cs v :
  wellFormed b -> forallb (clampSafeb b s) cs = true ->
  bMinX b - s <= vx v <= bMaxX b + s ->
  bMinZ b - s <= vz v <= bMaxZ b + s ->
  free cs v -> free cs (clampBounds (Some b) v).
Proof.
  intros (Wx & _ & Wz) Hsafe Hx Hz Hfree (r & Hin & [Cx Cz]).
  apply Hfree. exists r. split; [exact Hin|].
  rewrite forallb_forall in Hsafe.
  destruct (clampSafeb_spec b s r (Hsafe r Hin)) as (Sa & Sb & Sc & Sd).
  cbn [clampBounds vx vz] in Cx, Cz.
  split.
  - exact (clamp_axis _ _ s _ _ _ Wx Hx Sa Sb Cx).
  - exact (clamp_axis _ _ s _ _ _ Wz Hz Sc Sd Cz).
Qed.

Lemma slide_near cs p m :
  let q := slide cs p m in
  (vx q = vx p \/ vx q = vx p + vx m) /\
  (vz q = vz p \/ vz q = vz p + vz m).
Proof.
  cbn zeta. rewrite slide_per_axis. cbn zeta. cbn [vx vz].
  destruct (collides cs (vx p + vx m) (vz p));
    destruct (collides cs _ (vz p + vz m)); auto.
Qed.

Lemma gallery_clamp_safe :
  forallb (clampSafeb Gallery.bounds 0.3) (Gallery.colliders roomsBuilt) = true.
Proof. vm_compute. reflexivity. Qed.

Lemma loop_dt now app :
  last app <= now -> 0 <= Math_min ((now - last app) / 1000) 0.05 <= 0.05.
Proof.
  intros Hle. unfold Math_min.
  destruct (leb ((now - last app) / 1000) 0.05) eqn:E.
  - apply leb_iff in E. split; [|exact E].
    unfold Qdiv. change (/ 1000) with (1 # 1000). lra.
  - lra.
Qed.

Section Walls.

Variables Math_sin Math_cos : Q -> Q.
Variable normalize : Vec3 -> Vec3.
Hypothesis normalize_unit : unitLike normalize.

Local Abbreviation loop := (loop Math_sin Math_cos normalize).
Local Abbreviation step := (step Math_sin Math_cos normalize).
Local Abbreviation runApp := (runApp Math_sin Math_cos normalize).
Local Abbreviation update := (update Math_sin Math_cos normalize).
Local Abbreviation moveOf := (moveOf Math_sin Math_cos normalize).

(** In a step of at most 0.05 s the viewer moves at most 0.3 along each
    axis. *)
Lemma move_is_short st dt :
  0 <= dt <= 0.05 ->
  (-0.3 <= vx (moveOf st dt) <= 0.3) /\ (-0.3 <= vz (moveOf st dt) <= 0.3).
Proof.
  intros Hdt. unfold Controls.moveOf.
  set (f := normalize (mkVec3 (- Math_sin (yaw st)) 0 (- Math_cos (yaw st)))).
  set (r := normalize (crossVectors f UP)).
  destruct (normalize_unit (mkVec3 (- Math_sin (yaw st)) 0 (- Math_cos (yaw st))))
    as [Fx Fz].
  destruct (normalize_unit (crossVectors f UP)) as [Rx Rz].
  fold f in Fx, Fz. fold r in Rx, Rz.
  cbn [addScaledVector vx vz].
  destruct (has "w" (keys st) || has "arrowup" (keys st));
    [|destruct (has "s" (keys st) || has "arrowdown" (keys st))];
    (destruct (has "d" (keys st) || has "arrowright" (keys st));
     [|destruct (has "a" (keys st) || has "arrowleft" (keys st))]);
    split; nra.
Qed.

Lemma update_safe dt c :
  0 <= dt <= 0.05 -> Safe c -> Safe (update dt c).
Proof.
  intros Hdt (Hb & Hc & Hw & Hf). unfold Controls.update.
  destruct (isLocked c); [|exact (conj Hb (conj Hc (conj Hw Hf)))].
  unfold Safe. cbn [Controls.bounds Controls.colliders camera position].
  split; [exact Hb|]. split; [exact Hc|]. rewrite Hb, Hc.
  split; [apply clampBounds_within, gallery_bounds_ok|].
  destruct (move_is_short c dt Hdt) as [Mx Mz].
  destruct (slide_near (Gallery.colliders roomsBuilt) (position (camera c))
              (moveOf c dt)) as [Nx Nz].
  destruct Hw as (Wx & _ & Wz).
  apply (clamp_free Gallery.bounds 0.3).
  - apply gallery_bounds_ok.
  - apply gallery_clamp_safe.
  - destruct Nx as [-> | ->]; lra.
  - destruct Nz as [-> | ->]; lra.
  - now apply slide_free.
Qed.

Lemma step_safe app e :
  match e with FrameAt now => last app <= now | _ => True end ->
  Safe (ctl app) -> Safe (ctl (step app e)).
Proof.
  intros Ht Hs. destruct e as [now | k | k | b | dx dy]; cbn [step ctl].
  - cbn [Main.loop ctl]. apply update_safe; [now apply loop_dt | exact Hs].
  - exact Hs.
  - exact Hs.
  - exact Hs.
  - unfold mousemove. destruct (isLocked (ctl app)); exact Hs.
Qed.

End Walls.

(** X19.  In the running application the camera is never inside a wall:
    with a [normalize] that returns vectors with coordinates between -1
    and 1, and time stamps that do not go back, after any sequence of
    frames, key events, pointer-lock changes and mouse moves the position
    of the camera is outside every collider inflated by the player
    radius.  (A frame moves the viewer by at most 0.3 on an axis, the
    tests keep it out of the colliders, and no collider of the gallery
    has an edge within 0.3 of the border of the bounds, so clamping
    cannot push it into one.) *)
Theorem camera_never_in_a_wall (Math_sin Math_cos : Q -> Q)
    (normalize : Vec3 -> Vec3) (baseUrl : string) (ok : bool)
    (json : list ArtworkMeta) (now0 : Q) (es : list AppEvent) :
  unitLike normalize ->
  timely now0 es ->
  let c := ctl (runApp Math_sin Math_cos normalize
                  (start baseUrl ok json now0) es) in
  free (Controls.colliders c) (position (camera c)).
Proof.
  intros Hunit Htime c.
  assert (H : forall app,
             timely (last app) es -> Safe (ctl app) ->
             Safe (ctl (runApp Math_sin Math_cos normalize app es))).
  { clear c Htime. unfold Main.runApp.
    induction es as [|e es IH]; intros app Ht Hs; [exact Hs|].
    cbn [fold_left]. apply IH.
    - destruct e; cbn [timely] in Ht; cbn [Main.step last Main.loop];
        try exact Ht. apply Ht.
    - apply step_safe; [exact Hunit| |exact Hs].
      destruct e; cbn [timely] in Ht; [apply Ht | exact I ..]. }
  destruct (H (start baseUrl ok json now0)) as (_ & Hc & _ & Hf).
  - exact Htime.
  - rewrite start_ctl. unfold Safe.
    cbn [Controls.bounds Controls.colliders camera position].
    split; [reflexivity|]. split; [reflexivity|].
    split; [apply spawn_within | apply spawn_free].
  - subst c. rewrite Hc. exact Hf.
Qed.

Lemma camera_never_in_a_wall_witness :
  let c := ctl (runApp sampleSin sampleCos sampleUnit
                  (start "/" true (sampleArts 3) 0)
                  [LockChange true; KeyDownAt "w"; FrameAt 16; FrameAt 32]) in
  free (Controls.colliders c) (position (camera c)).
Proof.
  apply (camera_never_in_a_wall sampleSin sampleCos sampleUnit "/" true
           (sampleArts 3) 0
           [LockChange true; KeyDownAt "w"; FrameAt 16; FrameAt 32]).
  - intros v. simpl. split; split; discriminate.
  - simpl. repeat split; discriminate.
Defined.

End MainFacts.
